(** * Cashu redeem API: redemption orchestration, formalised

    A shallow embedding of the redemption engine of the Cashu redeem API
    (CashuService, LightningService, RedemptionService and the
    [/api/redeem] route) together with the properties its specification
    states about fees, invoice sizing, duplicate detection, settlement
    classification, the domain allow-list, amount bounds, the ledger sweep
    and the default Lightning address.

    Modelling conventions.
    - JavaScript strings are modelled as [string]: a character is a code
      unit below 256, so the strings of the model are the strings over
      U+0000 to U+00FF. The white space of [trim] and of the regex class
      [\s] in that range is U+0009 to U+000D, U+0020 and U+00A0.
    - Satoshi and millisatoshi amounts are JavaScript numbers with an
      integer value and are held as that integer, a [Z]. Their sums,
      differences and products are rounded as binary64 rounds them
      ([Number.plus], [Number.minus], [Number.times]), and they are printed
      as Number::toString prints them ([Number.toString]): exact below
      2^53, and not above. Numbers that need not be integers (the product
      [amount * 0.02], what a string or another value is converted to)
      are doubles of the Standard Library's [SpecFloat].
    - Timestamps ([new Date().toISOString()], [Date.now()]) are modelled as
      [Z], the milliseconds since the epoch they denote.
    - The libraries the engine links against (hash, id generator, token
      codec) are an [Env]; the mint and the LNURL provider are [Peers],
      and every round trip to them is recorded in a trace.
    - Asynchronous code is a tree of steps that suspends at each network
      call, and at the [await]s between the check for an earlier attempt
      and the write of the index: [exec] runs one request alone, [Loop]
      interleaves two. *)

From Stdlib Require Import Ascii String ZArith QArith Qround Floats.SpecFloat.
From stdpp Require Import base option list strings pretty gmap fin_maps.

Local Open Scope string_scope.
Local Open Scope Z_scope.
Set Warnings "-register-all".

(** ** Numbers

    JavaScript numbers are IEEE-754 binary64. *)

Module Number.

Definition prec : Z := 53.
Definition emax : Z := 1024.

(** The double that holds the integer [n] (rounded to nearest when [n]
    needs more than 53 bits). *)
Definition of_int (n : Z) : spec_float := binary_normalize prec emax n 0 false.

(** The literal [0.02], that is 0x1.47ae147ae147bp-6. *)
Definition lit_0_02 : spec_float := S754_finite false 5764607523034235 (-58).

(** [x * y] on doubles *)
Definition mul : spec_float → spec_float → spec_float := SFmul prec emax.

(** [Math.ceil] of a finite double, which is an integer again. Infinities
    and NaN have no integer value and are sent to 0; the product of an
    integer amount with 0.02 is finite. *)
Definition Math_ceil (x : spec_float) : Z :=
  match x with
  | S754_finite s m e =>
      let v := if s then Z.neg m else Z.pos m in
      if 0 <=? e then v * 2 ^ e else - ((- v) / 2 ^ (- e))
  | _ => 0
  end.

(** [Number.MAX_SAFE_INTEGER] *)
Definition MAX_SAFE_INTEGER : Z := 2 ^ 53 - 1.

(** *** Integer-valued numbers

    Amounts are numbers with an integer value, held as that integer. The
    sum, difference and product of two of them is the integer nearest to
    the exact result that a double can hold, ties going to the even
    mantissa. The exponent is not bounded: the model has no [Infinity],
    which JavaScript reaches at 2^1024. *)
Definition round (n : Z) : Z :=
  let a := Z.abs n in
  let e := Z.log2 a - 52 in
  if e <=? 0 then n
  else
    let q := a / 2 ^ e in
    let r := a mod 2 ^ e in
    let half := 2 ^ (e - 1) in
    let q' := if (half <? r) || ((r =? half) && Z.odd q) then q + 1 else q in
    Z.sgn n * (q' * 2 ^ e).

(** [a + b], [a - b] and [a * b] *)
Definition plus (a b : Z) : Z := round (a + b).
Definition minus (a b : Z) : Z := round (a - b).
Definition times (a b : Z) : Z := round (a * b).

(** *** Numbers in general *)

(** The double nearest to [m * 10 ^ k], [m] a natural number. *)
Definition of_decimal (neg : bool) (m k : Z) : spec_float :=
  match m with
  | Z.pos p =>
      if 0 <=? k then
        binary_normalize prec emax
          (if neg then - (m * 10 ^ k) else m * 10 ^ k) 0 false
      else
        SFdiv prec emax (S754_finite neg p 0)
              (S754_finite false (Z.to_pos (10 ^ (- k))) 0)
  | _ => S754_zero neg
  end.

(** The value of a finite double as a fraction, sign apart. *)
Definition fraction (m : positive) (e : Z) : Z * Z :=
  if 0 <=? e then (Z.pos m * 2 ^ e, 1) else (Z.pos m, 2 ^ (- e)).

(** [floor (num / den / 10 ^ p)] *)
Definition scaled (num den p : Z) : Z :=
  if 0 <=? p then num / (den * 10 ^ p) else (num * 10 ^ (- p)) / den.

Definition digits10 (n : Z) : Z := Z.of_nat (String.length (pretty n)).

(** The position of the decimal point: [10 ^ (n - 1) <= num / den < 10 ^ n]. *)
Definition point (num den : Z) : Z :=
  let n := digits10 num - digits10 den + 1 in
  if 1 <=? scaled num den (n - 1) then n else n - 1.

(** [num / den - lo * 10 ^ p] against [hi * 10 ^ p - num / den], where
    [hi = lo + 1]: which of the two decimals is the nearer. *)
Definition nearer (num den lo p : Z) : Z :=
  let '(a, b) :=
    if 0 <=? p then (2 * num, (2 * lo + 1) * 10 ^ p * den)
    else (2 * num * 10 ^ (- p), (2 * lo + 1) * den) in
  if a <? b then lo else if b <? a then lo + 1
  else if Z.even lo then lo else lo + 1.

(** The digits of the shortest decimal that reads back as [x], with the
    power of ten they are scaled by; shorter decimals are tried first. *)
Fixpoint shortest_go (fuel : nat) (x : spec_float) (num den p : Z) : Z * Z :=
  match fuel with
  | O => (scaled num den p, p)
  | S fuel' =>
      let lo := scaled num den p in
      let ok_lo := SFeqb (of_decimal false lo p) x in
      let ok_hi := SFeqb (of_decimal false (lo + 1) p) x in
      if ok_lo && ok_hi then (nearer num den lo p, p)
      else if ok_lo then (lo, p)
      else if ok_hi then (lo + 1, p)
      else shortest_go fuel' x num den (p - 1)
  end.

Fixpoint strip_zeros_rev (s : string) : string :=
  match s with
  | String "0" s' => strip_zeros_rev s'
  | _ => s
  end.
Definition strip_zeros (s : string) : string :=
  String.rev (strip_zeros_rev (String.rev s)).

Fixpoint zeros (n : nat) : string :=
  match n with O => "" | S n' => String "0" (zeros n') end.

(** The digits [d] with the decimal point after [n] of them, as
    Number::toString lays them out. *)
Definition layout (d : string) (n : Z) : string :=
  let k := Z.of_nat (String.length d) in
  if (k <=? n) && (n <=? 21) then d +:+ zeros (Z.to_nat (n - k))
  else if (0 <? n) && (n <=? 21) then
    String.substring 0 (Z.to_nat n) d +:+ "."
      +:+ String.substring (Z.to_nat n) (Z.to_nat (k - n)) d
  else if (-6 <? n) && (n <=? 0) then "0." +:+ zeros (Z.to_nat (- n)) +:+ d
  else
    let e := n - 1 in
    (match d with
     | String c "" => String c ""
     | String c rest => String c ("." +:+ rest)
     | "" => ""
     end) +:+ "e" +:+ (if e <? 0 then "-" else "+") +:+ pretty (Z.abs e).

(** Number::toString of a double. *)
Definition show (x : spec_float) : string :=
  match x with
  | S754_nan => "NaN"
  | S754_zero _ => "0"
  | S754_infinity s => if s then "-Infinity" else "Infinity"
  | S754_finite s m e =>
      let '(num, den) := fraction m e in
      let n := point num den in
      let '(digits, p) :=
        shortest_go 17 (S754_finite false m e) num den (n - 1) in
      let ds := pretty digits in
      (if s then "-" else "")
        +:+ layout (strip_zeros ds) (p + Z.of_nat (String.length ds))
  end.

(** Number::toString of an integer-valued number: below 2^53 its decimal
    digits are the shortest decimal that reads back as it. *)
Definition toString (n : Z) : string :=
  if Z.abs n <? 2 ^ 53 then pretty n else show (of_int n).

(** [Math.floor] *)
Definition Math_floor (x : spec_float) : spec_float :=
  match x with
  | S754_finite s m e =>
      if 0 <=? e then x
      else of_int ((if s then Z.neg m else Z.pos m) / 2 ^ (- e))
  | _ => x
  end.

(** [x - y] and [x / y] on doubles *)
Definition sub : spec_float → spec_float → spec_float := SFsub prec emax.
Definition div : spec_float → spec_float → spec_float := SFdiv prec emax.

End Number.

(** ** JavaScript values and strings *)

Module Js.

(** JSON-like values, as they come back from the mint or are stored in a
    ledger record. A number with an integer value is [JNum] of it; any
    other number (a fraction, [NaN], an infinity) is [JReal] of the
    double. *)
Inductive JsVal :=
| JUndefined
| JNull
| JBool (b : bool)
| JNum (n : Z)
| JStr (s : string)
| JArr (elems : list JsVal)
| JObj (fields : list (string * JsVal))
| JReal (x : spec_float).

(** ToBoolean *)
Definition truthy (v : JsVal) : bool :=
  match v with
  | JUndefined | JNull => false
  | JBool b => b
  | JNum n => negb (n =? 0)
  | JStr s => negb (String.eqb s "")
  | JArr _ | JObj _ => true
  | JReal x => match x with S754_nan | S754_zero _ => false | _ => true end
  end.

(** [a || b] and [a && b] return one of their operands. *)
Definition or (a b : JsVal) : JsVal := if truthy a then a else b.
Definition and (a b : JsVal) : JsVal := if truthy a then b else a.

(** [v === true] and [v === 'lit'] *)
Definition is_true (v : JsVal) : bool :=
  match v with JBool true => true | _ => false end.
Definition is_str (lit : string) (v : JsVal) : bool :=
  match v with JStr s => String.eqb s lit | _ => false end.

(** Property access [o.k]; [undefined] when the property is missing or [o]
    is not an object. *)
Fixpoint assoc (k : string) (fs : list (string * JsVal)) : JsVal :=
  match fs with
  | [] => JUndefined
  | (k', v) :: fs' => if String.eqb k k' then v else assoc k fs'
  end.
Definition get (o : JsVal) (k : string) : JsVal :=
  match o with JObj fs => assoc k fs | _ => JUndefined end.

(** White space of [String.prototype.trim] and of the class [\s]: the
    code units U+0009 to U+000D, U+0020 and U+00A0. *)
Definition is_ws (c : ascii) : bool :=
  let n := nat_of_ascii c in
  ((9 <=? n)%nat && (n <=? 13)%nat) || (n =? 32)%nat || (n =? 160)%nat.

Fixpoint trimStart (s : string) : string :=
  match s with
  | String c s' => if is_ws c then trimStart s' else s
  | EmptyString => EmptyString
  end.
Definition trim (s : string) : string :=
  String.rev (trimStart (String.rev (trimStart s))).

(** [toLowerCase]: the letters A to Z, and the letters of U+00C0 to
    U+00DE, which have their lower case 32 further on. *)
Definition lower (c : ascii) : ascii :=
  let n := nat_of_ascii c in
  if ((65 <=? n)%nat && (n <=? 90)%nat)
     || ((192 <=? n)%nat && (n <=? 222)%nat && negb (n =? 215)%nat)
  then ascii_of_nat (n + 32) else c.
Fixpoint toLowerCase (s : string) : string :=
  match s with
  | String c s' => String (lower c) (toLowerCase s')
  | EmptyString => EmptyString
  end.

(** [Array.prototype.includes] on an array of strings. *)
Definition includes (l : list string) (x : string) : bool :=
  existsb (String.eqb x) l.

(** [String.prototype.includes] *)
Fixpoint str_includes (needle hay : string) : bool :=
  String.prefix needle hay ||
  match hay with
  | String _ hay' => str_includes needle hay'
  | EmptyString => false
  end.

Definition startsWith (p s : string) : bool := String.prefix p s.

(** [s.split(c)] for a one-character separator. *)
Fixpoint split_go (sep : ascii) (cur : string) (s : string) : list string :=
  match s with
  | EmptyString => [String.rev cur]
  | String c s' =>
      if Ascii.eqb c sep then String.rev cur :: split_go sep "" s'
      else split_go sep (String c cur) s'
  end.
Definition split (sep : ascii) (s : string) : list string := split_go sep "" s.

(** [s.substring(0, n)] *)
Definition prefix_of (n : nat) (s : string) : string := String.substring 0 n s.

(** Regular expressions, matched by derivatives. [Class p] is a character
    class; a pattern written [/^r$/] matches [s] when [matches r s]. *)
Inductive regex :=
| Void
| Eps
| Class (p : ascii → bool)
| Seq (r1 r2 : regex)
| Alt (r1 r2 : regex)
| Star (r : regex).

Definition Plus (r : regex) : regex := Seq r (Star r).
Definition Chr (c : ascii) : regex := Class (Ascii.eqb c).
Fixpoint Lit (s : string) : regex :=
  match s with
  | EmptyString => Eps
  | String c s' => Seq (Chr c) (Lit s')
  end.

Fixpoint nullable (r : regex) : bool :=
  match r with
  | Void => false
  | Eps => true
  | Class _ => false
  | Seq r1 r2 => nullable r1 && nullable r2
  | Alt r1 r2 => nullable r1 || nullable r2
  | Star _ => true
  end.

Fixpoint deriv (c : ascii) (r : regex) : regex :=
  match r with
  | Void | Eps => Void
  | Class p => if p c then Eps else Void
  | Seq r1 r2 =>
      if nullable r1 then Alt (Seq (deriv c r1) r2) (deriv c r2)
      else Seq (deriv c r1) r2
  | Alt r1 r2 => Alt (deriv c r1) (deriv c r2)
  | Star r1 => Seq (deriv c r1) (Star r1)
  end.

Fixpoint matches (r : regex) (s : string) : bool :=
  match s with
  | EmptyString => nullable r
  | String c s' => matches (deriv c r) s'
  end.

(** String conversion, as in a template literal. *)
Fixpoint toString (v : JsVal) : string :=
  match v with
  | JUndefined => "undefined"
  | JNull => "null"
  | JBool b => if b then "true" else "false"
  | JNum n => Number.toString n
  | JReal x => Number.show x
  | JStr s => s
  | JArr l =>
      let elem x := match x with JUndefined | JNull => "" | _ => toString x end in
      (fix join (l : list JsVal) : string :=
         match l with
         | [] => ""
         | [x] => elem x
         | x :: l' => elem x +:+ "," +:+ join l'
         end) l
  | JObj _ => "[object Object]"
  end.

(** The value of a digit in a base up to 16. *)
Definition digit (radix : Z) (c : ascii) : option Z :=
  let n := Z.of_nat (nat_of_ascii c) in
  let d := if (48 <=? n) && (n <=? 57) then n - 48
           else if (97 <=? n) && (n <=? 102) then n - 87
           else if (65 <=? n) && (n <=? 70) then n - 55
           else radix in
  if d <? radix then Some d else None.

(** The longest run of digits at the start of [s]: its value, how many
    digits it has, and what follows it. *)
Fixpoint digits_go (radix acc : Z) (count : nat) (s : string) : Z * nat * string :=
  match s with
  | String c s' =>
      match digit radix c with
      | Some d => digits_go radix (radix * acc + d) (S count) s'
      | None => (acc, count, s)
      end
  | EmptyString => (acc, count, s)
  end.
Definition digits (radix : Z) (s : string) : Z * nat * string :=
  digits_go radix 0 0 s.

(** An optional sign: whether it is [-], and what follows it. *)
Definition signed (s : string) : bool * string :=
  match s with
  | String "-" s' => (true, s')
  | String "+" s' => (false, s')
  | _ => (false, s)
  end.

(** [parseInt(v)]: [None] stands for [NaN]. The value is turned into a
    string; leading white space and a sign are skipped; after [0x] or [0X]
    the digits are read in base 16, otherwise in base 10; the longest run
    of digits counts, and what follows it is ignored. *)
Definition parseInt (v : JsVal) : option Z :=
  let '(neg, s) := signed (trimStart (toString v)) in
  let '(radix, s) :=
    match s with
    | String "0" (String "x" s') | String "0" (String "X" s') => (16, s')
    | _ => (10, s)
    end in
  let '(n, count, _) := digits radix s in
  match count with
  | O => None
  | S _ => Some (Number.round (if neg then - n else n))
  end.

(** ToNumber of a string: white space around it is dropped; the empty
    string is 0; then come [Infinity] or a decimal literal, with an
    optional sign, or an unsigned literal in base 16, 8 or 2. Anything
    else is [NaN]. *)
Definition literal (radix : Z) (s : string) : spec_float :=
  match digits radix s with
  | (n, S _, "") => Number.of_int n
  | _ => S754_nan
  end.

Definition exponent (s : string) : option Z :=
  match s with
  | "" => Some 0
  | String "e" s' | String "E" s' =>
      let '(neg, s'') := signed s' in
      match digits 10 s'' with
      | (x, S _, "") => Some (if neg then - x else x)
      | _ => None
      end
  | _ => None
  end.

Definition decimal (s : string) : spec_float :=
  let '(neg, s) := signed s in
  if String.eqb s "Infinity" then S754_infinity neg
  else
    let '(i, ni, s) := digits 10 s in
    let '(f, nf, s) :=
      match s with
      | String "." s' => digits 10 s'
      | _ => (0, O, s)
      end in
    match (ni + nf)%nat, exponent s with
    | S _, Some x =>
        Number.of_decimal neg (i * 10 ^ Z.of_nat nf + f) (x - Z.of_nat nf)
    | _, _ => S754_nan
    end.

Definition stringToNumber (s : string) : spec_float :=
  match trim s with
  | "" => S754_zero false
  | String "0" (String "x" s') | String "0" (String "X" s') => literal 16 s'
  | String "0" (String "o" s') | String "0" (String "O" s') => literal 8 s'
  | String "0" (String "b" s') | String "0" (String "B" s') => literal 2 s'
  | s' => decimal s'
  end.

(** ToNumber; an array or an object is turned into a string first. *)
Definition toNumber (v : JsVal) : spec_float :=
  match v with
  | JUndefined => S754_nan
  | JNull => S754_zero false
  | JBool b => if b then Number.of_int 1 else S754_zero false
  | JNum n => Number.of_int n
  | JReal x => x
  | JStr s => stringToNumber s
  | JArr _ | JObj _ => stringToNumber (toString v)
  end.

(** The value that holds the number [x]. *)
Definition num (x : spec_float) : JsVal :=
  match x with
  | S754_zero _ => JNum 0
  | S754_finite s m e =>
      let v := if s then Z.neg m else Z.pos m in
      if 0 <=? e then JNum (v * 2 ^ e)
      else if Z.pos m mod 2 ^ (- e) =? 0 then JNum (v / 2 ^ (- e))
      else JReal x
  | _ => JReal x
  end.

(** Thrown values: [Error] objects, with the [code] that network errors
    carry. *)
Record JsError := mkError { code : option string; message : string }.
Definition Error (msg : string) : JsError := mkError None msg.

End Js.

Import Js.

(** ** Outcomes of calls that may throw *)

Inductive Outcome (A : Type) :=
| Return (a : A)
| Throw (e : JsError).
Arguments Return {A} a.
Arguments Throw {A} e.

(** [try { body } catch (error) { throw new Error(prefix + error.message) }] *)
Definition rethrow {A} (prefix : string) (o : Outcome A) : Outcome A :=
  match o with
  | Return a => Return a
  | Throw e => Throw (Error (prefix +:+ message e))
  end.

Definition bindO {A B} (o : Outcome A) (k : A → Outcome B) : Outcome B :=
  match o with
  | Return a => k a
  | Throw e => Throw e
  end.

(** ** The decoded token, as cashu-ts hands it over *)

Record Proof := { amount : Z; secret : string }.
Record TokenEntry := { entry_mint : string; entry_proofs : list Proof }.

(** [getDecodedToken] yields either an object with [proofs] and [mint], or
    an object with a [token] array of such entries. *)
Inductive Decoded :=
| DecodedProofs (mint : string) (proofs : list Proof)
| DecodedEntries (token : list TokenEntry).

Record TokenData := {
  td_mint : string;
  totalAmount : Z;
  numProofs : nat;
  denominations : list Z;
  td_proofs : list Proof;
  format : string
}.

(** ** CashuService: the parts that contact nobody *)

Module CashuService.

Section Codec.
(** The token codec of cashu-ts: [None] when it returns nothing. *)
Variable getDecodedToken : string → Outcome (option Decoded).

Definition alnum_dash (c : ascii) : bool :=
  let n := nat_of_ascii c in
  ((97 <=? n)%nat && (n <=? 122)%nat) || ((65 <=? n)%nat && (n <=? 90)%nat)
  || ((48 <=? n)%nat && (n <=? 57)%nat) || Ascii.eqb c "-" || Ascii.eqb c "_".

Definition one_of (cs : string) (c : ascii) : bool :=
  existsb (Ascii.eqb c) (list_ascii_of_string cs).

(** [/^cashu[abAB][a-zA-Z0-9-_]+$/] *)
Definition isValidTokenFormat (token : string) : bool :=
  matches (Seq (Lit "cashu") (Seq (Class (one_of "abAB")) (Plus (Class alnum_dash))))
          token.

Definition decodeTokenStructure (token : string) : Outcome (list Proof * string) :=
  rethrow "Token decoding failed: "
    (bindO (getDecodedToken token) (λ decoded,
       match decoded with
       | None => Throw (Error "Failed to decode token")
       | Some (DecodedProofs mint proofs) => Return (proofs, mint)
       | Some (DecodedEntries (e :: _)) => Return (entry_proofs e, entry_mint e)
       | Some (DecodedEntries []) => Throw (Error "Invalid token structure")
       end)).

(** Calculate 2% of the amount, rounded up; at least 1 sat. *)
Definition calculateFee (amount : Z) : Z :=
  let fee := Number.Math_ceil (Number.mul (Number.of_int amount) Number.lit_0_02) in
  Z.max 1 fee.

Definition parseToken (token : string) : Outcome TokenData :=
  rethrow "Token parsing failed: "
    (if String.eqb token "" then Throw (Error "Invalid token format")
     else
       let token := trim token in
       if negb (isValidTokenFormat token) then
         Throw (Error "Invalid token format. Must be a valid Cashu token")
       else
         bindO (decodeTokenStructure token) (λ '(proofs, mint),
           if (length proofs =? 0)%nat then
             Throw (Error "Invalid token structure - no proofs found")
           else
             let total :=
               foldl (λ sum proof, Number.plus sum (amount proof)) 0 proofs in
             if total <=? 0 then Throw (Error "Token has no value")
             else Return {| td_mint := mint;
                            totalAmount := total;
                            numProofs := length proofs;
                            denominations := map amount proofs;
                            td_proofs := proofs;
                            format := if startsWith "cashuA" token
                                      then "cashuA" else "cashuB" |})).

(** The mint a token names: [decoded.mint], else [decoded.token[0].mint],
    else [null]; [null] too when the codec returns nothing or throws. *)
Definition getTokenMintUrl (token : string) : option string :=
  match getDecodedToken token with
  | Return (Some (DecodedProofs mint _)) =>
      if String.eqb mint "" then None else Some mint
  | Return (Some (DecodedEntries (e :: _))) =>
      if String.eqb (entry_mint e) "" then None else Some (entry_mint e)
  | _ => None
  end.

Definition getTotalAmount (token : string) : Outcome Z :=
  bindO (parseToken token) (λ parsed, Return (totalAmount parsed)).

Definition validateToken (token : string) : bool :=
  if negb (isValidTokenFormat token) then false
  else
    match parseToken token with
    | Return parsed =>
        (0 <? totalAmount parsed) && (0 <? length (td_proofs parsed))%nat
    | Throw _ => false
    end.

End Codec.
End CashuService.

(** ** The environment and the state of the process *)

Record MeltQuote := { quote : string; quote_amount : Z; fee_reserve : Z }.

Record HttpResponse := { status : Z; statusText : string; data : JsVal }.

(** A round trip to another party. *)
Inductive NetCall :=
| MintGetInfo (mintUrl : string)
| MintCheck (mintUrl : string) (secrets : list string)
| MintMeltQuote (mintUrl : string) (bolt11 : string)
| MintMelt (mintUrl : string) (q : MeltQuote) (proofs : list Proof)
| HttpGet (url : string) (query : list (string * string)).

(** What each call is answered with. *)
Definition answerType (c : NetCall) : Type :=
  match c with
  | MintGetInfo _ => unit
  | MintCheck _ _ => JsVal
  | MintMeltQuote _ _ => MeltQuote
  | MintMelt _ _ _ => JsVal
  | HttpGet _ _ => HttpResponse
  end.

(** The libraries the process links against: the hash, the id generator
    (read at the number of ids drawn so far), the token codec of cashu-ts
    and the URL parser. *)
Record Env := {
  sha256_hex : string → string;
  uuidv4 : nat → string;
  getDecodedToken : string → Outcome (option Decoded);
  validURL : string → bool
}.

(** The other parties. What they answer may depend on everything that was
    sent so far, so each oracle reads the trace, the call it answers
    included. *)
Record Peers := {
  axios_get : list NetCall → string → list (string * string) → Outcome HttpResponse;
  mint_getInfo : list NetCall → string → Outcome unit;
  mint_check : list NetCall → string → list string → Outcome JsVal;
  wallet_createMeltQuote : list NetCall → string → string → Outcome MeltQuote;
  wallet_meltTokens : list NetCall → string → MeltQuote → list Proof → Outcome JsVal
}.

Definition respond (P : Peers) (t : list NetCall) (c : NetCall)
  : Outcome (answerType c) :=
  match c with
  | MintGetInfo mintUrl => mint_getInfo P t mintUrl
  | MintCheck mintUrl secrets => mint_check P t mintUrl secrets
  | MintMeltQuote mintUrl bolt11 => wallet_createMeltQuote P t mintUrl bolt11
  | MintMelt mintUrl q proofs => wallet_meltTokens P t mintUrl q proofs
  | HttpGet url query => axios_get P t url query
  end.

(** The two maps of RedemptionService, the two caches of CashuService, the
    calls made so far, the clock and the number of ids drawn. A ledger
    record is a JavaScript object. *)
Record State := {
  redemptions : gmap string (gmap string JsVal);
  tokenHashes : gmap string string;
  mints : gset string;
  wallets : gset string;
  trace : list NetCall;
  now : Z;
  drawn : nat
}.

(** Asynchronous code: it reads and writes the state, may throw, and
    suspends at every network call until the answer arrives ([Await]).
    It also suspends where it awaits a promise that settles without any
    answer from a peer ([Yield]): it then goes on in a later microtask,
    and code of another request may run before it does. Between two
    suspensions it runs without interruption. *)
Inductive Run (A : Type) : Type :=
| Ret (a : A)
| Raise (e : JsError)
| Gets (k : State → Run A)
| Modify (f : State → State) (k : Run A)
| Await (c : NetCall) (k : Outcome (answerType c) → Run A)
| Yield (k : Run A).
Arguments Ret {A} a.
Arguments Raise {A} e.
Arguments Gets {A} k.
Arguments Modify {A} f k.
Arguments Await {A} c k.
Arguments Yield {A} k.

Fixpoint bind {A B} (m : Run A) (k : A → Run B) : Run B :=
  match m with
  | Ret a => k a
  | Raise e => Raise e
  | Gets f => Gets (λ st, bind (f st) k)
  | Modify f m' => Modify f (bind m' k)
  | Await c f => Await c (λ o, bind (f o) k)
  | Yield m' => Yield (bind m' k)
  end.

#[global] Instance Run_ret : MRet Run := λ A a, Ret a.
#[global] Instance Run_bind : MBind Run := λ A B k m, bind m k.

(** [try { body } catch (error) { handler }]; what was written before a
    throw stays written. *)
Fixpoint try_catch {A} (body : Run A) (handler : JsError → Run A) : Run A :=
  match body with
  | Ret a => Ret a
  | Raise e => handler e
  | Gets f => Gets (λ st, try_catch (f st) handler)
  | Modify f m' => Modify f (try_catch m' handler)
  | Await c f => Await c (λ o, try_catch (f o) handler)
  | Yield m' => Yield (try_catch m' handler)
  end.

Definition throw {A} (e : JsError) : Run A := Raise e.
Definition lift {A} (o : Outcome A) : Run A :=
  match o with
  | Return a => Ret a
  | Throw e => Raise e
  end.
Definition gets {A} (f : State → A) : Run A := Gets (λ st, Ret (f st)).
Definition modify (f : State → State) : Run unit := Modify f (Ret tt).

(** [await] on a network call *)
Definition net (c : NetCall) : Run (answerType c) := Await c lift.

(** [await] on the promise of an asynchronous function of the program:
    the function runs, and its result or its error is handed over in a
    later microtask. It is written out where the order of two requests
    depends on it: in [validateRedemptionRequest] on [parseToken], and in
    the route on the validation and on [performRedemption]. The other
    [await]s on functions of the services are left implicit; a request
    that is served alone runs the same with or without them ([exec_await]
    below), and writing more of them out would only add to the ways in
    which two requests can be interleaved. *)
Definition await {A} (m : Run A) : Run A :=
  try_catch (a ← m; Yield (Ret a)) (λ e, Yield (Raise e)).

(** Recording a call in the trace. *)
Definition sent (c : NetCall) (st : State) : State :=
  {| redemptions := redemptions st; tokenHashes := tokenHashes st;
     mints := mints st; wallets := wallets st;
     trace := trace st ++ [c]; now := now st; drawn := drawn st |}.

(** One request served from start to end with nothing else in between:
    every call is answered by the peers at once. *)
Fixpoint exec {A} (P : Peers) (m : Run A) (st : State) : Outcome A * State :=
  match m with
  | Ret a => (Return a, st)
  | Raise e => (Throw e, st)
  | Gets f => exec P (f st) st
  | Modify f m' => exec P m' (f st)
  | Await c k => exec P (k (respond P (trace (sent c st)) c)) (sent c st)
  | Yield m' => exec P m' st
  end.

(** ** LightningService *)

Module LightningService.

Record Config := {
  allowedDomains : list string;
  defaultLightningAddress : option string
}.

(** The constructor reads [ALLOW_REDEEM_DOMAINS] and
    [DEFAULT_LIGHTNING_ADDRESS] from the process environment. *)
Definition new (ALLOW_REDEEM_DOMAINS DEFAULT_LIGHTNING_ADDRESS : option string)
  : Config :=
  {| allowedDomains :=
       match ALLOW_REDEEM_DOMAINS with
       | Some v => if String.eqb v "" then [] else map trim (split "," v)
       | None => []
       end;
     defaultLightningAddress := DEFAULT_LIGHTNING_ADDRESS |}.

Record InvoiceData := {
  bolt11 : JsVal;
  inv_amount : Z;
  amountMsats : Z;
  lightningAddress : string;
  domain : string;
  successAction : JsVal;
  lnurlpResponse : JsVal
}.

Section Service.
Context (E : Env) (cfg : Config).

Definition getDefaultLightningAddress : option string :=
  match defaultLightningAddress cfg with
  | Some a => if String.eqb a "" then None else Some a
  | None => None
  end.

(** [providedAddress && providedAddress.trim()] *)
Definition provided (providedAddress : option string) : bool :=
  match providedAddress with
  | Some a => negb (String.eqb a "") && negb (String.eqb (trim a) "")
  | None => false
  end.

Definition getLightningAddressToUse (providedAddress : option string)
  : Outcome string :=
  if provided providedAddress then Return (trim (default "" providedAddress))
  else
    match getDefaultLightningAddress with
    | None => Throw (Error
        "No Lightning address provided and no default Lightning address configured")
    | Some defaultAddress => Return defaultAddress
    end.

Definition not_ws_at (c : ascii) : bool := negb (is_ws c || Ascii.eqb c "@").

(** [/^[^\s@]+@[^\s@]+\.[^\s@]+$/] *)
Definition emailRegex : regex :=
  Seq (Plus (Class not_ws_at))
      (Seq (Chr "@")
           (Seq (Plus (Class not_ws_at))
                (Seq (Chr ".") (Plus (Class not_ws_at))))).

Definition validateLightningAddress (lightningAddress : string) : bool :=
  if String.eqb lightningAddress "" then false
  else matches emailRegex lightningAddress.

Definition isDomainAllowed (domain : string) : bool :=
  if (length (allowedDomains cfg) =? 0)%nat then true
  else if includes (allowedDomains cfg) "*" then true
  else includes (allowedDomains cfg) (toLowerCase domain).

(** [const [username, domain] = lightningAddress.split('@')]; an address
    that passed the format check has both parts. *)
Definition parseLightningAddress (lightningAddress : string)
  : Outcome (string * string) :=
  if negb (validateLightningAddress lightningAddress) then
    Throw (Error "Invalid Lightning address format")
  else
    match split "@" lightningAddress with
    | username :: domain :: _ =>
        if negb (isDomainAllowed domain) then
          Throw (Error ("Domain " +:+ domain +:+ " is not allowed for redemption"))
        else Return (username, domain)
    | _ => Throw (Error "Cannot read properties of undefined (reading 'toLowerCase')")
    end.

Definition getLNURLpEndpoint (lightningAddress : string) : Outcome string :=
  bindO (parseLightningAddress lightningAddress) (λ '(username, domain),
    Return ("https://" +:+ domain +:+ "/.well-known/lnurlp/" +:+ username)).

Definition is_nullish (v : JsVal) : bool :=
  match v with JUndefined | JNull => true | _ => false end.

Definition has_code (e : JsError) (c : string) : bool :=
  match code e with Some c' => String.eqb c' c | None => false end.

Definition fetchLNURLpResponse (lnurlpUrl : string) : Run JsVal :=
  try_catch
    (response ← net (HttpGet lnurlpUrl []);
     if negb (status response =? 200) then
       throw (Error ("HTTP " +:+ Number.toString (status response) +:+ ": "
                       +:+ statusText response))
     else
       let data := data response in
       if is_nullish data then
         throw (Error ("Cannot read properties of " +:+ toString data
                         +:+ " (reading 'status')"))
       else if is_str "ERROR" (get data "status") then
         throw (Error (toString (or (get data "reason")
                                    (JStr "LNURLp endpoint returned error"))))
       else if negb (truthy (get data "callback"))
               || negb (truthy (get data "minSendable"))
               || negb (truthy (get data "maxSendable")) then
         throw (Error "Invalid LNURLp response - missing required fields")
       else mret data)
    (λ error,
       if has_code error "ECONNREFUSED" || has_code error "ENOTFOUND" then
         throw (Error "Unable to connect to Lightning address provider")
       else throw (Error ("LNURLp fetch failed: " +:+ message error))).

(** The query parameters set on the callback URL: the amount, and the
    comment cut to 144 characters when there is one. *)
Definition invoiceQuery (amount : Z) (comment : string) : list (string * string) :=
  ("amount", Number.toString amount) ::
  (if negb (String.eqb comment "") then [("comment", prefix_of 144 comment)] else []).

Definition getInvoice (callbackUrl : JsVal) (amount : Z) (comment : string)
  : Run (JsVal * JsVal) :=
  try_catch
    (let url := toString callbackUrl in
     if negb (validURL E url) then throw (Error "Invalid URL")
     else
       response ← net (HttpGet url (invoiceQuery amount comment));
       if negb (status response =? 200) then
         throw (Error ("HTTP " +:+ Number.toString (status response) +:+ ": "
                         +:+ statusText response))
       else
         let data := data response in
         if is_nullish data then
           throw (Error ("Cannot read properties of " +:+ toString data
                           +:+ " (reading 'status')"))
         else if is_str "ERROR" (get data "status") then
           throw (Error (toString (or (get data "reason")
                                      (JStr "Invoice generation failed"))))
         else if negb (truthy (get data "pr")) then
           throw (Error "No invoice returned from callback")
         else mret (get data "pr", get data "successAction"))
    (λ error, throw (Error ("Invoice generation failed: " +:+ message error))).

Definition satsToMillisats (sats : Z) : Z := Number.times sats 1000.

(** [Math.floor(msats / 1000)], as the template literal prints it. *)
Definition millisatsToSats (msats : JsVal) : string :=
  Number.show (Number.Math_floor (Number.div (toNumber msats) (Number.of_int 1000))).

Definition validateAmount (amount : Z) (lnurlpResponse : JsVal) : bool :=
  let amountMsats := satsToMillisats amount in
  match parseInt (get lnurlpResponse "minSendable"),
        parseInt (get lnurlpResponse "maxSendable") with
  | Some minSendable, Some maxSendable =>
      (minSendable <=? amountMsats) && (amountMsats <=? maxSendable)
  | _, _ => false
  end.

Definition resolveInvoice (lightningAddress : string) (amount : Z)
    (comment : string) : Run InvoiceData :=
  try_catch
    (lnurlpUrl ← lift (getLNURLpEndpoint lightningAddress);
     lnurlpResponse ← fetchLNURLpResponse lnurlpUrl;
     if negb (validateAmount amount lnurlpResponse) then
       throw (Error ("Amount " +:+ Number.toString amount
                       +:+ " sats is outside allowed range: "
                       +:+ millisatsToSats (get lnurlpResponse "minSendable")
                       +:+ "-"
                       +:+ millisatsToSats (get lnurlpResponse "maxSendable")
                       +:+ " sats"))
     else
       let amountMsats := satsToMillisats amount in
       '(pr, action) ← getInvoice (get lnurlpResponse "callback") amountMsats comment;
       '(_, domain) ← lift (parseLightningAddress lightningAddress);
       mret {| bolt11 := pr;
               inv_amount := amount;
               amountMsats := amountMsats;
               lightningAddress := lightningAddress;
               domain := domain;
               successAction := action;
               lnurlpResponse := lnurlpResponse |})
    (λ error,
       throw (Error ("Lightning address resolution failed: " +:+ message error))).

End Service.
End LightningService.

(** ** Writing to the state *)

Definition set_redemptions (f : gmap string (gmap string JsVal) → gmap string (gmap string JsVal))
    (st : State) : State :=
  {| redemptions := f (redemptions st); tokenHashes := tokenHashes st;
     mints := mints st; wallets := wallets st;
     trace := trace st; now := now st; drawn := drawn st |}.

Definition set_tokenHashes (f : gmap string string → gmap string string)
    (st : State) : State :=
  {| redemptions := redemptions st; tokenHashes := f (tokenHashes st);
     mints := mints st; wallets := wallets st;
     trace := trace st; now := now st; drawn := drawn st |}.

Definition set_mints (f : gset string → gset string) (st : State) : State :=
  {| redemptions := redemptions st; tokenHashes := tokenHashes st;
     mints := f (mints st); wallets := wallets st;
     trace := trace st; now := now st; drawn := drawn st |}.

Definition set_wallets (f : gset string → gset string) (st : State) : State :=
  {| redemptions := redemptions st; tokenHashes := tokenHashes st;
     mints := mints st; wallets := f (wallets st);
     trace := trace st; now := now st; drawn := drawn st |}.

Definition draw (st : State) : State :=
  {| redemptions := redemptions st; tokenHashes := tokenHashes st;
     mints := mints st; wallets := wallets st;
     trace := trace st; now := now st; drawn := S (drawn st) |}.

(** ** CashuService: the parts that contact the mint *)

Record SpendCheck := {
  spendable : JsVal;
  pending : JsVal;
  sc_mintUrl : string;
  sc_totalAmount : Z
}.

Record MeltResult := {
  mr_paid : JsVal;
  mr_preimage : JsVal;
  mr_change : JsVal;
  mr_amount : Z;
  mr_fee : JsVal;
  mr_actualFee : Z;
  mr_netAmount : JsVal;
  mr_quote : string;
  rawMeltResponse : JsVal
}.

Module CashuMint.

Section Service.
Context (E : Env).

Definition parseToken := CashuService.parseToken (getDecodedToken E).
Definition decodeTokenStructure := CashuService.decodeTokenStructure (getDecodedToken E).

Definition getMint (mintUrl : string) : Run unit :=
  cached ← gets (λ st, bool_decide (mintUrl ∈ mints st));
  if negb cached then
    try_catch
      (net (MintGetInfo mintUrl);;
       modify (set_mints (λ ms, {[mintUrl]} ∪ ms)))
      (λ error, throw (Error ("Failed to connect to mint " +:+ mintUrl +:+ ": "
                                +:+ message error)))
  else mret tt.

Definition getWallet (mintUrl : string) : Run unit :=
  cached ← gets (λ st, bool_decide (mintUrl ∈ wallets st));
  if negb cached then
    try_catch
      (getMint mintUrl;;
       modify (set_wallets (λ ws, {[mintUrl]} ∪ ws)))
      (λ error, throw (Error ("Failed to create wallet for mint " +:+ mintUrl
                                +:+ ": " +:+ message error)))
  else mret tt.

(** [total - fee] where the fee was read from the mint's answer and is
    turned into a number first. *)
Definition minus (total : Z) (fee : JsVal) : JsVal :=
  num (Number.sub (Number.of_int total) (toNumber fee)).

(** The payment counts as made when [paid] is [true], or a preimage came
    back under either name, or [state] is ['PAID']. *)
Definition paymentSuccessful (meltResponse : JsVal) : JsVal :=
  or (or (or (JBool (is_true (get meltResponse "paid")))
             (get meltResponse "payment_preimage"))
         (get meltResponse "preimage"))
     (and (get meltResponse "state")
          (JBool (is_str "PAID" (get meltResponse "state")))).

Definition meltToken (token : string) (bolt11 : string) : Run MeltResult :=
  try_catch
    (parsed ← lift (parseToken token);
     getWallet (td_mint parsed);;
     '(proofs, _) ← lift (decodeTokenStructure token);
     meltQuote ← net (MintMeltQuote (td_mint parsed) bolt11);
     let expectedFee := CashuService.calculateFee (totalAmount parsed) in
     let totalRequired :=
       Number.plus (quote_amount meltQuote) (fee_reserve meltQuote) in
     if totalAmount parsed <? totalRequired then
       throw (Error ("Insufficient funds. Required: "
                       +:+ Number.toString totalRequired
                       +:+ " sats (including "
                       +:+ Number.toString (fee_reserve meltQuote)
                       +:+ " sats fee), Available: "
                       +:+ Number.toString (totalAmount parsed) +:+ " sats"))
     else
       meltResponse ← net (MintMelt (td_mint parsed) meltQuote proofs);
       if LightningService.is_nullish meltResponse then
         throw (Error ("Cannot read properties of " +:+ toString meltResponse
                         +:+ " (reading 'paid')"))
       else
         let actualFeeCharged :=
           or (or (get meltResponse "fee_paid") (get meltResponse "fee"))
              (JNum (fee_reserve meltQuote)) in
         mret {| mr_paid := paymentSuccessful meltResponse;
                 mr_preimage := or (get meltResponse "payment_preimage")
                                   (get meltResponse "preimage");
                 mr_change := or (get meltResponse "change") (JArr []);
                 mr_amount := quote_amount meltQuote;
                 mr_fee := actualFeeCharged;
                 mr_actualFee := expectedFee;
                 mr_netAmount := minus (totalAmount parsed) actualFeeCharged;
                 mr_quote := quote meltQuote;
                 rawMeltResponse := meltResponse |})
    (λ error,
       if str_includes "Insufficient funds" (message error)
          || str_includes "Payment failed" (message error)
          || str_includes "Quote not found" (message error)
       then throw error
       else throw (Error ("Melt operation failed: " +:+ message error))).

(** Errors of the mint client are [Error] objects with a message. *)
Definition checkTokenSpendable (token : string) : Run SpendCheck :=
  try_catch
    (parsed ← lift (parseToken token);
     getMint (td_mint parsed);;
     let secrets := map secret (td_proofs parsed) in
     checkResult ← net (MintCheck (td_mint parsed) secrets);
     if LightningService.is_nullish checkResult then
       throw (Error ("Cannot read properties of " +:+ toString checkResult
                       +:+ " (reading 'spendable')"))
     else
       mret {| spendable := or (get checkResult "spendable") (JArr []);
               pending := or (get checkResult "pending") (JArr []);
               sc_mintUrl := td_mint parsed;
               sc_totalAmount := totalAmount parsed |})
    (λ error,
       let errorMessage :=
         if negb (String.eqb (message error) "")
            && negb (String.eqb (message error) "[object Object]")
         then message error
         else if String.eqb (message error) "" then "Error"
         else "Error: " +:+ message error in
       if existsb (λ pat, str_includes pat errorMessage)
            ["not supported"; "404"; "405"; "501"; "Method not allowed";
             "endpoint not found"; "not implemented"; "Invalid response from mint"]
       then throw (Error
         "This mint does not support spendability checking. Token may still be valid.")
       else throw (Error ("Failed to check token spendability: " +:+ errorMessage))).

End Service.
End CashuMint.

(** The repository holds a second revision of the same service, whose
    [meltToken] takes an answer without [paid] for a failure. *)
Module CashuMintStrict.

Section Service.
Context (E : Env).

Definition meltToken (token : string) (bolt11 : string) : Run MeltResult :=
  try_catch
    (parsed ← lift (CashuMint.parseToken E token);
     CashuMint.getWallet (td_mint parsed);;
     '(proofs, _) ← lift (CashuMint.decodeTokenStructure E token);
     meltQuote ← net (MintMeltQuote (td_mint parsed) bolt11);
     let expectedFee := CashuService.calculateFee (totalAmount parsed) in
     let totalRequired :=
       Number.plus (quote_amount meltQuote) (fee_reserve meltQuote) in
     if totalAmount parsed <? totalRequired then
       throw (Error ("Insufficient funds. Required: "
                       +:+ Number.toString totalRequired
                       +:+ " sats (including "
                       +:+ Number.toString (fee_reserve meltQuote)
                       +:+ " sats fee), Available: "
                       +:+ Number.toString (totalAmount parsed) +:+ " sats"))
     else
       meltResponse ← net (MintMelt (td_mint parsed) meltQuote proofs);
       if LightningService.is_nullish meltResponse then
         throw (Error ("Cannot read properties of " +:+ toString meltResponse
                         +:+ " (reading 'paid')"))
       else if negb (truthy (get meltResponse "paid")) then
         throw (Error
           "Payment failed - token melted but Lightning payment was not successful")
       else
         mret {| mr_paid := get meltResponse "paid";
                 mr_preimage := get meltResponse "payment_preimage";
                 mr_change := or (get meltResponse "change") (JArr []);
                 mr_amount := quote_amount meltQuote;
                 mr_fee := JNum (fee_reserve meltQuote);
                 mr_actualFee := expectedFee;
                 mr_netAmount :=
                   JNum (Number.minus (totalAmount parsed) (fee_reserve meltQuote));
                 mr_quote := quote meltQuote;
                 rawMeltResponse := JUndefined |})
    (λ error,
       if str_includes "Insufficient funds" (message error)
          || str_includes "Payment failed" (message error)
          || str_includes "Quote not found" (message error)
       then throw error
       else throw (Error ("Melt operation failed: " +:+ message error))).

End Service.
End CashuMintStrict.

(** ** RedemptionService *)

(** What [getRedemptionStatus] answers: the status and the [details]
    object, its properties in the order they are set. *)
Record StatusResponse := {
  sr_status : JsVal;
  sr_details : list (string * JsVal)
}.

Inductive RedemptionResult :=
| Redeemed (redeemId : string) (paid : JsVal) (amount invoiceAmount : Z)
    (to : string) (usingDefaultAddress : bool) (fee : JsVal) (actualFee : Z)
    (netAmount preimage change : JsVal) (mint format : string)
| NotRedeemed (redeemId : string) (error : string).

Record Validation := {
  valid : bool;
  errors : list string;
  tokenData : option TokenData;
  lightningAddressToUse : option string
}.

Module RedemptionService.

Section Service.
Context (E : Env) (cfg : LightningService.Config).

Definition generateTokenHash (token : string) : string :=
  prefix_of 16 (sha256_hex E token).

(** [{ ...status, createdAt, updatedAt }] *)
Definition stored (redeemId : string) (status : gmap string JsVal) (st : State)
  : State :=
  set_redemptions
    (insert redeemId (<["updatedAt" := JNum (now st)]>
                        (<["createdAt" := JNum (now st)]> status))) st.

Definition storeRedemption (redeemId : string) (status : gmap string JsVal)
  : Run unit :=
  modify (stored redeemId status).

(** [{ ...existing, ...updates, updatedAt }], when the record exists *)
Definition merged (redeemId : string) (updates : gmap string JsVal) (st : State)
  : State :=
  match redemptions st !! redeemId with
  | Some existing =>
      set_redemptions
        (insert redeemId (<["updatedAt" := JNum (now st)]> (updates ∪ existing))) st
  | None => st
  end.

Definition updateRedemption (redeemId : string) (updates : gmap string JsVal)
  : Run unit :=
  modify (merged redeemId updates).

Definition getRedemption (redeemId : string) (st : State)
  : option (gmap string JsVal) :=
  redemptions st !! redeemId.

Definition getRedemptionByTokenHash (tokenHash : string) (st : State)
  : option (gmap string JsVal) :=
  match tokenHashes st !! tokenHash with
  | Some redeemId =>
      if String.eqb redeemId "" then None else getRedemption redeemId st
  | None => None
  end.

Definition checkExistingRedemption (token : string) (st : State)
  : option (gmap string JsVal) :=
  getRedemptionByTokenHash (generateTokenHash token) st.

(** [token] and [lightningAddress] are the fields of the request body;
    [None] is a field that was left out. The check for an earlier attempt
    comes before the [await] on [parseToken]. *)
Definition validateRedemptionRequest (token lightningAddress : option string)
  : Run Validation :=
  st ← gets id;
  let token_ok := match token with Some t => negb (String.eqb t "") | None => false end in
  let errors := if token_ok then [] else ["Token is required and must be a string"] in
  let '(addressToUse, errors) :=
    match LightningService.getLightningAddressToUse cfg lightningAddress with
    | Return a =>
        (Some a,
         if negb (LightningService.validateLightningAddress a)
         then (errors ++ ["Invalid Lightning address format"])%list else errors)
    | Throw error => (None, (errors ++ [message error])%list)
    end in
  let errors :=
    match token with
    | Some t =>
        if token_ok then
          match checkExistingRedemption t st with
          | Some _ => (errors ++ ["Token has already been redeemed"])%list
          | None => errors
          end
        else errors
    | None => errors
    end in
  '(tokenData, errors) ←
    match token with
    | Some t =>
        if token_ok && (length errors =? 0)%nat then
          try_catch
            (td ← await (lift (CashuMint.parseToken E t));
             mret (Some td,
                   if totalAmount td <=? 0
                   then (errors ++ ["Token has no value"])%list else errors))
            (λ error,
               mret (None, (errors ++ ["Invalid token: " +:+ message error])%list))
        else mret (None, errors)
    | None => mret (None, errors)
    end;
  mret {| valid := (length errors =? 0)%nat;
          errors := errors;
          tokenData := tokenData;
          lightningAddressToUse := addressToUse |}.

Definition blank (lightningAddress : option string) : bool :=
  match lightningAddress with
  | Some a => String.eqb a "" || String.eqb (trim a) ""
  | None => true
  end.

(** [spendable.length === 0] *)
Definition has_length_0 (v : JsVal) : bool :=
  match v with
  | JArr l => (length l =? 0)%nat
  | JStr s => (String.length s =? 0)%nat
  | _ => false
  end.

(** The spendability probe: a clear sign that the proofs were used ends
    the attempt, any other failure of the probe is only logged. *)
Definition spendabilityStep (token : string) : Run unit :=
  try_catch
    (spendabilityCheck ← CashuMint.checkTokenSpendable E token;
     if negb (truthy (spendable spendabilityCheck))
        || has_length_0 (spendable spendabilityCheck) then
       throw (Error
         "Token proofs are not spendable - they have already been used or are invalid")
     else mret tt)
    (λ spendError,
       if str_includes "not spendable" (message spendError)
          || str_includes "already been used" (message spendError)
          || str_includes "invalid proofs" (message spendError)
          || str_includes "422" (message spendError)
       then throw (Error
         "This token has already been spent and cannot be redeemed again")
       else mret tt).

(** The [try] block of [performRedemption] from "Step 1: Parse and
    validate token" to its [return]. *)
Definition redemptionSteps (redeemId token lightningAddressToUse : string)
    (isUsingDefault : bool) : Run RedemptionResult :=
  updateRedemption redeemId {["status" := JStr "parsing_token"]};;
  tokenData ← lift (CashuMint.parseToken E token);
  let expectedFee := CashuService.calculateFee (totalAmount tokenData) in
  let netAmountAfterFee := Number.minus (totalAmount tokenData) expectedFee in
  if netAmountAfterFee <=? 0 then
    throw (Error ("Token amount (" +:+ Number.toString (totalAmount tokenData)
                    +:+ " sats) is insufficient to cover the minimum fee ("
                    +:+ Number.toString expectedFee +:+ " sats)"))
  else
    updateRedemption redeemId (list_to_map
      [("amount", JNum (totalAmount tokenData));
       ("mint", JStr (td_mint tokenData));
       ("numProofs", JNum (Z.of_nat (numProofs tokenData)));
       ("expectedFee", JNum expectedFee);
       ("netAmountAfterFee", JNum netAmountAfterFee);
       ("format", JStr (format tokenData))]);;
    updateRedemption redeemId {["status" := JStr "checking_spendability"]};;
    spendabilityStep token;;
    updateRedemption redeemId {["status" := JStr "resolving_invoice"]};;
    invoiceData ← LightningService.resolveInvoice E cfg lightningAddressToUse
                    netAmountAfterFee "Cashu redemption";
    match LightningService.bolt11 invoiceData with
    | JStr bolt11 =>
        updateRedemption redeemId (list_to_map
          [("bolt11", JStr (prefix_of 50 bolt11 +:+ "..."));
           ("domain", JStr (LightningService.domain invoiceData));
           ("invoiceAmount", JNum netAmountAfterFee)]);;
        updateRedemption redeemId {["status" := JStr "melting_token"]};;
        meltResult ← CashuMint.meltToken E token bolt11;
        let paymentSuccessful :=
          or (mr_paid meltResult) (JBool (truthy (mr_preimage meltResult))) in
        paidAt ← gets (λ st, if truthy paymentSuccessful then JNum (now st) else JNull);
        updateRedemption redeemId (list_to_map
          [("status", JStr (if truthy paymentSuccessful then "paid" else "failed"));
           ("paid", paymentSuccessful);
           ("preimage", mr_preimage meltResult);
           ("fee", mr_fee meltResult);
           ("actualFee", JNum (mr_actualFee meltResult));
           ("netAmount", mr_netAmount meltResult);
           ("change", mr_change meltResult);
           ("paidAt", paidAt);
           ("rawMeltResponse", rawMeltResponse meltResult)]);;
        mret (Redeemed redeemId paymentSuccessful (totalAmount tokenData)
                netAmountAfterFee lightningAddressToUse isUsingDefault
                (mr_fee meltResult) (mr_actualFee meltResult)
                (mr_netAmount meltResult) (mr_preimage meltResult)
                (mr_change meltResult) (td_mint tokenData) (format tokenData))
    | _ => throw (Error "invoiceData.bolt11.substring is not a function")
    end.

(** The record written when the attempt starts. *)
Definition initialStatus (token tokenHash lightningAddressToUse : string)
    (isUsingDefault : bool) : gmap string JsVal :=
  list_to_map
    [("status", JStr "processing");
     ("token", JStr (prefix_of 50 token +:+ "..."));
     ("tokenHash", JStr tokenHash);
     ("lightningAddress", JStr lightningAddressToUse);
     ("usingDefaultAddress", JBool isUsingDefault);
     ("amount", JNull);
     ("paid", JBool false);
     ("error", JNull)].

(** The [catch] block of [performRedemption]. *)
Definition recordFailure (redeemId : string) (error : JsError)
  : Run RedemptionResult :=
  updateRedemption redeemId (list_to_map
    [("status", JStr "failed"); ("paid", JBool false);
     ("error", JStr (message error))]);;
  mret (NotRedeemed redeemId (message error)).

Definition performRedemption (token : string) (lightningAddress : option string)
  : Run RedemptionResult :=
  redeemId ← gets (λ st, uuidv4 E (drawn st));
  modify draw;;
  let tokenHash := generateTokenHash token in
  try_catch
    (lightningAddressToUse ←
       lift (LightningService.getLightningAddressToUse cfg lightningAddress);
     let isUsingDefault := blank lightningAddress in
     storeRedemption redeemId
       (initialStatus token tokenHash lightningAddressToUse isUsingDefault);;
     modify (set_tokenHashes (insert tokenHash redeemId));;
     redemptionSteps redeemId token lightningAddressToUse isUsingDefault)
    (recordFailure redeemId).

(** [redemption.k], [undefined] when the record has no such property *)
Definition field (redemption : gmap string JsVal) (k : string) : JsVal :=
  default JUndefined (redemption !! k).

Definition getRedemptionStatus (redeemId : string) (st : State)
  : option StatusResponse :=
  match getRedemption redeemId st with
  | None => None
  | Some redemption =>
      let optional k :=
        if truthy (field redemption k) then [(k, field redemption k)] else [] in
      Some {| sr_status := field redemption "status";
              sr_details :=
                [("amount", field redemption "amount");
                 ("to", field redemption "lightningAddress");
                 ("paid", field redemption "paid");
                 ("createdAt", field redemption "createdAt");
                 ("updatedAt", field redemption "updatedAt")]
                ++ optional "paidAt" ++ optional "fee" ++ optional "error"
                ++ optional "mint" ++ optional "domain" |}
  end.

(** [new Date(redemption.createdAt) < cutoff]; a record without a creation
    date compares as [false]. *)
Definition createdBefore (cutoff : Z) (redemption : gmap string JsVal) : bool :=
  match redemption !! "createdAt" with
  | Some (JNum createdAt) => createdAt <? cutoff
  | _ => false
  end.

Definition sweepEntry (cutoff : Z) (st : State)
    (entry : string * gmap string JsVal) : State :=
  let '(redeemId, redemption) := entry in
  if createdBefore cutoff redemption then
    let st := set_redemptions (delete redeemId) st in
    match redemption !! "tokenHash" with
    | Some (JStr tokenHash) =>
        if negb (String.eqb tokenHash "")
        then set_tokenHashes (delete tokenHash) st else st
    | _ => st
    end
  else st.

(** 24 hours *)
Definition defaultMaxAgeMs : Z := 24 * 60 * 60 * 1000.

Definition cleanupOldRedemptions (maxAgeMs : option Z) : Run unit :=
  modify (λ st,
    let cutoff := now st - default defaultMaxAgeMs maxAgeMs in
    foldl (sweepEntry cutoff) st (map_to_list (redemptions st))).

End Service.
End RedemptionService.

(** ** The route [POST /api/redeem] *)

Inductive Response :=
| Ok200 (result : RedemptionResult)
| BadRequest400 (error : string) (redeemId : option string)
| ServerError500.

Fixpoint join (sep : string) (l : list string) : string :=
  match l with
  | [] => ""
  | [x] => x
  | x :: l' => x +:+ sep +:+ join sep l'
  end.

Section Route.
Context (E : Env) (cfg : LightningService.Config).

Definition redeem (token lightningAddress : option string) : Run Response :=
  validation ← await (RedemptionService.validateRedemptionRequest E cfg token
                        lightningAddress);
  if negb (valid validation) then
    mret (BadRequest400 (join ", " (errors validation)) None)
  else
    match token with
    | Some token =>
        try_catch
          (result ← await (RedemptionService.performRedemption E cfg token
                             lightningAddress);
           match result with
           | Redeemed _ _ _ _ _ _ _ _ _ _ _ _ _ => mret (Ok200 result)
           | NotRedeemed redeemId error => mret (BadRequest400 error (Some redeemId))
           end)
          (λ _, mret ServerError500)
    | None => mret ServerError500
    end.

End Route.

(** ** The other routes and the rate limiter *)

Module Server.

(** [parseInt(process.env.RATE_LIMIT) || 100] *)
Definition RATE_LIMIT (env : option string) : Z :=
  match env ≫= (λ v, parseInt (JStr v)) with
  | Some n => if n =? 0 then 100 else n
  | None => 100
  end.

(** [req.ip || req.connection.remoteAddress]; [None] is [undefined]. *)
Definition clientId (ip remoteAddress : option string) : option string :=
  match ip with
  | Some a => if String.eqb a "" then remoteAddress else Some a
  | None => remoteAddress
  end.

(** The limiter keeps, for each client, the times of the requests it let
    through. It answers [true] when the request goes on to the routes and
    [false] when it is answered 429. The array that is filtered is the one
    stored and the one pushed to, so the push shows in the map. *)
Definition rateLimit (limit : Z) (client : option string) (now : Z)
    (rateLimitMap : gmap (option string) (list Z))
  : bool * gmap (option string) (list Z) :=
  let windowStart := now - 60000 in
  let requests := default [] (rateLimitMap !! client) in
  let validRequests := List.filter (λ time, windowStart <? time) requests in
  if limit <=? Z.of_nat (length validRequests)
  then (false, <[client := validRequests]> rateLimitMap)
  else (true, <[client := (validRequests ++ [now])%list]> rateLimitMap).

Inductive DecodeAnswer :=
| Decode200 (mint : string) (totalAmount : Z) (numProofs : nat)
    (denominations : list Z) (format : string) (mint_url : option string)
| Decode400 (error : string).

Inductive StatusAnswer :=
| Status200 (response : StatusResponse)
| Status400 (error : string)
| Status404 (error : string).

Inductive SpendableAnswer :=
| Spendable200 (spendable pending : JsVal) (mintUrl : string) (totalAmount : Z)
    (message : string)
| Spendable400 (error : string).

(** [v.length > 0]; arrays and strings have a length, and the comparison
    is false for a value that has none. *)
Definition length_positive (v : JsVal) : bool :=
  match v with
  | JArr l => (0 <? length l)%nat
  | JStr s => (0 <? String.length s)%nat
  | _ => false
  end.

Section Routes.
Context (E : Env).

(** [POST /api/decode]; [token] is the field of the request body. *)
Definition decode (token : option string) : DecodeAnswer :=
  match token with
  | Some token =>
      if String.eqb token "" then Decode400 "Token is required"
      else if negb (CashuService.isValidTokenFormat token) then
        Decode400 "Invalid token format. Must be a valid Cashu token"
      else
        match CashuService.parseToken (getDecodedToken E) token with
        | Return decoded =>
            let mintUrl := CashuService.getTokenMintUrl (getDecodedToken E) token in
            Decode200 (td_mint decoded) (totalAmount decoded) (numProofs decoded)
              (denominations decoded) (format decoded) mintUrl
        | Throw error => Decode400 (message error)
        end
  | None => Decode400 "Token is required"
  end.

(** [POST /api/status] *)
Definition status_post (redeemId : option string) : Run StatusAnswer :=
  match redeemId with
  | Some redeemId =>
      if String.eqb redeemId "" then mret (Status400 "redeemId is required")
      else
        status ← gets (RedemptionService.getRedemptionStatus redeemId);
        match status with
        | Some status => mret (Status200 status)
        | None => mret (Status404 "Redemption not found")
        end
  | None => mret (Status400 "redeemId is required")
  end.


(** [POST /api/check-spendable] *)
Definition check_spendable (token : option string) : Run SpendableAnswer :=
  match token with
  | Some token =>
      if String.eqb token "" then mret (Spendable400 "Token is required")
      else
        try_catch
          (if negb (CashuService.isValidTokenFormat token) then
             mret (Spendable400 "Invalid token format. Must be a valid Cashu token")
           else
             spendabilityCheck ← CashuMint.checkTokenSpendable E token;
             let listed := spendable spendabilityCheck in
             mret (Spendable200 listed (pending spendabilityCheck)
                     (sc_mintUrl spendabilityCheck)
                     (sc_totalAmount spendabilityCheck)
                     (if truthy listed && length_positive listed
                      then "Token is spendable"
                      else "Token proofs are not spendable - may have already been used")))
          (λ error, mret (Spendable400 (message error)))
  | None => mret (Spendable400 "Token is required")
  end.

End Routes.

End Server.

(** ** The event loop: two requests in flight *)

Module Loop.

(** Code that ran up to its next suspension. *)
Inductive Paused (A : Type) : Type :=
| Done (o : Outcome A)
| Blocked (c : NetCall) (k : Outcome (answerType c) → Run A).
Arguments Done {A} o.
Arguments Blocked {A} c k.

(** One turn of a request that is served alone: the code runs until it
    ends or has sent a network call. *)
Fixpoint turn {A} (m : Run A) (st : State) : Paused A * State :=
  match m with
  | Ret a => (Done (Return a), st)
  | Raise e => (Done (Throw e), st)
  | Gets f => turn (f st) st
  | Modify f m' => turn m' (f st)
  | Await c k => (Blocked c k, sent c st)
  | Yield m' => turn m' st
  end.

Definition set_now (t : Z) (st : State) : State :=
  {| redemptions := redemptions st; tokenHashes := tokenHashes st;
     mints := mints st; wallets := wallets st;
     trace := trace st; now := t; drawn := drawn st |}.

(** Code as the event loop holds it: over, waiting for the answer to a
    network call, or queued to start or to go on. *)
Inductive Task (A : Type) : Type :=
| Over (o : Outcome A)
| Waiting (c : NetCall) (k : Outcome (answerType c) → Run A)
| Queued (m : Run A).
Arguments Over {A} o.
Arguments Waiting {A} c k.
Arguments Queued {A} m.

(** One slice: the code runs, without interruption, to its next
    suspension, be it a network call or an [await] that needs none. *)
Fixpoint slice {A} (m : Run A) (st : State) : Task A * State :=
  match m with
  | Ret a => (Over (Return a), st)
  | Raise e => (Over (Throw e), st)
  | Gets f => slice (f st) st
  | Modify f m' => slice m' (f st)
  | Await c k => (Waiting c k, sent c st)
  | Yield m' => (Queued m', st)
  end.

(** What a task may do when the loop picks it: start or go on, or go on
    with the answer to its call, whatever that answer is. A task that is
    over does nothing. *)
Definition moves {A} (t : Task A) (st : State) (next : Task A * State) : Prop :=
  match t with
  | Queued m => next = slice m st
  | Waiting c k => ∃ o, next = slice (k o) st
  | Over _ => False
  end.

(** The sweep that the server runs from a timer. *)
Definition sweep (st : State) : State :=
  (turn (RedemptionService.cleanupOldRedemptions None) st).2.

(** Two tasks over one state. The loop picks either of them, or time
    passes, or the timer fires. *)
Inductive step {A} : Task A * Task A * State → Task A * Task A * State → Prop :=
| step_left t1 t2 st t1' st' :
    moves t1 st (t1', st') → step (t1, t2, st) (t1', t2, st')
| step_right t1 t2 st t2' st' :
    moves t2 st (t2', st') → step (t1, t2, st) (t1, t2', st')
| step_tick t1 t2 st t :
    now st ≤ t → step (t1, t2, st) (t1, t2, set_now t st)
| step_sweep t1 t2 st :
    step (t1, t2, st) (t1, t2, sweep st).

Definition steps {A} := rtc (@step A).

(** One way the loop may go: the tasks are picked in a given order, the
    first when the pick is [true], and the peers answer the call of the
    task that is picked. *)
Definition serve {A} (P : Peers) (t : Task A) (st : State) : Task A * State :=
  match t with
  | Queued m => slice m st
  | Waiting c k => slice (k (respond P (trace st) c)) st
  | Over o => (Over o, st)
  end.

Fixpoint schedule {A} (P : Peers) (picks : list bool)
    (c : Task A * Task A * State) : Task A * Task A * State :=
  match picks with
  | [] => c
  | first :: picks' =>
      let '(t1, t2, st) := c in
      if first then let r := serve P t1 st in schedule P picks' (r.1, t2, r.2)
      else let r := serve P t2 st in schedule P picks' (t1, r.1, r.2)
  end.

(** The turn a paused task takes when the peers answer its call. *)
Definition resume {A} (P : Peers) (r : Paused A * State) : Paused A * State :=
  match r.1 with
  | Blocked c k => turn (k (respond P (trace r.2) c)) r.2
  | Done _ => r
  end.

End Loop.

(** * Properties *)

(** ** Numbers: what rounding keeps *)

(** An integer below 2^53 is a double. *)
Lemma round_exact (n : Z) : Z.abs n < 2 ^ 53 → Number.round n = n.
Proof.
  intros Hn. unfold Number.round.
  assert (Z.log2 (Z.abs n) < 53) as Hlog.
  { destruct (Z.eq_dec (Z.abs n) 0) as [->|Hne]; [cbn; lia|].
    apply Z.log2_lt_pow2; lia. }
  destruct (Z.leb_spec (Z.log2 (Z.abs n) - 52) 0); [reflexivity | lia].
Qed.

(** Rounding keeps the sign. *)
Lemma round_sign (n : Z) : Z.sgn (Number.round n) = Z.sgn n.
Proof.
  unfold Number.round.
  destruct (Z.leb_spec (Z.log2 (Z.abs n) - 52) 0) as [|He]; [reflexivity|].
  set (e := Z.log2 (Z.abs n) - 52) in *.
  assert (0 < Z.abs n) as Hpos.
  { destruct (Z.eq_dec (Z.abs n) 0) as [Hz|]; [|lia].
    unfold e in He. rewrite Hz in He. cbn in He. lia. }
  assert (0 < 2 ^ e) as Hp by (apply Z.pow_pos_nonneg; lia).
  assert (2 ^ e <= Z.abs n) as Hle.
  { transitivity (2 ^ Z.log2 (Z.abs n)).
    - apply Z.pow_le_mono_r; unfold e; lia.
    - apply Z.log2_spec. exact Hpos. }
  assert (1 <= Z.abs n / 2 ^ e) as Hq.
  { apply Z.div_le_lower_bound; lia. }
  match goal with
  | |- Z.sgn (Z.sgn n * (?q * _)) = _ => set (q' := q)
  end.
  assert (1 <= q') as Hq'.
  { unfold q'. destruct (_ || _); lia. }
  rewrite Z.sgn_mul, Z.sgn_sgn.
  rewrite (Z.sgn_pos (q' * 2 ^ e)) by nia. lia.
Qed.

Lemma round_nonpos (n : Z) : Number.round n ≤ 0 ↔ n ≤ 0.
Proof. pose proof (round_sign n). lia. Qed.

Lemma minus_nonpos (a b : Z) : (Number.minus a b <=? 0) = (a - b <=? 0).
Proof.
  unfold Number.minus. pose proof (round_nonpos (a - b)).
  destruct (Z.leb_spec (Number.round (a - b)) 0), (Z.leb_spec (a - b) 0); lia.
Qed.

Lemma plus_exact (a b : Z) : Z.abs (a + b) < 2 ^ 53 → Number.plus a b = a + b.
Proof. apply round_exact. Qed.

Lemma minus_exact (a b : Z) : Z.abs (a - b) < 2 ^ 53 → Number.minus a b = a - b.
Proof. apply round_exact. Qed.

Lemma times_exact (a b : Z) : Z.abs (a * b) < 2 ^ 53 → Number.times a b = a * b.
Proof. apply round_exact. Qed.

Lemma toString_exact (n : Z) : Z.abs n < 2 ^ 53 → Number.toString n = pretty n.
Proof.
  intros Hn. unfold Number.toString.
  destruct (Z.ltb_spec (Z.abs n) (2 ^ 53)); [reflexivity | lia].
Qed.

(** ** Running code: laws of [exec] and [turn] *)

Ltac unmonad := unfold mbind, Run_bind, mret, Run_ret in *.

Lemma exec_bind {A B} (P : Peers) (m : Run A) (k : A → Run B) (st : State) :
  exec P (bind m k) st =
    match exec P m st with
    | (Return a, st') => exec P (k a) st'
    | (Throw e, st') => (Throw e, st')
    end.
Proof.
  revert st; induction m as [a|e|f IH|f m IH|c f IH|m IH]; intros st; simpl; auto.
Qed.

Lemma exec_try_catch {A} (P : Peers) (m : Run A) (h : JsError → Run A) (st : State) :
  exec P (try_catch m h) st =
    match exec P m st with
    | (Return a, st') => (Return a, st')
    | (Throw e, st') => exec P (h e) st'
    end.
Proof.
  revert st; induction m as [a|e|f IH|f m IH|c f IH|m IH]; intros st; simpl; auto.
Qed.

Lemma exec_lift {A} (P : Peers) (o : Outcome A) (st : State) :
  exec P (lift o) st = (o, st).
Proof. destruct o; reflexivity. Qed.

Lemma turn_bind {A B} (m : Run A) (k : A → Run B) (st : State) :
  Loop.turn (bind m k) st =
    match Loop.turn m st with
    | (Loop.Done (Return a), st') => Loop.turn (k a) st'
    | (Loop.Done (Throw e), st') => (Loop.Done (Throw e), st')
    | (Loop.Blocked c k', st') => (Loop.Blocked c (λ o, bind (k' o) k), st')
    end.
Proof.
  revert st; induction m as [a|e|f IH|f m IH|c f IH|m IH]; intros st; simpl; auto.
Qed.

Lemma turn_try_catch {A} (m : Run A) (h : JsError → Run A) (st : State) :
  Loop.turn (try_catch m h) st =
    match Loop.turn m st with
    | (Loop.Done (Return a), st') => (Loop.Done (Return a), st')
    | (Loop.Done (Throw e), st') => Loop.turn (h e) st'
    | (Loop.Blocked c k', st') => (Loop.Blocked c (λ o, try_catch (k' o) h), st')
    end.
Proof.
  revert st; induction m as [a|e|f IH|f m IH|c f IH|m IH]; intros st; simpl; auto.
Qed.

Lemma turn_lift {A} (o : Outcome A) (st : State) :
  Loop.turn (lift o) st = (Loop.Done o, st).
Proof. destruct o; reflexivity. Qed.

(** Served alone, code passes through an [await] that needs no answer. *)
Lemma exec_await {A} (P : Peers) (m : Run A) (st : State) :
  exec P (await m) st = exec P m st.
Proof.
  unfold await. unfold mbind, Run_bind.
  revert st; induction m as [a|e|f IH|f m IH|c f IH|m IH]; intros st; simpl; auto.
Qed.

Lemma turn_await {A} (m : Run A) (st : State) :
  Loop.turn (await m) st =
    match Loop.turn m st with
    | (Loop.Done o, st') => (Loop.Done o, st')
    | (Loop.Blocked c k, st') => (Loop.Blocked c (λ o, await (k o)), st')
    end.
Proof.
  unfold await. unfold mbind, Run_bind.
  revert st; induction m as [a|e|f IH|f m IH|c f IH|m IH]; intros st; simpl; auto.
Qed.

(** Serving a request alone is one way the loop may go: the peers answer
    each call before anything else happens. *)
Lemma exec_turn {A} (P : Peers) (m : Run A) (st : State) :
  exec P m st =
    match Loop.turn m st with
    | (Loop.Done o, st') => (o, st')
    | (Loop.Blocked c k, st') => exec P (k (respond P (trace st') c)) st'
    end.
Proof.
  revert st; induction m as [a|e|f IH|f m IH|c f IH|m IH]; intros st; simpl; auto.
Qed.

(** ** What code does, whatever the peers answer

    [sat G C Q m]: every write of [m] is one that [G] admits, every call
    it sends is one that [C] admits, and every way it can end is one that
    [Q] admits. *)
Fixpoint sat {A} (G : (State → State) → Prop) (C : NetCall → Prop)
    (Q : Outcome A → Prop) (m : Run A) : Prop :=
  match m with
  | Ret a => Q (Return a)
  | Raise e => Q (Throw e)
  | Gets f => ∀ st, sat G C Q (f st)
  | Modify f m' => G f ∧ sat G C Q m'
  | Await c k => C c ∧ ∀ o, sat G C Q (k o)
  | Yield m' => sat G C Q m'
  end.

Definition any {A} : A → Prop := λ _, True.

Section Sat.
Context (G : (State → State) → Prop) (C : NetCall → Prop).

Lemma sat_mono {A} (Q Q' : Outcome A → Prop) (m : Run A) :
  (∀ o, Q o → Q' o) → sat G C Q m → sat G C Q' m.
Proof.
  intros HQ; induction m as [a|e|f IH|f m IH|c f IH|m IH]; simpl; intros H; auto.
  - destruct H; auto.
  - destruct H; auto.
Qed.

Lemma sat_bind_post {A B} (Q : Outcome B → Prop) (m : Run A) (k : A → Run B) :
  sat G C (λ o, match o with
                | Return a => sat G C Q (k a)
                | Throw e => Q (Throw e)
                end) m →
  sat G C Q (bind m k).
Proof.
  induction m as [a|e|f IH|f m IH|c f IH|m IH]; simpl; intros H; auto.
  - destruct H; auto.
  - destruct H; auto.
Qed.

Lemma sat_try_catch_post {A} (Q : Outcome A → Prop) (m : Run A)
    (h : JsError → Run A) :
  sat G C (λ o, match o with
                | Return a => Q (Return a)
                | Throw e => sat G C Q (h e)
                end) m →
  sat G C Q (try_catch m h).
Proof.
  induction m as [a|e|f IH|f m IH|c f IH|m IH]; simpl; intros H; auto.
  - destruct H; auto.
  - destruct H; auto.
Qed.

(** The usual case: the first part may end in any way. *)
Lemma sat_bind {A B} (Q : Outcome B → Prop) (m : Run A) (k : A → Run B) :
  sat G C any m → (∀ a, sat G C Q (k a)) → (∀ e, Q (Throw e)) →
  sat G C Q (bind m k).
Proof.
  intros Hm Hk He. apply sat_bind_post. revert Hm. apply sat_mono.
  intros [a|e] _; auto.
Qed.

Lemma sat_try_catch {A} (Q : Outcome A → Prop) (m : Run A) (h : JsError → Run A) :
  sat G C any m → (∀ a, Q (Return a)) → (∀ e, sat G C Q (h e)) →
  sat G C Q (try_catch m h).
Proof.
  intros Hm Hk He. apply sat_try_catch_post. revert Hm. apply sat_mono.
  intros [a|e] _; auto.
Qed.

Lemma sat_lift {A} (Q : Outcome A → Prop) (o : Outcome A) :
  Q o → sat G C Q (lift o).
Proof. destruct o; simpl; auto. Qed.

Lemma sat_net (c : NetCall) : C c → sat G C any (net c).
Proof. intros H. split; [exact H|]. intros o. now apply sat_lift. Qed.

Lemma sat_gets {A} (f : State → A) : sat G C any (gets f).
Proof. intros st. exact I. Qed.

Lemma sat_modify (f : State → State) : G f → sat G C any (modify f).
Proof. intros H. split; [exact H | exact I]. Qed.

(** A turn of code that satisfies [sat] keeps every property [I] of the
    state that the writes in [G] and the recording of calls keep; it ends
    in [Q] or pauses on code that satisfies [sat] again. *)
Definition paused_sat {A} (Q : Outcome A → Prop) (p : Loop.Paused A) : Prop :=
  match p with
  | Loop.Done o => Q o
  | Loop.Blocked c k => ∀ o, sat G C Q (k o)
  end.

Lemma turn_sat {A} (Q : Outcome A → Prop) (I : State → Prop) (m : Run A)
    (st : State) :
  (∀ f s, G f → I s → I (f s)) →
  (∀ c s, I s → I (sent c s)) →
  sat G C Q m → I st →
  paused_sat Q (Loop.turn m st).1 ∧ I (Loop.turn m st).2.
Proof.
  intros HG Hsent; revert st.
  induction m as [a|e|f IH|f m IH|c f IH|m IH]; simpl; intros st Hm Hst; auto.
  - destruct Hm as [Hf Hm]; auto.
  - destruct Hm as [Hc Hm]; auto.
Qed.

(** The same for a request served alone, where moreover the calls sent
    are all in [C]. *)
Lemma exec_sat {A} (P : Peers) (Q : Outcome A → Prop) (I : State → Prop)
    (m : Run A) (st : State) :
  (∀ f s, G f → I s → I (f s)) →
  (∀ c s, I s → I (sent c s)) →
  sat G C Q m → I st →
  Q (exec P m st).1 ∧ I (exec P m st).2.
Proof.
  intros HG Hsent; revert st.
  induction m as [a|e|f IH|f m IH|c f IH|m IH]; simpl; intros st Hm Hst; auto.
  - destruct Hm as [Hf Hm]; auto.
  - destruct Hm as [Hc Hm]; auto.
Qed.

Lemma exec_calls {A} (P : Peers) (Q : Outcome A → Prop) (m : Run A) (st : State) :
  (∀ f s, G f → trace (f s) = trace s) →
  sat G C Q m →
  ∃ calls, trace (exec P m st).2 = (trace st ++ calls)%list ∧ Forall C calls.
Proof.
  intros HG; revert st.
  induction m as [a|e|f IH|f m IH|c f IH|m IH]; cbn [exec sat]; intros st Hm.
  - exists []. now rewrite app_nil_r.
  - exists []. now rewrite app_nil_r.
  - auto.
  - destruct Hm as [Hf Hm]. destruct (IH (f st) Hm) as (calls & -> & Hc).
    exists calls. now rewrite HG.
  - destruct Hm as [Hc Hm].
    destruct (IH _ (sent c st) (Hm (respond P (trace (sent c st)) c)))
      as (calls & -> & Hcs).
    exists (c :: calls). cbn [sent trace]. rewrite <- app_assoc. auto.
  - auto.
Qed.

(** An [await] on code of the program changes neither what that code
    writes and sends nor how it ends. *)
Lemma sat_await {A} (Q : Outcome A → Prop) (m : Run A) :
  sat G C Q m → sat G C Q (await m).
Proof.
  unfold await. unfold mbind, Run_bind.
  induction m as [a|e|f IH|f m IH|c f IH|m IH]; simpl; intros H; auto.
  - destruct H; auto.
  - destruct H; auto.
Qed.

End Sat.

(** ** The services, piece by piece *)

Ltac sat_step :=
  unmonad;
  lazymatch goal with
  | |- sat _ _ _ (bind _ _) =>
      apply sat_bind; [ | intros ? | intros ?; try exact I ]
  | |- sat _ _ _ (try_catch _ _) =>
      apply sat_try_catch; [ | intros ?; try exact I | intros ? ]
  | |- sat _ _ _ (lift _) => apply sat_lift; exact I
  | |- sat _ _ _ (throw _) => exact I
  | |- sat _ _ _ (Ret _) => exact I
  | |- sat _ _ _ (Raise _) => exact I
  | |- sat _ _ _ (net _) => apply sat_net
  | |- sat _ _ _ (gets _) => apply sat_gets
  | |- sat _ _ _ (modify _) => apply sat_modify
  | |- sat _ _ _ (if ?b then _ else _) => destruct b
  | |- sat _ _ _ (match ?x with _ => _ end) => destruct x
  end.

Section Services.
Context (E : Env) (cfg : LightningService.Config).
Context (G : (State → State) → Prop) (C : NetCall → Prop).

Lemma sat_fetchLNURLpResponse (lnurlpUrl : string) :
  C (HttpGet lnurlpUrl []) →
  sat G C any (LightningService.fetchLNURLpResponse lnurlpUrl).
Proof.
  intros HC. unfold LightningService.fetchLNURLpResponse.
  repeat sat_step; auto.
Qed.

Lemma sat_getInvoice (callbackUrl : JsVal) (amount : Z) (comment : string) :
  (∀ url, C (HttpGet url (LightningService.invoiceQuery amount comment))) →
  sat G C any (LightningService.getInvoice E callbackUrl amount comment).
Proof.
  intros HC. unfold LightningService.getInvoice.
  repeat sat_step; auto.
Qed.

Lemma sat_resolveInvoice (lightningAddress : string) (amount : Z) (comment : string) :
  (∀ url, C (HttpGet url [])) →
  (∀ url, C (HttpGet url (LightningService.invoiceQuery
                            (LightningService.satsToMillisats amount) comment))) →
  sat G C any (LightningService.resolveInvoice E cfg lightningAddress amount comment).
Proof.
  intros HC1 HC2. unfold LightningService.resolveInvoice.
  repeat first [ apply sat_fetchLNURLpResponse | apply sat_getInvoice | sat_step ]; auto.
Qed.

Definition mint_call (c : NetCall) : Prop :=
  match c with HttpGet _ _ => False | _ => True end.

Context (Gmints : ∀ f, G (set_mints f)) (Gwallets : ∀ f, G (set_wallets f)).
Context (Cmint : ∀ c, mint_call c → C c).

Lemma sat_getMint (mintUrl : string) : sat G C any (CashuMint.getMint mintUrl).
Proof.
  unfold CashuMint.getMint. repeat sat_step; auto. apply Cmint; exact I.
Qed.

Lemma sat_getWallet (mintUrl : string) : sat G C any (CashuMint.getWallet mintUrl).
Proof.
  unfold CashuMint.getWallet.
  repeat first [ apply sat_getMint | sat_step ]; auto.
Qed.

Lemma sat_meltToken (token bolt11 : string) :
  sat G C any (CashuMint.meltToken E token bolt11).
Proof.
  unfold CashuMint.meltToken.
  repeat first [ apply sat_getWallet | sat_step ]; auto; apply Cmint; exact I.
Qed.

Lemma sat_checkTokenSpendable (token : string) :
  sat G C any (CashuMint.checkTokenSpendable E token).
Proof.
  unfold CashuMint.checkTokenSpendable.
  repeat first [ apply sat_getMint | sat_step ]; auto; apply Cmint; exact I.
Qed.

Lemma sat_spendabilityStep (token : string) :
  sat G C any (RedemptionService.spendabilityStep E token).
Proof.
  unfold RedemptionService.spendabilityStep.
  repeat first [ apply sat_checkTokenSpendable | sat_step ]; auto.
Qed.

(** The fields of a ledger record that are written once, when the
    attempt starts. *)
Definition written_once : list string :=
  ["token"; "tokenHash"; "lightningAddress"; "usingDefaultAddress"; "createdAt"].

Definition spares (updates : gmap string JsVal) : Prop :=
  Forall (λ k, updates !! k = None) written_once.

Context (Gupdate : ∀ redeemId updates,
           spares updates → G (RedemptionService.merged redeemId updates)).

Lemma sat_updateRedemption (redeemId : string) (updates : gmap string JsVal) :
  spares updates →
  sat G C any (RedemptionService.updateRedemption redeemId updates).
Proof. intros H. apply sat_modify, Gupdate, H. Qed.

(** How an attempt ends when it is not by a throw: with the result for
    its own id, address and token value, and the invoice sized at the
    value less the fee. *)
Definition redeemed_as (token redeemId lightningAddressToUse : string)
    (isUsingDefault : bool) (o : Outcome RedemptionResult) : Prop :=
  match o with
  | Return (Redeemed id _ amount invoiceAmount to usingDefault _ _ _ _ _ _ _) =>
      id = redeemId ∧ to = lightningAddressToUse ∧ usingDefault = isUsingDefault
      ∧ invoiceAmount = Number.minus amount (CashuService.calculateFee amount)
      ∧ ∃ tokenData, CashuMint.parseToken E token = Return tokenData
                     ∧ amount = totalAmount tokenData
  | Return (NotRedeemed _ _) => False
  | Throw _ => True
  end.

Lemma sat_bind_lift {A B} (Q : Outcome B → Prop) (o : Outcome A) (k : A → Run B) :
  (∀ a, o = Return a → sat G C Q (k a)) →
  (∀ e, o = Throw e → Q (Throw e)) →
  sat G C Q (bind (lift o) k).
Proof. destruct o; simpl; auto. Qed.

Lemma spares_literal (l : list (string * JsVal)) :
  forallb (λ k, negb (existsb (String.eqb k) (map fst l))) written_once = true →
  spares (list_to_map l).
Proof.
  intros H. apply Forall_forall. intros k Hk.
  apply not_elem_of_list_to_map_1. intros Hin.
  rewrite forallb_forall in H. specialize (H k).
  rewrite <- list_elem_of_In in H. specialize (H Hk).
  apply negb_true_iff in H.
  assert (existsb (String.eqb k) (map fst l) = true); [|congruence].
  apply existsb_exists. exists k. rewrite <- list_elem_of_In.
  split; [exact Hin | apply String.eqb_refl].
Qed.

Lemma spares_singleton (k : string) (v : JsVal) :
  forallb (λ k', negb (String.eqb k' k)) written_once = true →
  spares {[k := v]}.
Proof.
  intros H. apply Forall_forall. intros k' Hk.
  rewrite forallb_forall in H. specialize (H k').
  rewrite <- list_elem_of_In in H. specialize (H Hk).
  apply negb_true_iff, String.eqb_neq in H.
  apply lookup_singleton_ne. congruence.
Qed.

Ltac spares_tac :=
  first [ apply spares_singleton; reflexivity | apply spares_literal; reflexivity ].

Lemma sat_redemptionSteps (redeemId token lightningAddressToUse : string)
    (isUsingDefault : bool) :
  (∀ url, C (HttpGet url [])) →
  (∀ tokenData url,
     CashuMint.parseToken E token = Return tokenData →
     C (HttpGet url
          (LightningService.invoiceQuery
             (LightningService.satsToMillisats
                (Number.minus (totalAmount tokenData)
                   (CashuService.calculateFee (totalAmount tokenData))))
             "Cashu redemption"))) →
  sat G C (redeemed_as token redeemId lightningAddressToUse isUsingDefault)
    (RedemptionService.redemptionSteps E cfg redeemId token lightningAddressToUse
       isUsingDefault).
Proof.
  intros HC1 HC2. unfold RedemptionService.redemptionSteps. unmonad.
  apply sat_bind; [apply sat_updateRedemption; spares_tac | intros _ | intros; exact I].
  apply sat_bind_lift; [intros tokenData Hparse | intros; exact I].
  destruct (_ <=? 0); [exact I|].
  repeat first
    [ apply sat_updateRedemption; spares_tac
    | apply sat_spendabilityStep
    | apply sat_resolveInvoice; eauto
    | apply sat_meltToken
    | sat_step ].
  simpl. eauto 10.
Qed.

End Services.

(** ** The attempt, once its record is stored *)

Section Attempt.
Context (E : Env) (cfg : LightningService.Config).

(** The state in which [performRedemption] enters Step 1. *)
Definition started (token : string) (lightningAddress : option string)
    (lightningAddressToUse : string) (st : State) : State :=
  let redeemId := uuidv4 E (drawn st) in
  let tokenHash := RedemptionService.generateTokenHash E token in
  set_tokenHashes (insert tokenHash redeemId)
    (RedemptionService.stored redeemId
       (RedemptionService.initialStatus token tokenHash lightningAddressToUse
          (RedemptionService.blank lightningAddress))
       (draw st)).

Definition attempt (token : string) (lightningAddress : option string)
    (lightningAddressToUse : string) (st : State) : Run RedemptionResult :=
  try_catch
    (RedemptionService.redemptionSteps E cfg (uuidv4 E (drawn st)) token
       lightningAddressToUse (RedemptionService.blank lightningAddress))
    (RedemptionService.recordFailure (uuidv4 E (drawn st))).

Lemma turn_performRedemption token lightningAddress lightningAddressToUse st :
  LightningService.getLightningAddressToUse cfg lightningAddress
    = Return lightningAddressToUse →
  Loop.turn (RedemptionService.performRedemption E cfg token lightningAddress) st
  = Loop.turn (attempt token lightningAddress lightningAddressToUse st)
      (started token lightningAddress lightningAddressToUse st).
Proof.
  intros H. unfold RedemptionService.performRedemption. unmonad. simpl.
  rewrite H. reflexivity.
Qed.

Lemma exec_performRedemption P token lightningAddress lightningAddressToUse st :
  LightningService.getLightningAddressToUse cfg lightningAddress
    = Return lightningAddressToUse →
  exec P (RedemptionService.performRedemption E cfg token lightningAddress) st
  = exec P (attempt token lightningAddress lightningAddressToUse st)
      (started token lightningAddress lightningAddressToUse st).
Proof.
  intros H. unfold RedemptionService.performRedemption. unmonad. simpl.
  rewrite H. reflexivity.
Qed.

End Attempt.

(** ** The duplicate guard *)

(** The index maps the hash to an id under which a record is stored. *)
Definition indexed (tokenHash : string) (st : State) : Prop :=
  ∃ redeemId, tokenHashes st !! tokenHash = Some redeemId
              ∧ redeemId ≠ "" ∧ is_Some (redemptions st !! redeemId).

(** Writes that leave the index, the id counter and the ids of the ledger
    as they are. *)
Definition keeps_ledger (f : State → State) : Prop :=
  ∀ st, tokenHashes (f st) = tokenHashes st
        ∧ drawn (f st) = drawn st
        ∧ ∀ redeemId, is_Some (redemptions st !! redeemId)
                      → is_Some (redemptions (f st) !! redeemId).

(** A request that was turned away as a duplicate, and one for which an
    attempt was made. *)
Definition rejected (o : Outcome Response) : Prop :=
  o = Return (BadRequest400 "Token has already been redeemed" None).

Definition attempted (o : Outcome Response) : Prop :=
  match o with
  | Return (Ok200 _) => True
  | Return (BadRequest400 _ (Some _)) => True
  | _ => False
  end.

Lemma keeps_ledger_merged redeemId updates :
  keeps_ledger (RedemptionService.merged redeemId updates).
Proof.
  intros st. unfold RedemptionService.merged.
  destruct (redemptions st !! redeemId) as [existing|] eqn:Hex; simpl; auto.
  repeat split. intros id' Hid'.
  destruct (decide (redeemId = id')) as [->|Hne].
  - rewrite lookup_insert_eq. eauto.
  - now rewrite lookup_insert_ne.
Qed.

Lemma keeps_ledger_mints f : keeps_ledger (set_mints f).
Proof. intros st. simpl. auto. Qed.

Lemma keeps_ledger_wallets f : keeps_ledger (set_wallets f).
Proof. intros st. simpl. auto. Qed.

Section Duplicate.
Context (E : Env) (cfg : LightningService.Config).

Lemma checkExisting_indexed token st :
  RedemptionService.checkExistingRedemption E token st ≠ None
  ↔ indexed (RedemptionService.generateTokenHash E token) st.
Proof.
  unfold RedemptionService.checkExistingRedemption,
    RedemptionService.getRedemptionByTokenHash, RedemptionService.getRedemption,
    indexed.
  destruct (tokenHashes st !! _) as [id|]; split.
  - destruct (String.eqb_spec id ""); [congruence|]. intros H. exists id.
    repeat split; auto. destruct (redemptions st !! id); [eauto|congruence].
  - intros (id' & [= <-] & Hne & [r Hr]).
    destruct (String.eqb_spec id ""); congruence.
  - congruence.
  - intros (id' & [=] & _).
Qed.

Lemma parseToken_nonempty token tokenData :
  CashuMint.parseToken E token = Return tokenData → String.eqb token "" = false.
Proof.
  unfold CashuMint.parseToken, CashuService.parseToken.
  destruct (String.eqb token ""); [discriminate | reflexivity].
Qed.

Lemma parseToken_positive token tokenData :
  CashuMint.parseToken E token = Return tokenData → 0 < totalAmount tokenData.
Proof.
  unfold CashuMint.parseToken, CashuService.parseToken.
  destruct (String.eqb token ""); [discriminate|].
  destruct (negb _); [discriminate|].
  destruct (CashuService.decodeTokenStructure _ _) as [[proofs mint]|]; [|discriminate].
  simpl. destruct (_ =? _)%nat; [discriminate|].
  destruct (_ <=? 0) eqn:Hle; [discriminate|].
  intros [= <-]. simpl. lia.
Qed.

Context (token : string) (parsed : TokenData).
Context (Hparse : CashuMint.parseToken E token = Return parsed).

Section Request.
Context (lightningAddress : option string) (destination : string).
Context (Haddress : LightningService.getLightningAddressToUse cfg lightningAddress
                    = Return destination).
Context (Hformat : LightningService.validateLightningAddress destination = true).

Lemma turn_validate_duplicate st :
  indexed (RedemptionService.generateTokenHash E token) st →
  Loop.turn (RedemptionService.validateRedemptionRequest E cfg (Some token)
               lightningAddress) st
  = (Loop.Done (Return {| valid := false;
                          errors := ["Token has already been redeemed"];
                          tokenData := None;
                          lightningAddressToUse := Some destination |}),
     st).
Proof.
  intros Hin. apply checkExisting_indexed in Hin.
  unfold RedemptionService.validateRedemptionRequest. unmonad. simpl.
  rewrite Haddress, Hformat, (parseToken_nonempty _ _ Hparse). simpl.
  destruct (RedemptionService.checkExistingRedemption E token st); [|congruence].
  reflexivity.
Qed.

Lemma turn_validate_fresh st :
  RedemptionService.checkExistingRedemption E token st = None →
  Loop.turn (RedemptionService.validateRedemptionRequest E cfg (Some token)
               lightningAddress) st
  = (Loop.Done (Return {| valid := true;
                          errors := [];
                          tokenData := Some parsed;
                          lightningAddressToUse := Some destination |}),
     st).
Proof.
  intros Hfresh.
  unfold RedemptionService.validateRedemptionRequest. unmonad. simpl.
  rewrite Haddress, Hformat, (parseToken_nonempty _ _ Hparse). simpl.
  rewrite Hfresh. simpl. rewrite Hparse. simpl.
  pose proof (parseToken_positive _ _ Hparse) as Hpos.
  destruct (totalAmount parsed <=? 0) eqn:Hle; [lia|]. reflexivity.
Qed.

(** A request for a token that is in the index is turned away in its
    first turn; nothing is written and nothing is sent. *)
Lemma turn_redeem_duplicate st :
  indexed (RedemptionService.generateTokenHash E token) st →
  Loop.turn (redeem E cfg (Some token) lightningAddress) st
  = (Loop.Done (Return (BadRequest400 "Token has already been redeemed" None)), st).
Proof.
  intros Hin. unfold redeem. unmonad.
  rewrite turn_bind, turn_await, (turn_validate_duplicate _ Hin). reflexivity.
Qed.

End Request.
End Duplicate.

(** ** The fee: the binary64 product, exactly

    [amount * 0.02] is a product of doubles. The lemmas below follow the
    rounding of that product bit by bit, to show that for an amount below
    2^53 rounding it up gives the same integer as exact arithmetic. *)

(** [lia] after naming the powers of two. *)
Ltac name_pows :=
  repeat match goal with
         | |- context [2 ^ ?e] =>
             let x := fresh "pw" in
             let H := fresh "Hpw" in
             remember (2 ^ e) as x eqn:H; clear H
         | H : context [2 ^ ?e] |- _ =>
             let x := fresh "pw" in
             let H' := fresh "Hpw" in
             remember (2 ^ e) as x eqn:H'; clear H'
         end.
Ltac pow_lia := name_pows; lia.
Ltac pow_nia := name_pows; nia.

Lemma digits2_pos_bounds (p : positive) :
  2 ^ (Z.pos (digits2_pos p) - 1) <= Z.pos p < 2 ^ Z.pos (digits2_pos p).
Proof.
  induction p as [p IH|p IH|]; cbn [digits2_pos].
  - rewrite Pos2Z.inj_succ, Pos2Z.inj_xI.
    replace (Z.succ (Z.pos (digits2_pos p)) - 1)
      with (Z.succ (Z.pos (digits2_pos p) - 1)) by lia.
    rewrite !Z.pow_succ_r by lia. pow_lia.
  - rewrite Pos2Z.inj_succ. change (Z.pos p~0) with (2 * Z.pos p).
    replace (Z.succ (Z.pos (digits2_pos p)) - 1)
      with (Z.succ (Z.pos (digits2_pos p) - 1)) by lia.
    rewrite !Z.pow_succ_r by lia. pow_lia.
  - simpl. lia.
Qed.

Lemma digits2_pos_unique (p : positive) (d : Z) :
  2 ^ (d - 1) <= Z.pos p < 2 ^ d -> Z.pos (digits2_pos p) = d.
Proof.
  intros [Hlo Hhi]. pose proof (digits2_pos_bounds p) as [Hlo' Hhi'].
  assert (0 < d).
  { destruct (Z_lt_le_dec 0 d); [assumption|].
    assert (2 ^ d <= 2 ^ 0) by (apply Z.pow_le_mono_r; lia). simpl in *. lia. }
  destruct (Z_lt_le_dec (Z.pos (digits2_pos p)) d) as [Hlt|Hge].
  - assert (2 ^ Z.pos (digits2_pos p) <= 2 ^ (d - 1))
      by (apply Z.pow_le_mono_r; lia).
    lia.
  - destruct (Z_lt_le_dec d (Z.pos (digits2_pos p))) as [Hlt|Hge']; [|lia].
    assert (2 ^ d <= 2 ^ (Z.pos (digits2_pos p) - 1))
      by (apply Z.pow_le_mono_r; lia).
    lia.
Qed.

Lemma shr_1_nonneg (m : Z) (r s : bool) :
  0 <= m ->
  shr_1 {| shr_m := m; shr_r := r; shr_s := s |}
  = {| shr_m := m / 2; shr_r := Z.odd m; shr_s := r || s |}.
Proof.
  intros Hm. destruct m as [|[p|p|]|p]; try lia; cbn [shr_1]; try reflexivity.
  - replace (Z.pos p~1 / 2) with (Z.pos p); [reflexivity|].
    apply Z.div_unique with (r := 1); lia.
  - replace (Z.pos p~0 / 2) with (Z.pos p); [reflexivity|].
    apply Z.div_unique with (r := 0); lia.
Qed.

(** The record reached after shifting [M] right by [k] bits. *)
Definition shifted (M k : Z) (mrs : shr_record) : Prop :=
  0 <= shr_m mrs /\
  exists low,
    M = shr_m mrs * 2 ^ k + (if shr_r mrs then 2 ^ (k - 1) else 0) + low
    /\ 0 <= low
    /\ (shr_s mrs = false <-> low = 0)
    /\ (k = 0 -> shr_r mrs = false /\ low = 0)
    /\ (0 < k -> low < 2 ^ (k - 1)).

Lemma shifted_0 (M : Z) :
  0 <= M -> shifted M 0 {| shr_m := M; shr_r := false; shr_s := false |}.
Proof.
  intros H. split; [exact H|]. exists 0. cbn. repeat split; try lia.
Qed.

Lemma shifted_1 (M k : Z) (mrs : shr_record) :
  0 <= k -> shifted M k mrs -> shifted M (k + 1) (shr_1 mrs).
Proof.
  intros Hk [Hm (low & HM & Hlow & Hs & H0 & Hk')]. destruct mrs as [m r s].
  cbn [shr_m shr_r shr_s] in *. rewrite shr_1_nonneg by exact Hm.
  unfold shifted. cbn [shr_m shr_r shr_s].
  assert (2 ^ (k + 1) = 2 * 2 ^ k) as Hp by (apply Z.pow_succ_r; lia).
  replace (k + 1 - 1) with k by lia. rewrite Hp. clear Hp.
  pose proof (Z.pow_pos_nonneg 2 k ltac:(lia) Hk) as Hpos.
  assert (m = 2 * (m / 2) + (if Z.odd m then 1 else 0)) as Hdiv.
  { rewrite (Z.div_mod m 2) at 1 by lia. rewrite Zmod_odd. lia. }
  assert (0 <= m / 2) as Hq by (apply Z.div_pos; lia).
  assert (0 <= 2 ^ (k - 1)) as Hh by (apply Z.pow_nonneg; lia).
  assert (0 < k -> 2 ^ k = 2 * 2 ^ (k - 1) /\ 0 < 2 ^ (k - 1)) as Hhalf.
  { intros. split; [|apply Z.pow_pos_nonneg; lia].
    replace k with (Z.succ (k - 1)) at 1 by lia. apply Z.pow_succ_r. lia. }
  revert HM Hdiv Hq Hpos Hh Hhalf Hk'.
  generalize (m / 2) (Z.odd m) (2 ^ k) (2 ^ (k - 1)).
  intros q b P H HM Hdiv Hq Hpos Hh Hhalf Hk'.
  split; [exact Hq|].
  exists ((if r then H else 0) + low).
  split; [destruct b; nia|].
  split; [destruct r; lia|].
  split; [|split].
  - split.
    + intros Hrs. apply orb_false_iff in Hrs as [-> ->].
      rewrite (proj1 Hs eq_refl). reflexivity.
    + intros Hz. assert (low = 0) as Hl by (destruct r; lia).
      rewrite (proj2 Hs Hl). destruct (Z.eq_dec k 0) as [->|Hne].
      * destruct (H0 eq_refl) as [-> _]. reflexivity.
      * destruct r; [|reflexivity]. destruct (Hhalf ltac:(lia)). lia.
  - lia.
  - intros _. destruct (Z.eq_dec k 0) as [->|Hne].
    + destruct (H0 eq_refl) as [-> ->]. lia.
    + destruct (Hhalf ltac:(lia)). specialize (Hk' ltac:(lia)). destruct r; lia.
Qed.

Lemma shifted_iter (p : positive) (M k : Z) (mrs : shr_record) :
  0 <= k -> shifted M k mrs -> shifted M (k + Z.pos p) (SpecFloat.iter_pos shr_1 p mrs).
Proof.
  revert k mrs. induction p as [p IH|p IH|]; intros k mrs Hk H; cbn [SpecFloat.iter_pos].
  - replace (k + Z.pos p~1) with (k + 1 + Z.pos p + Z.pos p) by lia.
    apply IH; [lia|]. apply IH; [lia|]. now apply shifted_1.
  - replace (k + Z.pos p~0) with (k + Z.pos p + Z.pos p) by lia.
    apply IH; [lia|]. now apply IH.
  - now apply shifted_1.
Qed.

Lemma rne_bound (M k : Z) (mrs : shr_record) :
  0 < k -> shifted M k mrs ->
  let Q := round_nearest_even (shr_m mrs) (loc_of_shr_record mrs) in
  shr_m mrs <= Q <= shr_m mrs + 1
  /\ 2 ^ k * (2 * Q - 1) <= 2 * M <= 2 ^ k * (2 * Q + 1)
  /\ shr_m mrs * 2 ^ k <= M < (shr_m mrs + 1) * 2 ^ k.
Proof.
  intros Hk [Hm (low & HM & Hlow & Hs & _ & Hlt)]. specialize (Hlt Hk).
  destruct mrs as [q r s]. cbn [shr_m shr_r shr_s] in *.
  assert (2 ^ k = 2 * 2 ^ (k - 1)) as Hp.
  { replace k with (Z.succ (k - 1)) at 1 by lia. apply Z.pow_succ_r. lia. }
  assert (0 < 2 ^ (k - 1)) as Hh by (apply Z.pow_pos_nonneg; lia).
  rewrite Hp in HM |- *. clear Hp.
  revert HM Hlt Hh. generalize (2 ^ (k - 1)). intros H HM Hlt Hh.
  destruct r, s; cbn [loc_of_shr_record round_nearest_even].
  - assert (low <> 0) by (intros E; apply Hs in E; discriminate). nia.
  - assert (low = 0) by (now apply Hs). destruct (Z.even q); nia.
  - nia.
  - assert (low = 0) by (now apply Hs). nia.
Qed.

Lemma shr_fexp_shift (m e n : Z) (l : location) :
  fexp 53 1024 (Zdigits2 m + e) - e = n -> 0 < n ->
  shr_fexp 53 1024 m e l
  = (SpecFloat.iter_pos shr_1 (Z.to_pos n) (shr_record_of_loc m l), e + n).
Proof.
  intros Hn Hpos. unfold shr_fexp. rewrite Hn.
  destruct n as [|p|p]; try lia. reflexivity.
Qed.

Lemma shr_fexp_keep (m e : Z) (l : location) :
  fexp 53 1024 (Zdigits2 m + e) - e = 0 ->
  shr_fexp 53 1024 m e l = (shr_record_of_loc m l, e).
Proof. intros Hn. unfold shr_fexp. rewrite Hn. reflexivity. Qed.

(** Rounding a product of two 53-bit mantissas: the result is within half
    a unit of the [n] bits that were shifted out. *)
Lemma binary_round_aux_product (M : positive) (e : Z) :
  2 ^ 104 <= Z.pos M < 2 ^ 106 -> -1021 <= e <= 800 ->
  exists (m : positive) (j n : Z),
    binary_round_aux 53 1024 false (Z.pos M) e loc_Exact = S754_finite false m (e + j)
    /\ 52 <= n <= 53 /\ n <= j <= n + 1
    /\ 2 * (Z.pos m * 2 ^ j) - 2 ^ n <= 2 * Z.pos M <= 2 * (Z.pos m * 2 ^ j) + 2 ^ n.
Proof.
  intros HM He.
  pose proof (digits2_pos_bounds M) as HD.
  set (D := Z.pos (digits2_pos M)) in *.
  assert (105 <= D <= 106) as HDr.
  { split.
    - destruct (Z_lt_le_dec D 105); [|lia].
      assert (2 ^ D <= 2 ^ 104) by (apply Z.pow_le_mono_r; lia). lia.
    - destruct (Z_lt_le_dec 106 D); [|lia].
      assert (2 ^ 106 <= 2 ^ (D - 1)) by (apply Z.pow_le_mono_r; lia). lia. }
  set (n := D - 53).
  assert (52 <= n <= 53) as Hn by (unfold n; lia).
  assert (fexp 53 1024 (Zdigits2 (Z.pos M) + e) - e = n) as Hfexp.
  { unfold fexp, emin, n. cbn [Zdigits2]. fold D. lia. }
  unfold binary_round_aux.
  rewrite (shr_fexp_shift _ _ n) by (exact Hfexp || lia).
  cbn [shr_record_of_loc].
  pose proof (shifted_iter (Z.to_pos n) (Z.pos M) 0 _ ltac:(lia)
                (shifted_0 (Z.pos M) ltac:(lia))) as Hsh.
  rewrite Z2Pos.id in Hsh by lia. rewrite Z.add_0_l in Hsh.
  set (mrs := SpecFloat.iter_pos shr_1 (Z.to_pos n) _) in *.
  destruct (rne_bound (Z.pos M) n mrs ltac:(lia) Hsh) as (HQ & Hround & Hq).
  set (Q := round_nearest_even (shr_m mrs) (loc_of_shr_record mrs)) in *.
  assert (2 ^ D = 2 ^ 53 * 2 ^ n /\ 2 ^ (D - 1) = 2 ^ 52 * 2 ^ n /\ 0 < 2 ^ n)
    as (HpD & HpD1 & Hpn).
  { unfold n. rewrite <- !Z.pow_add_r by lia. split; [f_equal; lia|].
    split; [f_equal; lia|]. apply Z.pow_pos_nonneg; lia. }
  assert (2 ^ 52 <= Q <= 2 ^ 53) as HQr.
  { rewrite HpD, HpD1 in HD. revert HD Hq HQ Hpn. generalize (2 ^ n) (shr_m mrs).
    intros N q HD Hq HQ Hpn. nia. }
  destruct Q as [|pq|pq] eqn:HQe; [lia| |lia].
  destruct (Z_lt_le_dec (Z.pos pq) (2 ^ 53)) as [Hlt|Hge].
  - assert (Z.pos (digits2_pos pq) = 53) as Hdq
        by (apply digits2_pos_unique; lia).
    rewrite shr_fexp_keep.
    2:{ unfold fexp, emin. cbn [Zdigits2]. rewrite Hdq. lia. }
    cbn [shr_record_of_loc shr_m].
    assert ((e + n <=? 1024 - 53) = true) as -> by (apply Z.leb_le; lia).
    exists pq, n, n. split; [reflexivity|]. split; [lia|]. split; [lia|]. nia.
  - assert (Z.pos pq = 2 ^ 53) as Hpq by lia.
    assert (Z.pos (digits2_pos pq) = 54) as Hdq
        by (apply digits2_pos_unique; rewrite Hpq; lia).
    rewrite (shr_fexp_shift _ _ 1).
    2:{ unfold fexp, emin. cbn [Zdigits2]. rewrite Hdq. lia. }
    2:{ lia. }
    cbn [shr_record_of_loc Z.to_pos SpecFloat.iter_pos]. rewrite shr_1_nonneg by lia.
    cbn [shr_m]. rewrite Hpq.
    change (2 ^ 53 / 2) with (Z.pos (2 ^ 52)%positive).
    assert ((e + n + 1 <=? 1024 - 53) = true) as -> by (apply Z.leb_le; lia).
    exists (2 ^ 52)%positive, (n + 1), n.
    split; [f_equal; lia|]. split; [lia|]. split; [lia|].
    rewrite Z.pow_add_r by lia. rewrite Hpq in Hround.
    change (Z.pos (2 ^ 52)) with (2 ^ 52). nia.
Qed.

Lemma Pos_iter_xO (p d : positive) :
  Z.pos (Pos.iter xO p d) = Z.pos p * 2 ^ Z.pos d.
Proof.
  induction d as [|d IH] using Pos.peano_ind.
  - cbn [Pos.iter]. change (Z.pos p~0) with (2 * Z.pos p).
    rewrite Z.pow_1_r. lia.
  - rewrite Pos.iter_succ, Pos2Z.inj_succ, Z.pow_succ_r by lia.
    change (Z.pos (Pos.iter xO p d)~0) with (2 * Z.pos (Pos.iter xO p d)).
    rewrite IH. ring.
Qed.

(** The double that holds an integer below 2^53 has a 53-bit mantissa
    and holds it exactly. *)
Lemma binary_normalize_int (a : Z) :
  1 <= a < 2 ^ 53 ->
  exists (ma : positive) (ea : Z),
    binary_normalize 53 1024 a 0 false = S754_finite false ma ea
    /\ -52 <= ea <= 0
    /\ Z.pos ma = a * 2 ^ (- ea)
    /\ 2 ^ 52 <= Z.pos ma < 2 ^ 53.
Proof.
  intros Ha. destruct a as [|pa|pa]; try lia. cbn [binary_normalize].
  pose proof (digits2_pos_bounds pa) as Hd.
  set (d := Z.pos (digits2_pos pa)) in *.
  assert (1 <= d <= 53) as Hdr.
  { split; [unfold d; lia|].
    destruct (Z_lt_le_dec 53 d); [|lia].
    assert (2 ^ 53 <= 2 ^ (d - 1)) by (apply Z.pow_le_mono_r; lia). lia. }
  unfold binary_round.
  assert (fexp 53 1024 (d + 0) = d - 53) as Hfexp by (unfold fexp, emin; lia).
  fold d. rewrite Hfexp.
  assert (exists mz, shl_align pa 0 (d - 53) = (mz, d - 53)
                     /\ Z.pos mz = Z.pos pa * 2 ^ (53 - d)) as (mz & -> & Hmz).
  { unfold shl_align. rewrite Z.sub_0_r.
    destruct (d - 53) as [|p|p] eqn:Hp; try lia.
    - exists pa. split; [reflexivity|]. replace (53 - d) with 0 by lia.
      rewrite Z.pow_0_r. lia.
    - exists (Pos.iter xO pa p). split; [reflexivity|].
      rewrite Pos_iter_xO. f_equal. f_equal. lia. }
  assert (2 ^ 52 <= Z.pos mz < 2 ^ 53) as Hr.
  { rewrite Hmz.
    assert (2 ^ 52 = 2 ^ (d - 1) * 2 ^ (53 - d)) as ->
        by (rewrite <- Z.pow_add_r by lia; f_equal; lia).
    assert (2 ^ 53 = 2 ^ d * 2 ^ (53 - d)) as ->
        by (rewrite <- Z.pow_add_r by lia; f_equal; lia).
    assert (0 < 2 ^ (53 - d)) by (apply Z.pow_pos_nonneg; lia).
    revert Hd H. generalize (2 ^ (d - 1)) (2 ^ d) (2 ^ (53 - d)). intros. nia. }
  assert (Z.pos (digits2_pos mz) = 53) as Hdz by (apply digits2_pos_unique; lia).
  unfold binary_round_aux.
  rewrite shr_fexp_keep.
  2:{ unfold fexp, emin. cbn [Zdigits2]. rewrite Hdz. lia. }
  cbn [shr_record_of_loc shr_m loc_of_shr_record round_nearest_even].
  rewrite shr_fexp_keep.
  2:{ unfold fexp, emin. cbn [Zdigits2]. rewrite Hdz. lia. }
  cbn [shr_record_of_loc shr_m].
  assert ((d - 53 <=? 1024 - 53) = true) as -> by (apply Z.leb_le; lia).
  exists mz, (d - 53). split; [reflexivity|]. split; [lia|].
  split; [|exact Hr]. rewrite Hmz. f_equal. f_equal. lia.
Qed.

Lemma ceil_div_unique (m S K : Z) :
  0 < S -> (K - 1) * S < m <= K * S -> - ((- m) / S) = K.
Proof.
  intros HS [Hlo Hhi].
  assert ((- m) / S = - K); [|lia].
  symmetry. apply Z.div_unique with (r := K * S - m); nia.
Qed.

(** The arithmetic behind the fee: [X] is the amount scaled to 53 bits
    ([X = a * T]), [m * J] the rounded product with [0.02], off by at most
    [N / 2]; [Y] is the fiftieth of the amount, rounded up and scaled. *)
Lemma fee_window (m J S N T X Y : Z) :
  0 < J -> 0 < S -> 1 <= T ->
  S * J = 2 ^ 58 * T ->
  N <= J -> 2 ^ 52 <= N <= 2 ^ 53 ->
  0 <= X < 2 ^ 53 ->
  50 * Y - 49 * T <= X <= 50 * Y ->
  2 * (m * J) - N <= 2 * (X * 5764607523034235) <= 2 * (m * J) + N ->
  (Y - T) * 2 ^ 58 < m * J < Y * 2 ^ 58 + J.
Proof.
  intros HJ HS HT HSJ HNJ HN HX HY Hm.
  change (2 ^ 58) with 288230376151711744 in *.
  change (2 ^ 52) with 4503599627370496 in *.
  change (2 ^ 53) with 9007199254740992 in *.
  lia.
Qed.

(** Below 2^53 the rounded product, rounded up, is the fiftieth of the
    amount, rounded up. *)
Lemma ceil_of_product (a : Z) :
  1 <= a < 2 ^ 53 ->
  Number.Math_ceil (Number.mul (Number.of_int a) Number.lit_0_02)
  = (a + 49) / 50.
Proof.
  intros Ha.
  unfold Number.mul, Number.of_int, Number.lit_0_02, Number.prec, Number.emax.
  destruct (binary_normalize_int a Ha) as (ma & ea & -> & Hea & Hma & Hr).
  unfold SFmul. cbn [xorb].
  set (M := (ma * 5764607523034235)%positive).
  assert (Z.pos M = Z.pos ma * 5764607523034235) as HM by reflexivity.
  assert (2 ^ 104 <= Z.pos M < 2 ^ 106) as HMr.
  { rewrite HM. change (2 ^ 104) with (2 ^ 52 * 2 ^ 52).
    change (2 ^ 106) with (2 ^ 53 * 2 ^ 53).
    change (2 ^ 52) with 4503599627370496 in *.
    change (2 ^ 53) with 9007199254740992 in *. nia. }
  destruct (binary_round_aux_product M (ea + -58) HMr ltac:(lia))
    as (m & j & n & -> & Hn & Hj & Hm).
  cbn [Number.Math_ceil].
  assert ((0 <=? ea + -58 + j) = false) as -> by (apply Z.leb_gt; lia).
  set (K := (a + 49) / 50).
  assert (50 * (K - 1) < a <= 50 * K) as HK.
  { unfold K. pose proof (Z.div_mod (a + 49) 50 ltac:(lia)).
    pose proof (Z.mod_pos_bound (a + 49) 50 ltac:(lia)). lia. }
  assert (2 ^ (- (ea + -58 + j)) * 2 ^ j = 2 ^ 58 * 2 ^ (- ea)) as HSJ.
  { rewrite <- !Z.pow_add_r by lia. f_equal. lia. }
  assert (0 < 2 ^ j) as HJ by (apply Z.pow_pos_nonneg; lia).
  assert (0 < 2 ^ (- (ea + -58 + j))) as HS by (apply Z.pow_pos_nonneg; lia).
  assert (1 <= 2 ^ (- ea)) as HT
      by (pose proof (Z.pow_pos_nonneg 2 (- ea)); lia).
  assert (2 ^ n <= 2 ^ j) as HNJ by (apply Z.pow_le_mono_r; lia).
  assert (2 ^ 52 <= 2 ^ n <= 2 ^ 53) as HN
      by (split; apply Z.pow_le_mono_r; lia).
  pose proof (fee_window (Z.pos m) (2 ^ j) (2 ^ (- (ea + -58 + j))) (2 ^ n)
                (2 ^ (- ea)) (Z.pos ma) (K * 2 ^ (- ea))
                HJ HS HT HSJ HNJ HN ltac:(lia)) as Hw.
  apply ceil_div_unique; [exact HS|].
  rewrite HM in Hm.
  revert Hw HSJ HJ HS HT Hma Hm.
  generalize (2 ^ j) (2 ^ (- (ea + -58 + j))) (2 ^ n) (2 ^ (- ea)) (2 ^ 58).
  intros J S N T B Hw HSJ HJ HS HT Hma Hm.
  assert ((K * T - T) * B < Z.pos m * J < K * T * B + J) as [Hlo Hhi].
  { apply Hw; [nia|exact Hm]. }
  clear Hw Hm.
  assert ((K - 1) * S * J < Z.pos m * J) as Hlo' by nia.
  assert (Z.pos m * J < (K * S + 1) * J) as Hhi' by nia.
  split.
  - apply Z.mul_lt_mono_pos_r in Hlo'; lia.
  - apply Z.mul_lt_mono_pos_r in Hhi'; lia.
Qed.

(** Rounding a mantissa of more than 53 bits: the result is an infinity or
    has a mantissa of 53 bits, the exponent raised by the bits that were
    shifted out. *)
Lemma binary_round_aux_shape (s : bool) (M : positive) (e : Z) :
  54 <= Z.pos (digits2_pos M) -> -1074 <= e ->
  binary_round_aux 53 1024 s (Z.pos M) e loc_Exact = S754_infinity s
  \/ exists (m : positive) (j : Z),
       binary_round_aux 53 1024 s (Z.pos M) e loc_Exact = S754_finite s m (e + j)
       /\ Z.pos (digits2_pos M) - 53 <= j <= Z.pos (digits2_pos M) - 52
       /\ 2 ^ 52 <= Z.pos m < 2 ^ 53.
Proof.
  intros HD54 He.
  pose proof (digits2_pos_bounds M) as HD.
  set (D := Z.pos (digits2_pos M)) in *.
  set (n := D - 53).
  assert (1 <= n) as Hn by (unfold n; lia).
  assert (fexp 53 1024 (Zdigits2 (Z.pos M) + e) - e = n) as Hfexp.
  { unfold fexp, emin, n. cbn [Zdigits2]. fold D. lia. }
  unfold binary_round_aux.
  rewrite (shr_fexp_shift _ _ n) by (exact Hfexp || lia).
  cbn [shr_record_of_loc].
  pose proof (shifted_iter (Z.to_pos n) (Z.pos M) 0 _ ltac:(lia)
                (shifted_0 (Z.pos M) ltac:(lia))) as Hsh.
  rewrite Z2Pos.id in Hsh by lia. rewrite Z.add_0_l in Hsh.
  set (mrs := SpecFloat.iter_pos shr_1 (Z.to_pos n) _) in *.
  destruct (rne_bound (Z.pos M) n mrs ltac:(lia) Hsh) as (HQ & Hround & Hq).
  set (Q := round_nearest_even (shr_m mrs) (loc_of_shr_record mrs)) in *.
  assert (2 ^ D = 2 ^ 53 * 2 ^ n /\ 2 ^ (D - 1) = 2 ^ 52 * 2 ^ n /\ 0 < 2 ^ n)
    as (HpD & HpD1 & Hpn).
  { unfold n. rewrite <- !Z.pow_add_r by lia. split; [f_equal; lia|].
    split; [f_equal; lia|]. apply Z.pow_pos_nonneg; lia. }
  assert (2 ^ 52 <= Q <= 2 ^ 53) as HQr.
  { rewrite HpD, HpD1 in HD. revert HD Hq HQ Hpn. generalize (2 ^ n) (shr_m mrs).
    intros N q HD Hq HQ Hpn. nia. }
  destruct Q as [|pq|pq] eqn:HQe; [lia| |lia].
  destruct (Z_lt_le_dec (Z.pos pq) (2 ^ 53)) as [Hlt|Hge].
  - assert (Z.pos (digits2_pos pq) = 53) as Hdq
        by (apply digits2_pos_unique; lia).
    rewrite shr_fexp_keep.
    2:{ unfold fexp, emin. cbn [Zdigits2]. rewrite Hdq. lia. }
    cbn [shr_record_of_loc shr_m].
    destruct (e + n <=? 1024 - 53); [|left; reflexivity].
    right. exists pq, n. split; [reflexivity|]. unfold n. split; lia.
  - assert (Z.pos pq = 2 ^ 53) as Hpq by lia.
    assert (Z.pos (digits2_pos pq) = 54) as Hdq
        by (apply digits2_pos_unique; rewrite Hpq; lia).
    rewrite (shr_fexp_shift _ _ 1).
    2:{ unfold fexp, emin. cbn [Zdigits2]. rewrite Hdq. lia. }
    2:{ lia. }
    cbn [shr_record_of_loc Z.to_pos SpecFloat.iter_pos]. rewrite shr_1_nonneg by lia.
    cbn [shr_m]. rewrite Hpq.
    change (2 ^ 53 / 2) with (Z.pos (2 ^ 52)%positive).
    destruct (e + n + 1 <=? 1024 - 53); [|left; reflexivity].
    right. exists (2 ^ 52)%positive, (n + 1).
    split; [f_equal; lia|]. unfold n. split; [lia|].
    change (Z.pos (2 ^ 52)) with (2 ^ 52). lia.
Qed.

(** The double nearest to an integer of at least 2^53. *)
Lemma of_int_big (pa : positive) :
  2 ^ 53 <= Z.pos pa ->
  Number.of_int (Z.pos pa)
  = binary_round_aux 53 1024 false (Z.pos pa) 0 loc_Exact
  /\ 54 <= Z.pos (digits2_pos pa).
Proof.
  intros Ha. pose proof (digits2_pos_bounds pa) as Hd.
  set (d := Z.pos (digits2_pos pa)) in *.
  assert (54 <= d) as Hd54.
  { destruct (Z_lt_le_dec d 54); [|assumption].
    assert (2 ^ d <= 2 ^ 53) by (apply Z.pow_le_mono_r; lia). lia. }
  split; [|exact Hd54].
  unfold Number.of_int, Number.prec, Number.emax. cbn [binary_normalize].
  unfold binary_round. fold d.
  assert (fexp 53 1024 (d + 0) = d - 53) as -> by (unfold fexp, emin; lia).
  unfold shl_align. rewrite Z.sub_0_r.
  destruct (d - 53) as [|p|p] eqn:Hp; try lia. reflexivity.
Qed.

Lemma ceil_le (m k : Z) : 0 <= m -> 1 <= k -> - (- m / k) <= m.
Proof.
  intros Hm Hk.
  assert (- m <= - m / k); [|lia].
  apply Z.div_le_lower_bound; [lia|]. nia.
Qed.

(** From 2 sats on the fee is less than the amount. *)
Lemma calculateFee_below (a : Z) : 2 <= a -> CashuService.calculateFee a < a.
Proof.
  intros Ha. unfold CashuService.calculateFee.
  destruct (Z_lt_le_dec a (2 ^ 53)) as [Hsmall|Hbig].
  { rewrite ceil_of_product by lia.
    pose proof (Z.div_mod (a + 49) 50 ltac:(lia)).
    pose proof (Z.mod_pos_bound (a + 49) 50 ltac:(lia)). lia. }
  destruct a as [|pa|pa]; try lia.
  destruct (of_int_big pa Hbig) as [-> HD].
  pose proof (digits2_pos_bounds pa) as Hd.
  set (D := Z.pos (digits2_pos pa)) in *.
  destruct (binary_round_aux_shape false pa 0 HD ltac:(lia))
    as [-> | (m & j & -> & Hj & Hm)].
  { cbn. lia. }
  fold D in Hj. rewrite Z.add_0_l.
  unfold Number.mul, Number.lit_0_02, Number.prec, Number.emax, SFmul. cbn [xorb].
  set (M := (m * 5764607523034235)%positive).
  assert (Z.pos M = Z.pos m * 5764607523034235) as HM by reflexivity.
  assert (2 ^ 104 <= Z.pos M < 2 ^ 106) as HMr.
  { rewrite HM. change (2 ^ 104) with (2 ^ 52 * 2 ^ 52).
    change (2 ^ 106) with (2 ^ 53 * 2 ^ 53).
    change (2 ^ 52) with 4503599627370496 in *.
    change (2 ^ 53) with 9007199254740992 in *. nia. }
  pose proof (digits2_pos_bounds M) as HdM.
  set (D' := Z.pos (digits2_pos M)) in *.
  assert (105 <= D' <= 106) as HD'.
  { split.
    - destruct (Z_lt_le_dec D' 105); [|lia].
      assert (2 ^ D' <= 2 ^ 104) by (apply Z.pow_le_mono_r; lia). lia.
    - destruct (Z_lt_le_dec 106 D'); [|lia].
      assert (2 ^ 106 <= 2 ^ (D' - 1)) by (apply Z.pow_le_mono_r; lia). lia. }
  destruct (binary_round_aux_shape false M (j + -58) ltac:(fold D'; lia) ltac:(lia))
    as [-> | (m' & j' & -> & Hj' & Hm')].
  { cbn. lia. }
  fold D' in Hj'. cbn [Number.Math_ceil].
  assert (2 ^ (j + 51) <= Z.pos pa) as Hlow.
  { transitivity (2 ^ (D - 1)); [|lia]. apply Z.pow_le_mono_r; lia. }
  destruct (Z.leb_spec 0 (j + -58 + j')) as [Hpos|Hneg].
  - assert (Z.pos m' * 2 ^ (j + -58 + j') < 2 ^ (j + 51)); [|lia].
    assert (2 ^ (j + -58 + j') <= 2 ^ (j - 4)) as Hp
      by (apply Z.pow_le_mono_r; lia).
    assert (2 ^ (j + 51) = 2 ^ 55 * 2 ^ (j - 4)) as ->
      by (rewrite <- Z.pow_add_r by lia; f_equal; lia).
    assert (0 < 2 ^ (j + -58 + j')) by (apply Z.pow_pos_nonneg; lia).
    change (2 ^ 55) with 36028797018963968.
    change (2 ^ 53) with 9007199254740992 in *.
    revert Hp H. generalize (2 ^ (j + -58 + j')) (2 ^ (j - 4)). intros. nia.
  - assert (- (- Z.pos m' / 2 ^ (- (j + -58 + j'))) <= Z.pos m').
    { apply ceil_le; [lia|].
      assert (0 < 2 ^ (- (j + -58 + j'))) by (apply Z.pow_pos_nonneg; lia). lia. }
    lia.
Qed.

(** The fee as the specification words it: two hundredths of the amount
    in exact arithmetic, rounded up, and at least 1. *)
Definition protocolMinFee (amount : Z) : Z :=
  Z.max 1 (Qceiling (inject_Z amount * (2 # 100))).

Lemma protocolMinFee_fiftieth (amount : Z) :
  protocolMinFee amount = Z.max 1 ((amount + 49) / 50).
Proof.
  unfold protocolMinFee, Qceiling, Qfloor, Qopp, Qmult, inject_Z.
  cbn [Qnum Qden Pos.mul]. f_equal.
  pose proof (Z.div_mod (amount + 49) 50 ltac:(lia)).
  pose proof (Z.mod_pos_bound (amount + 49) 50 ltac:(lia)).
  apply ceil_div_unique; lia.
Qed.

(** C1, as the code has it. For every amount from 1 up to
    [Number.MAX_SAFE_INTEGER], the largest integer amount a JavaScript
    number counts exactly, [calculateFee], which multiplies doubles and
    rounds up, returns what the specification asks for in exact
    arithmetic: the greater of 1 and the amount times 0.02 rounded up. In
    particular the fee on 21000 is 420 and the fee on 10 is 1. *)
Theorem calculateFee_fee_floor (amount : Z) :
  1 ≤ amount ≤ Number.MAX_SAFE_INTEGER →
  CashuService.calculateFee amount = protocolMinFee amount
  ∧ CashuService.calculateFee 21000 = 420
  ∧ CashuService.calculateFee 10 = 1.
Proof.
  intros Hamount. split; [|split; vm_compute; reflexivity].
  unfold CashuService.calculateFee.
  rewrite ceil_of_product, protocolMinFee_fiftieth; [reflexivity|].
  unfold Number.MAX_SAFE_INTEGER in Hamount. lia.
Qed.

Lemma calculateFee_fee_floor_witness :
  1 ≤ 350 ≤ Number.MAX_SAFE_INTEGER
  ∧ CashuService.calculateFee 350 = protocolMinFee 350
  ∧ CashuService.calculateFee 21000 = 420
  ∧ CashuService.calculateFee 10 = 1.
Proof.
  assert (1 ≤ 350 ≤ Number.MAX_SAFE_INTEGER) as Hamount
      by (split; apply Z.leb_le; reflexivity).
  split; [exact Hamount|].
  exact (calculateFee_fee_floor 350 Hamount).
Defined.

(** C1, as it is stated for every amount, fails: past the integers that
    doubles count exactly the product is rounded before it is rounded up,
    and the two part ways. This amount is a double, and its fee comes out
    one below the exact one. *)
Lemma calculateFee_past_safe_integers :
  let amount := 225179981368524864 in
  Number.MAX_SAFE_INTEGER < amount
  ∧ Number.of_int amount = S754_finite false 7036874417766402 5
  ∧ amount = 7036874417766402 * 2 ^ 5
  ∧ CashuService.calculateFee amount = 4503599627370497
  ∧ protocolMinFee amount = 4503599627370498.
Proof. vm_compute. repeat split; reflexivity. Qed.

(** ** Amount bounds *)

(** C8, as the code has it. Given the bounds [minSendable] and
    [maxSendable] of an LNURL response in millisatoshis, as [parseInt]
    reads them, and an amount in sats whose thousandfold is a safe
    integer, [validateAmount] accepts the amount exactly when
    [minSendable <= amount * 1000 <= maxSendable], both ends included;
    with [minSendable = 1000], 0 sats is refused and 1 sat is accepted. *)
Theorem validateAmount_inclusive_bounds
    (amount minSendable maxSendable : Z) (lnurlpResponse : JsVal) :
  Z.abs (amount * 1000) ≤ Number.MAX_SAFE_INTEGER →
  parseInt (get lnurlpResponse "minSendable") = Some minSendable →
  parseInt (get lnurlpResponse "maxSendable") = Some maxSendable →
  (LightningService.validateAmount amount lnurlpResponse = true
   ↔ minSendable ≤ amount * 1000 ≤ maxSendable)
  ∧ LightningService.validateAmount 0
      (JObj [("minSendable", JNum 1000); ("maxSendable", JNum 100000000)]) = false
  ∧ LightningService.validateAmount 1
      (JObj [("minSendable", JNum 1000); ("maxSendable", JNum 100000000)]) = true.
Proof.
  intros Hsafe Hmin Hmax. split; [|split; vm_compute; reflexivity].
  unfold LightningService.validateAmount, LightningService.satsToMillisats.
  rewrite times_exact by (unfold Number.MAX_SAFE_INTEGER in Hsafe; lia).
  rewrite Hmin, Hmax, andb_true_iff, !Z.leb_le. reflexivity.
Qed.

Lemma validateAmount_inclusive_bounds_witness :
  let lnurlpResponse :=
    JObj [("callback", JStr "https://ln.tips/cb");
          ("minSendable", JStr "1000"); ("maxSendable", JNum 100000000)] in
  Z.abs (100000 * 1000) ≤ Number.MAX_SAFE_INTEGER
  ∧ parseInt (get lnurlpResponse "minSendable") = Some 1000
  ∧ parseInt (get lnurlpResponse "maxSendable") = Some 100000000
  ∧ LightningService.validateAmount 100000 lnurlpResponse = true.
Proof.
  intros lnurlpResponse.
  assert (Z.abs (100000 * 1000) ≤ Number.MAX_SAFE_INTEGER) as Hsafe
    by (vm_compute; discriminate).
  assert (parseInt (get lnurlpResponse "minSendable") = Some 1000) as Hmin
    by (vm_compute; reflexivity).
  assert (parseInt (get lnurlpResponse "maxSendable") = Some 100000000) as Hmax
    by (vm_compute; reflexivity).
  split; [exact Hsafe|]. split; [exact Hmin|]. split; [exact Hmax|].
  apply (proj1 (validateAmount_inclusive_bounds 100000 1000 100000000 lnurlpResponse
                  Hsafe Hmin Hmax)).
  lia.
Defined.

(** C8, as it is stated for every amount, fails: the amount is multiplied
    by 1000 as a double, and past the safe integers the product is rounded
    before it is compared. These 72057594037929 sats are more than the
    upper bound allows, and pass. *)
Lemma validateAmount_past_safe_integers :
  let amount := 72057594037929 in
  let lnurlpResponse :=
    JObj [("minSendable", JNum 1000); ("maxSendable", JNum 72057594037928992)] in
  parseInt (get lnurlpResponse "minSendable") = Some 1000
  ∧ parseInt (get lnurlpResponse "maxSendable") = Some 72057594037928992
  ∧ amount * 1000 = 72057594037929000
  ∧ LightningService.satsToMillisats amount = 72057594037928992
  ∧ ¬ (1000 ≤ amount * 1000 ≤ 72057594037928992)
  ∧ LightningService.validateAmount amount lnurlpResponse = true.
Proof.
  vm_compute. repeat split; try reflexivity. intros [_ H]. apply H. reflexivity.
Qed.

(** The bounds are what [parseInt] makes of them: ['0x10'] is 16, and the
    number 1e21, which prints as ["1e+21"], is 1. *)
Example validateAmount_reads_bounds :
  parseInt (JStr "0x10") = Some 16
  ∧ LightningService.validateAmount 0
      (JObj [("minSendable", JStr "0x10"); ("maxSendable", JNum 100000000)]) = false
  ∧ parseInt (JNum (10 ^ 21)) = Some 1
  ∧ LightningService.validateAmount 1
      (JObj [("minSendable", JNum 1000); ("maxSendable", JNum (10 ^ 21))]) = false.
Proof. vm_compute. repeat split; reflexivity. Qed.

(** A bound that [parseInt] does not read as a number lets nothing
    through. *)
Lemma validateAmount_no_bound (amount : Z) (lnurlpResponse : JsVal) :
  parseInt (get lnurlpResponse "minSendable") = None
  ∨ parseInt (get lnurlpResponse "maxSendable") = None →
  LightningService.validateAmount amount lnurlpResponse = false.
Proof.
  unfold LightningService.validateAmount.
  intros [-> | ->]; [reflexivity|].
  destruct (parseInt (get lnurlpResponse "minSendable")); reflexivity.
Qed.

(** ** The domain allow-list *)

Section AllowList.
Context (cfg : LightningService.Config).

(** With no entry, or with the entry ["*"], every domain is allowed. *)
Lemma isDomainAllowed_all (domain : string) :
  LightningService.allowedDomains cfg = []
  ∨ "*" ∈ LightningService.allowedDomains cfg →
  LightningService.isDomainAllowed cfg domain = true.
Proof.
  unfold LightningService.isDomainAllowed. intros [->|Hstar]; [reflexivity|].
  destruct (_ =? _)%nat; [reflexivity|].
  assert (includes (LightningService.allowedDomains cfg) "*" = true) as ->;
    [|reflexivity].
  apply existsb_exists. exists "*". split; [|reflexivity].
  now apply list_elem_of_In.
Qed.

(** Otherwise a domain is allowed exactly when its lower-case form is an
    entry, as the entry is written. *)
Lemma isDomainAllowed_listed (domain : string) :
  LightningService.allowedDomains cfg ≠ [] →
  "*" ∉ LightningService.allowedDomains cfg →
  LightningService.isDomainAllowed cfg domain = true
  ↔ toLowerCase domain ∈ LightningService.allowedDomains cfg.
Proof.
  unfold LightningService.isDomainAllowed. intros Hne Hstar.
  destruct (LightningService.allowedDomains cfg) as [|d ds] eqn:Hl; [congruence|].
  cbn [length Nat.eqb].
  destruct (includes (d :: ds) "*") eqn:Hinc.
  - exfalso. apply Hstar. apply existsb_exists in Hinc as (x & Hx & Heq).
    apply String.eqb_eq in Heq. subst x. now apply list_elem_of_In.
  - unfold includes. rewrite existsb_exists. split.
    + intros (x & Hx & Heq). apply String.eqb_eq in Heq. subst x.
      now apply list_elem_of_In.
    + intros Hin. exists (toLowerCase domain). split; [now apply list_elem_of_In|].
      apply String.eqb_refl.
Qed.

(** A domain that is not allowed is turned away before anything is sent:
    [resolveInvoice] ends in its first turn, with the state as it was. *)
Lemma resolveInvoice_domain_gate (E : Env) (username domain : string) (amount : Z)
    (comment : string) (st : State) :
  LightningService.validateLightningAddress (username +:+ "@" +:+ domain) = true →
  split "@" (username +:+ "@" +:+ domain) = [username; domain] →
  LightningService.isDomainAllowed cfg domain = false →
  Loop.turn (LightningService.resolveInvoice E cfg (username +:+ "@" +:+ domain)
               amount comment) st
  = (Loop.Done (Throw (Error ("Lightning address resolution failed: Domain "
                                +:+ domain +:+ " is not allowed for redemption"))),
     st).
Proof.
  intros Hvalid Hsplit Hdomain.
  unfold LightningService.resolveInvoice, LightningService.getLNURLpEndpoint,
    LightningService.parseLightningAddress. unmonad.
  rewrite Hvalid, Hsplit, Hdomain. reflexivity.
Qed.

End AllowList.

(** C7. The entries of the allow-list are compared as they are written,
    while the domain is put in lower case first: with the entry
    ["LN.tips"] neither ["ln.tips"] nor ["LN.tips"] is allowed, although
    both match the entry when case is ignored. *)
Theorem isDomainAllowed_uppercase_entry :
  let cfg := LightningService.new (Some "LN.tips,getalby.com") None in
  LightningService.allowedDomains cfg = ["LN.tips"; "getalby.com"]
  ∧ LightningService.isDomainAllowed cfg "ln.tips" = false
  ∧ LightningService.isDomainAllowed cfg "LN.tips" = false
  ∧ toLowerCase "LN.tips" = toLowerCase "ln.tips"
  ∧ LightningService.isDomainAllowed cfg "GetAlby.com" = true.
Proof. repeat split. Qed.

(** The allow-list [ln.tips, getalby.com]: [user@evil.com] is turned away
    before any call, [user@ln.tips] passes. *)
Lemma allow_list_example (E : Env) (st : State) :
  let cfg := LightningService.new (Some "ln.tips,getalby.com") None in
  Loop.turn (LightningService.resolveInvoice E cfg "user@evil.com" 100 "") st
  = (Loop.Done (Throw (Error
       "Lightning address resolution failed: Domain evil.com is not allowed for redemption")),
     st)
  ∧ LightningService.parseLightningAddress cfg "user@ln.tips"
    = Return ("user", "ln.tips").
Proof. split; reflexivity. Qed.

(** ** A worked scenario

    A token worth 21000 sats in two proofs, no address in the request, the
    default address [admin@example.org]; the provider allows 1 to
    100000000 millisatoshis, the mint quotes 20580 + 420 and pays. *)

Module Scenario.

Definition token : string := "cashuAeyJ0b2tlbiI6W119".

(** A token worth 1 sat. *)
Definition dust : string := "cashuBo2FteBtodHRwczovL21pbnQ".

Definition proofs : list Proof :=
  [{| amount := 16384; secret := "9a6d" |}; {| amount := 4616; secret := "b2f1" |}].

Definition E : Env := {|
  sha256_hex := λ s, "5e884898da280471" +:+ s;
  uuidv4 := λ n, "7c1e-" +:+ pretty n;
  getDecodedToken := λ s,
    if String.eqb s token
    then Return (Some (DecodedProofs "https://mint.example" proofs))
    else if String.eqb s dust
    then Return (Some (DecodedEntries
                         [{| entry_mint := "https://mint.example";
                             entry_proofs := [{| amount := 1; secret := "07c3" |}] |}]))
    else Throw (Error "Token is not valid");
  validURL := λ _, true
|}.

Definition lnurlp : JsVal :=
  JObj [("callback", JStr "https://example.org/lnurlp/admin/callback");
        ("minSendable", JNum 1); ("maxSendable", JNum 100000000)].

Definition P (meltResponse : JsVal) : Peers := {|
  axios_get := λ _ _ query,
    match query with
    | [] => Return {| status := 200; statusText := "OK"; data := lnurlp |}
    | _ => Return {| status := 200; statusText := "OK";
                     data := JObj [("pr", JStr "lnbc205800n1pexample")] |}
    end;
  mint_getInfo := λ _ _, Return tt;
  mint_check := λ _ _ _, Return (JObj [("spendable", JArr [JBool true; JBool true])]);
  wallet_createMeltQuote := λ _ _ _,
    Return {| quote := "q-1"; quote_amount := 20580; fee_reserve := 420 |};
  wallet_meltTokens := λ _ _ _ _, Return meltResponse
|}.

Definition paidResponse : JsVal := JObj [("paid", JBool true); ("fee_paid", JNum 420)].

(** The same, with a provider that cannot be reached. *)
Definition P_unreachable : Peers := {|
  axios_get := λ _ _ _, Throw (mkError (Some "ECONNREFUSED") "connect ECONNREFUSED");
  mint_getInfo := mint_getInfo (P paidResponse);
  mint_check := mint_check (P paidResponse);
  wallet_createMeltQuote := wallet_createMeltQuote (P paidResponse);
  wallet_meltTokens := wallet_meltTokens (P paidResponse)
|}.

Definition cfg : LightningService.Config :=
  LightningService.new (Some "*") (Some "admin@example.org").

Definition st0 : State := {|
  redemptions := ∅; tokenHashes := ∅; mints := ∅; wallets := ∅;
  trace := []; now := 1700000000000; drawn := 0
|}.

End Scenario.

(** The scenario end to end: the invoice is for 20580 sats, the payment is
    made, and the second request for the token is turned away. *)
Example scenario_end_to_end :
  let first := exec (Scenario.P Scenario.paidResponse)
                 (redeem Scenario.E Scenario.cfg (Some Scenario.token) None)
                 Scenario.st0 in
  first.1 = Return (Ok200 (Redeemed "7c1e-0" (JBool true) 21000 20580
                             "admin@example.org" true (JNum 420) 420 (JNum 20580)
                             JUndefined (JArr []) "https://mint.example" "cashuA"))
  ∧ trace first.2
    = [MintGetInfo "https://mint.example";
       MintCheck "https://mint.example" ["9a6d"; "b2f1"];
       HttpGet "https://example.org/.well-known/lnurlp/admin" [];
       HttpGet "https://example.org/lnurlp/admin/callback"
         [("amount", "20580000"); ("comment", "Cashu redemption")];
       MintMeltQuote "https://mint.example" "lnbc205800n1pexample";
       MintMelt "https://mint.example"
         {| quote := "q-1"; quote_amount := 20580; fee_reserve := 420 |}
         Scenario.proofs].
Proof. vm_compute. split; reflexivity. Qed.

(** ** The duplicate guard with two requests in flight *)

Lemma steps_schedule {A} (P : Peers) (picks : list bool)
    (c : Loop.Task A * Loop.Task A * State) :
  Loop.steps c (Loop.schedule P picks c).
Proof.
  revert c. induction picks as [|first picks IH]; intros [[t1 t2] st].
  - apply rtc_refl.
  - cbn [Loop.schedule]. destruct first.
    + destruct t1 as [o|call k|m]; cbn [Loop.serve fst snd].
      * apply IH.
      * eapply rtc_l; [|apply IH]. apply Loop.step_left. cbn [Loop.moves].
        exists (respond P (trace st) call). symmetry; apply surjective_pairing.
      * eapply rtc_l; [|apply IH]. apply Loop.step_left. cbn [Loop.moves].
        symmetry; apply surjective_pairing.
    + destruct t2 as [o|call k|m]; cbn [Loop.serve fst snd].
      * apply IH.
      * eapply rtc_l; [|apply IH]. apply Loop.step_right. cbn [Loop.moves].
        exists (respond P (trace st) call). symmetry; apply surjective_pairing.
      * eapply rtc_l; [|apply IH]. apply Loop.step_right. cbn [Loop.moves].
        symmetry; apply surjective_pairing.
Qed.

(** C4, as it is stated, fails for two requests in flight. The check for
    an earlier attempt is made by the validation, before its [await] on
    [parseToken]; the index is written by [performRedemption], which the
    route calls after its own [await] on the validation. When the second
    request is validated between the check and the write of the first,
    both pass the guard: two ids are drawn, both attempts go past the
    parsing of the token and on to the melt, and the index is left with
    the second. *)
Lemma duplicate_guard_race :
  let P := Scenario.P Scenario.paidResponse in
  let request := redeem Scenario.E Scenario.cfg (Some Scenario.token) None in
  let start := (Loop.Queued request, Loop.Queued request, Scenario.st0) in
  let picks :=
    ([true; false; true; false; true; false] ++ repeat true 8 ++ repeat false 8)%list in
  let final := Loop.schedule P picks start in
  let melt :=
    MintMelt "https://mint.example"
      {| quote := "q-1"; quote_amount := 20580; fee_reserve := 420 |}
      Scenario.proofs in
  RedemptionService.checkExistingRedemption Scenario.E Scenario.token Scenario.st0
    = None
  ∧ Loop.steps start final
  ∧ final.1.1
    = Loop.Over (Return (Ok200 (Redeemed "7c1e-0" (JBool true) 21000 20580
                                  "admin@example.org" true (JNum 420) 420
                                  (JNum 20580) JUndefined (JArr [])
                                  "https://mint.example" "cashuA")))
  ∧ final.1.2
    = Loop.Over (Return (Ok200 (Redeemed "7c1e-1" (JBool true) 21000 20580
                                  "admin@example.org" true (JNum 420) 420
                                  (JNum 20580) JUndefined (JArr [])
                                  "https://mint.example" "cashuA")))
  ∧ drawn final.2 = 2%nat
  ∧ (redemptions final.2 !! "7c1e-0") ≫= (λ record, record !! "status")
    = Some (JStr "paid")
  ∧ (redemptions final.2 !! "7c1e-1") ≫= (λ record, record !! "status")
    = Some (JStr "paid")
  ∧ tokenHashes final.2 !! RedemptionService.generateTokenHash Scenario.E Scenario.token
    = Some "7c1e-1"
  ∧ List.filter (λ c, match c with MintMelt _ _ _ => true | _ => false end)
      (trace final.2)
    = [melt; melt].
Proof.
  intros P request start picks final melt.
  split; [vm_compute; reflexivity|]. split; [exact (steps_schedule P picks start)|].
  vm_compute. repeat split.
Qed.

(** Nor does the guard hold for two requests a day apart: the sweep
    removes the record of the first attempt and its index entry, and the
    second request for the token is served like the first. *)
Lemma duplicate_guard_after_sweep :
  let P := Scenario.P Scenario.paidResponse in
  let request := redeem Scenario.E Scenario.cfg (Some Scenario.token) None in
  let first := exec P request Scenario.st0 in
  let later := Loop.sweep (Loop.set_now (now first.2 + 25 * 60 * 60 * 1000) first.2) in
  let second := exec P request later in
  Loop.steps (Loop.Over first.1, Loop.Queued request, first.2)
             (Loop.Over first.1, Loop.Queued request, later)
  ∧ RedemptionService.checkExistingRedemption Scenario.E Scenario.token first.2
    ≠ None
  ∧ RedemptionService.checkExistingRedemption Scenario.E Scenario.token later
    = None
  ∧ first.1
    = Return (Ok200 (Redeemed "7c1e-0" (JBool true) 21000 20580
                       "admin@example.org" true (JNum 420) 420 (JNum 20580)
                       JUndefined (JArr []) "https://mint.example" "cashuA"))
  ∧ second.1
    = Return (Ok200 (Redeemed "7c1e-1" (JBool true) 21000 20580
                       "admin@example.org" true (JNum 420) 420 (JNum 20580)
                       JUndefined (JArr []) "https://mint.example" "cashuA"))
  ∧ drawn second.2 = 2%nat.
Proof.
  intros P request first later second. split.
  - set (ticked := Loop.set_now (now first.2 + 25 * 60 * 60 * 1000) first.2).
    apply (rtc_l _ _ (Loop.Over first.1, Loop.Queued request, ticked)).
    + apply (Loop.step_tick (Loop.Over first.1) (Loop.Queued request) first.2).
      lia.
    + apply rtc_once.
      exact (Loop.step_sweep (Loop.Over first.1) (Loop.Queued request) ticked).
  - split; [vm_compute; discriminate|]. vm_compute. repeat split.
Qed.


(** ** A recorded attempt blocks the token, whatever its state *)

(** C5, as the code has it. As long as the ledger holds a record for the
    token, whatever the state of that attempt, failed included, a new
    request for the token is turned away: the validation reports "Token
    has already been redeemed", the answer is a 400 without an id, and
    nothing is written or sent. *)
Theorem recorded_attempt_blocks_retry
    (E : Env) (cfg : LightningService.Config) (token : string)
    (lightningAddress : option string) (st : State) (previous : gmap string JsVal) :
  token ≠ "" →
  RedemptionService.checkExistingRedemption E token st = Some previous →
  ∃ errs,
    Loop.turn (redeem E cfg (Some token) lightningAddress) st
    = (Loop.Done (Return (BadRequest400 (join ", " errs) None)), st)
    ∧ "Token has already been redeemed" ∈ errs.
Proof.
  intros Hne Hprev. apply String.eqb_neq in Hne.
  assert (∃ v, Loop.turn (RedemptionService.validateRedemptionRequest E cfg
                            (Some token) lightningAddress) st
               = (Loop.Done (Return v), st)
               ∧ valid v = false
               ∧ "Token has already been redeemed" ∈ errors v) as (v & Hv & Hvalid & Hin).
  { unfold RedemptionService.validateRedemptionRequest. unmonad. simpl.
    rewrite Hne, Hprev. simpl.
    destruct (LightningService.getLightningAddressToUse cfg lightningAddress)
      as [a|e]; [destruct (LightningService.validateLightningAddress a)|]; simpl;
      eexists; (split; [reflexivity|]); simpl; (split; [reflexivity|]);
      apply list_elem_of_In; simpl; auto. }
  exists (errors v). unfold redeem. unmonad.
  rewrite turn_bind, turn_await, Hv, Hvalid. split; [reflexivity | exact Hin].
Qed.

(** C5, as it is stated, fails: the first request ends in a failed attempt
    (the provider cannot be reached, nothing was melted), and the second
    request for the same token is turned away. *)
Lemma failed_attempt_blocks_retry :
  let request := redeem Scenario.E Scenario.cfg (Some Scenario.token) None in
  let first := exec Scenario.P_unreachable request Scenario.st0 in
  let second := exec Scenario.P_unreachable request first.2 in
  first.1 = Return (BadRequest400
      "Lightning address resolution failed: Unable to connect to Lightning address provider"
      (Some "7c1e-0"))
  ∧ (redemptions first.2 !! "7c1e-0") ≫= (λ r, r !! "status") = Some (JStr "failed")
  ∧ size (redemptions first.2) = 1%nat
  ∧ second.1 = Return (BadRequest400 "Token has already been redeemed" None)
  ∧ size (redemptions second.2) = 1%nat.
Proof. vm_compute. repeat split. Qed.

Lemma recorded_attempt_blocks_retry_witness :
  let request := redeem Scenario.E Scenario.cfg (Some Scenario.token) None in
  let after := (exec Scenario.P_unreachable request Scenario.st0).2 in
  RedemptionService.checkExistingRedemption Scenario.E Scenario.token after
    ≫= (λ previous, previous !! "status") = Some (JStr "failed")
  ∧ ∃ errs,
      Loop.turn request after
      = (Loop.Done (Return (BadRequest400 (join ", " errs) None)), after)
      ∧ "Token has already been redeemed" ∈ errs.
Proof.
  intros request after.
  assert (RedemptionService.checkExistingRedemption Scenario.E Scenario.token after
            ≫= (λ previous, previous !! "status") = Some (JStr "failed")) as Hfailed.
  { vm_compute. reflexivity. }
  split; [exact Hfailed|].
  destruct (RedemptionService.checkExistingRedemption Scenario.E Scenario.token after)
    as [previous|] eqn:Hprev; [|discriminate Hfailed].
  refine (recorded_attempt_blocks_retry Scenario.E Scenario.cfg Scenario.token None
            after previous _ Hprev).
  discriminate.
Defined.

(** ** A token that cannot cover the fee *)

Lemma merged_lookup (redeemId : string) (updates existing : gmap string JsVal)
    (st : State) :
  redemptions st !! redeemId = Some existing →
  redemptions (RedemptionService.merged redeemId updates st) !! redeemId
  = Some (<["updatedAt" := JNum (now st)]> (updates ∪ existing))
  ∧ trace (RedemptionService.merged redeemId updates st) = trace st.
Proof.
  intros H. unfold RedemptionService.merged. rewrite H. simpl.
  now rewrite lookup_insert_eq.
Qed.

Lemma started_lookup (E : Env) (token : string) (lightningAddress : option string)
    (destination : string) (st : State) :
  redemptions (started E token lightningAddress destination st)
    !! uuidv4 E (drawn st)
  = Some (<["updatedAt" := JNum (now st)]>
            (<["createdAt" := JNum (now st)]>
               (RedemptionService.initialStatus token
                  (RedemptionService.generateTokenHash E token) destination
                  (RedemptionService.blank lightningAddress))))
  ∧ trace (started E token lightningAddress destination st) = trace st.
Proof. unfold started. simpl. now rewrite lookup_insert_eq. Qed.

(** A token that cannot cover its fee is of 1 sat, and so is the fee: both
    print as they are. *)
Lemma dust_prints (E : Env) (token : string) (parsed : TokenData) :
  CashuMint.parseToken E token = Return parsed →
  totalAmount parsed - CashuService.calculateFee (totalAmount parsed) ≤ 0 →
  Number.toString (totalAmount parsed) = pretty (totalAmount parsed)
  ∧ Number.toString (CashuService.calculateFee (totalAmount parsed))
    = pretty (CashuService.calculateFee (totalAmount parsed)).
Proof.
  intros Hparse Hnet.
  pose proof (parseToken_positive E token parsed Hparse) as Hpos.
  assert (totalAmount parsed = 1) as ->.
  { destruct (Z_lt_le_dec (totalAmount parsed) 2) as [|Hbig]; [lia|].
    pose proof (calculateFee_below _ Hbig). lia. }
  split; vm_compute; reflexivity.
Qed.

(** C3. When the value of the token less the fee is not positive, the
    attempt ends in its first turn, before anything is sent to the mint or
    to the provider: the result is the failure "Token amount (...) is
    insufficient to cover the minimum fee (...)", the record of the
    attempt is marked failed with that error, and the trace of calls is as
    it was. *)
Theorem insufficient_value_fails_before_any_call
    (E : Env) (cfg : LightningService.Config) (token : string)
    (lightningAddress : option string) (destination : string)
    (parsed : TokenData) (st : State) :
  CashuMint.parseToken E token = Return parsed →
  LightningService.getLightningAddressToUse cfg lightningAddress = Return destination →
  totalAmount parsed - CashuService.calculateFee (totalAmount parsed) ≤ 0 →
  let redeemId := uuidv4 E (drawn st) in
  let error :=
    "Token amount (" +:+ pretty (totalAmount parsed)
      +:+ " sats) is insufficient to cover the minimum fee ("
      +:+ pretty (CashuService.calculateFee (totalAmount parsed)) +:+ " sats)" in
  ∃ st',
    Loop.turn (RedemptionService.performRedemption E cfg token lightningAddress) st
    = (Loop.Done (Return (NotRedeemed redeemId error)), st')
    ∧ (∀ P, exec P (RedemptionService.performRedemption E cfg token lightningAddress) st
            = (Return (NotRedeemed redeemId error), st'))
    ∧ trace st' = trace st
    ∧ ∃ record, redemptions st' !! redeemId = Some record
                ∧ record !! "status" = Some (JStr "failed")
                ∧ record !! "paid" = Some (JBool false)
                ∧ record !! "error" = Some (JStr error).
Proof.
  intros Hparse Haddress Hnet redeemId error.
  assert (∃ st', Loop.turn (RedemptionService.performRedemption E cfg token
                              lightningAddress) st
                 = (Loop.Done (Return (NotRedeemed redeemId error)), st')
                 ∧ st' = RedemptionService.merged redeemId
                           (list_to_map [("status", JStr "failed");
                                         ("paid", JBool false);
                                         ("error", JStr error)])
                           (RedemptionService.merged redeemId
                              {["status" := JStr "parsing_token"]}
                              (started E token lightningAddress destination st)))
    as (st' & Hturn & Hst').
  { eexists. split; [|reflexivity].
    rewrite (turn_performRedemption E cfg token lightningAddress destination st Haddress).
    unfold attempt, RedemptionService.redemptionSteps,
      RedemptionService.updateRedemption. unmonad. cbn [modify bind try_catch Loop.turn].
    rewrite turn_try_catch, turn_bind, Hparse. cbn [lift Loop.turn].
    rewrite minus_nonpos. pose proof Hnet as Hle. apply Z.leb_le in Hle. rewrite Hle.
    destruct (dust_prints E token parsed Hparse Hnet) as [-> ->]. reflexivity. }
  exists st'. split; [exact Hturn|]. split.
  { intros P. rewrite exec_turn, Hturn. reflexivity. }
  subst st'.
  destruct (started_lookup E token lightningAddress destination st) as [H0 T0].
  destruct (merged_lookup redeemId {["status" := JStr "parsing_token"]} _ _ H0)
    as [H1 T1].
  destruct (merged_lookup redeemId
              (list_to_map [("status", JStr "failed"); ("paid", JBool false);
                            ("error", JStr error)]) _ _ H1) as [H2 T2].
  split; [congruence|].
  eexists. split; [exact H2|].
  repeat split; (rewrite lookup_insert_ne by discriminate);
    apply lookup_union_Some_l; reflexivity.
Qed.

Lemma insufficient_value_fails_before_any_call_witness :
  let parsed := {| td_mint := "https://mint.example"; totalAmount := 1;
                   numProofs := 1; denominations := [1];
                   td_proofs := [{| amount := 1; secret := "07c3" |}];
                   format := "cashuB" |} in
  totalAmount parsed - CashuService.calculateFee (totalAmount parsed) = 0
  ∧ ∃ st',
      (∀ P, exec P (RedemptionService.performRedemption Scenario.E Scenario.cfg
                      Scenario.dust None) Scenario.st0
            = (Return (NotRedeemed "7c1e-0"
                 "Token amount (1 sats) is insufficient to cover the minimum fee (1 sats)"),
               st'))
      ∧ trace st' = [].
Proof.
  intros parsed. split; [vm_compute; reflexivity|].
  destruct (insufficient_value_fails_before_any_call Scenario.E Scenario.cfg
              Scenario.dust None "admin@example.org" parsed Scenario.st0)
    as (st' & _ & Hexec & Htrace & _).
  - vm_compute; reflexivity.
  - vm_compute; reflexivity.
  - vm_compute. discriminate.
  - exists st'. split; [exact Hexec | exact Htrace].
Defined.

(** ** The size of the invoice *)

(** Writes that leave the trace of calls alone: all of them do. *)
Definition keeps_trace (f : State → State) : Prop := ∀ st, trace (f st) = trace st.

Lemma keeps_trace_merged redeemId updates :
  keeps_trace (RedemptionService.merged redeemId updates).
Proof.
  intros st. unfold RedemptionService.merged.
  destruct (redemptions st !! redeemId); reflexivity.
Qed.

(** Among the calls of an attempt, the one that asks the provider for an
    invoice carries the query [amount=..., comment=Cashu redemption] for
    [sats]; the only other GET has no query. *)
Definition invoice_for (sats : Z) (c : NetCall) : Prop :=
  match c with
  | HttpGet _ query =>
      query = []
      ∨ query = LightningService.invoiceQuery (LightningService.satsToMillisats sats)
                  "Cashu redemption"
  | _ => True
  end.

Section InvoiceSize.
Context (E : Env) (cfg : LightningService.Config).
Context (token : string) (parsed : TokenData).
Context (Hparse : CashuMint.parseToken E token = Return parsed).

Let declared := totalAmount parsed.
Let net := Number.minus declared (CashuService.calculateFee declared).

Lemma sat_performRedemption (lightningAddress : option string) :
  sat keeps_trace (invoice_for net)
    (λ o, match o with
          | Return (Redeemed _ _ amount invoiceAmount _ _ _ _ _ _ _ _ _) =>
              amount = declared ∧ invoiceAmount = net
          | Return (NotRedeemed _ _) => True
          | Throw _ => False
          end)
    (RedemptionService.performRedemption E cfg token lightningAddress).
Proof.
  unfold RedemptionService.performRedemption. unmonad.
  cbn [gets modify bind sat]. intros st. split; [intros s; reflexivity|].
  apply sat_try_catch_post.
  apply sat_bind_lift;
    [intros destination _
    |intros e _; split; [apply keeps_trace_merged | exact I]].
  cbn [RedemptionService.storeRedemption modify bind sat].
  split; [intros s; reflexivity|]. split; [intros s; reflexivity|].
  eapply sat_mono;
    [| apply (sat_redemptionSteps E cfg keeps_trace (invoice_for net)) ].
  - intros [[]|e]; cbn [redeemed_as].
    + intros (_ & _ & _ & -> & parsed' & Hparse' & ->).
      rewrite Hparse in Hparse'. injection Hparse' as <-. split; reflexivity.
    + tauto.
    + intros _. split; [apply keeps_trace_merged | exact I].
  - intros f s. reflexivity.
  - intros f s. reflexivity.
  - intros c Hc. destruct c; first [exact I | destruct Hc].
  - intros redeemId updates _. apply keeps_trace_merged.
  - intros url. left. reflexivity.
  - intros parsed' url Hparse'. rewrite Hparse in Hparse'. injection Hparse' as <-.
    right. reflexivity.
Qed.

End InvoiceSize.

(** When the value of the token in millisatoshis is a safe integer, the
    subtraction of the fee and the conversion to millisatoshis are exact,
    the fee is the one of the specification, and the amount prints digit
    by digit. *)
Lemma net_exact (declared : Z) :
  1 ≤ declared → declared * 1000 ≤ Number.MAX_SAFE_INTEGER →
  Number.minus declared (CashuService.calculateFee declared)
  = declared - protocolMinFee declared
  ∧ Number.toString
      (LightningService.satsToMillisats
         (Number.minus declared (CashuService.calculateFee declared)))
    = pretty ((declared - protocolMinFee declared) * 1000).
Proof.
  intros Hpos Hsafe. unfold Number.MAX_SAFE_INTEGER in Hsafe.
  change (2 ^ 53 - 1) with 9007199254740991 in Hsafe.
  assert (CashuService.calculateFee declared = protocolMinFee declared) as ->.
  { unfold CashuService.calculateFee.
    rewrite ceil_of_product, protocolMinFee_fiftieth; [reflexivity|].
    change (2 ^ 53) with 9007199254740992. lia. }
  assert (1 ≤ protocolMinFee declared ≤ declared) as Hfee.
  { rewrite protocolMinFee_fiftieth.
    pose proof (Z.div_mod (declared + 49) 50 ltac:(lia)).
    pose proof (Z.mod_pos_bound (declared + 49) 50 ltac:(lia)). lia. }
  unfold LightningService.satsToMillisats.
  rewrite minus_exact by (change (2 ^ 53) with 9007199254740992; lia).
  rewrite times_exact by (change (2 ^ 53) with 9007199254740992; lia).
  rewrite toString_exact by (change (2 ^ 53) with 9007199254740992; lia).
  split; reflexivity.
Qed.

(** C2, as the code has it. For a token that parses with total value
    [declared], where [declared] in millisatoshis is a safe integer (at
    most [Number.MAX_SAFE_INTEGER]): every request for an invoice that the
    attempt sends to the provider is for [declared - protocolMinFee
    declared] sats, written in millisatoshis, and so is the invoice amount
    of the result; a token of 21000 sats asks for an invoice of 20580
    sats. *)
Theorem invoice_sized_at_value_less_fee
    (P : Peers) (E : Env) (cfg : LightningService.Config) (token : string)
    (lightningAddress : option string) (parsed : TokenData) (st : State) :
  CashuMint.parseToken E token = Return parsed →
  let declared := totalAmount parsed in
  declared * 1000 ≤ Number.MAX_SAFE_INTEGER →
  let run := exec P (RedemptionService.performRedemption E cfg token lightningAddress) st in
  (∃ calls,
     trace run.2 = (trace st ++ calls)%list
     ∧ ∀ url query, HttpGet url query ∈ calls → query ≠ [] →
         query = [("amount", pretty ((declared - protocolMinFee declared) * 1000));
                   ("comment", "Cashu redemption")])
  ∧ (∀ redeemId paid amount invoiceAmount to usingDefault fee actualFee netAmount
       preimage change mint format,
       run.1 = Return (Redeemed redeemId paid amount invoiceAmount to usingDefault
                         fee actualFee netAmount preimage change mint format) →
       amount = declared
       ∧ invoiceAmount = declared - protocolMinFee declared)
  ∧ 21000 - CashuService.calculateFee 21000 = 20580.
Proof.
  intros Hparse declared Hsafe run.
  pose proof (sat_performRedemption E cfg token parsed Hparse lightningAddress) as Hsat.
  pose proof (parseToken_positive E token parsed Hparse) as Hpos.
  destruct (net_exact declared ltac:(unfold declared; lia) Hsafe) as [Hnet Hprint].
  split; [|split].
  - destruct (exec_calls keeps_trace _ P _ _ st (λ f s H, H s) Hsat)
      as (calls & Htrace & Hcalls).
    exists calls. split; [exact Htrace|].
    intros url query Hin Hne. rewrite Forall_forall in Hcalls.
    destruct (Hcalls _ Hin) as [->| ->]; [congruence|].
    unfold LightningService.invoiceQuery. fold declared. rewrite Hprint. reflexivity.
  - intros redeemId paid amount invoiceAmount to usingDefault fee actualFee netAmount
      preimage change mint format Hrun.
    pose proof (exec_sat keeps_trace _ P _ (λ _, True) _ st
                  (λ _ _ _ _, I) (λ _ _ _, I) Hsat I) as [HQ _].
    fold run in HQ. rewrite Hrun in HQ. destruct HQ as [-> ->].
    split; [reflexivity | exact Hnet].
  - vm_compute. reflexivity.
Qed.

Lemma invoice_sized_at_value_less_fee_witness :
  let run := exec (Scenario.P Scenario.paidResponse)
               (RedemptionService.performRedemption Scenario.E Scenario.cfg
                  Scenario.token None) Scenario.st0 in
  HttpGet "https://example.org/lnurlp/admin/callback"
    [("amount", "20580000"); ("comment", "Cashu redemption")] ∈ trace run.2
  ∧ 21000 * 1000 ≤ Number.MAX_SAFE_INTEGER
  ∧ ∃ calls,
      trace run.2 = (trace Scenario.st0 ++ calls)%list
      ∧ ∀ url query, HttpGet url query ∈ calls → query ≠ [] →
          query = [("amount", pretty ((21000 - protocolMinFee 21000) * 1000));
                   ("comment", "Cashu redemption")].
Proof.
  intros run.
  assert (21000 * 1000 ≤ Number.MAX_SAFE_INTEGER) as Hsafe
    by (vm_compute; discriminate).
  split; [vm_compute; repeat constructor|]. split; [exact Hsafe|].
  refine (proj1 (invoice_sized_at_value_less_fee (Scenario.P Scenario.paidResponse)
                   Scenario.E Scenario.cfg Scenario.token None
                   {| td_mint := "https://mint.example"; totalAmount := 21000;
                      numProofs := 2; denominations := [16384; 4616];
                      td_proofs := Scenario.proofs; format := "cashuA" |}
                   Scenario.st0 _ Hsafe)).
  vm_compute. reflexivity.
Defined.

(** A token past that range, and a provider that takes any amount. *)
Module Whale.

Definition token : string := "cashuBo2FteBtodHRwczovL21pbnQubGFyZ2U".

Definition proofs : list Proof :=
  [{| amount := 4705802059620420; secret := "e41d" |}].

Definition E : Env := {|
  sha256_hex := sha256_hex Scenario.E;
  uuidv4 := uuidv4 Scenario.E;
  getDecodedToken := λ s,
    if String.eqb s token
    then Return (Some (DecodedProofs "https://mint.example" proofs))
    else Throw (Error "Token is not valid");
  validURL := λ _, true
|}.

Definition lnurlp : JsVal :=
  JObj [("callback", JStr "https://example.org/lnurlp/admin/callback");
        ("minSendable", JNum 1000); ("maxSendable", JStr "9000000000000000000")].

Definition P : Peers := {|
  axios_get := λ _ _ query,
    match query with
    | [] => Return {| status := 200; statusText := "OK"; data := lnurlp |}
    | _ => Return {| status := 200; statusText := "OK";
                     data := JObj [("pr", JStr "lnbc46116860184280110n1pexample")] |}
    end;
  mint_getInfo := λ _ _, Return tt;
  mint_check := λ _ _ _, Return (JObj [("spendable", JArr [JBool true])]);
  wallet_createMeltQuote := λ _ _ _,
    Return {| quote := "q-1"; quote_amount := 4611686018428011;
              fee_reserve := 94116041192409 |};
  wallet_meltTokens := λ _ _ _ _, Return Scenario.paidResponse
|}.

End Whale.

(** C2, as it is stated for every token, fails: a token of
    4705802059620420 sats has a fee of 94116041192409 and leaves
    4611686018428011 sats, which is 4611686018428011000 millisatoshis;
    the product is rounded to the nearest double and printed in its
    shortest form, so the provider is asked for 4611686018428010000. *)
Lemma invoice_past_safe_integers :
  let declared := 4705802059620420 in
  let run := exec Whale.P
               (RedemptionService.performRedemption Whale.E Scenario.cfg
                  Whale.token None) Scenario.st0 in
  (∃ parsed, CashuMint.parseToken Whale.E Whale.token = Return parsed
             ∧ totalAmount parsed = declared)
  ∧ Number.MAX_SAFE_INTEGER < declared * 1000
  ∧ CashuService.calculateFee declared = protocolMinFee declared
  ∧ pretty ((declared - protocolMinFee declared) * 1000) = "4611686018428011000"
  ∧ List.filter (λ c, match c with HttpGet _ (_ :: _) => true | _ => false end)
      (trace run.2)
    = [HttpGet "https://example.org/lnurlp/admin/callback"
         [("amount", "4611686018428010000"); ("comment", "Cashu redemption")]].
Proof.
  split; [eexists; split; vm_compute; reflexivity|].
  vm_compute. repeat split; reflexivity.
Qed.

(** ** The default Lightning address *)

(** Writes that keep the fields written once in the record of [redeemId]. *)
Definition keeps_once (redeemId : string) (f : State → State) : Prop :=
  ∀ st record, redemptions st !! redeemId = Some record →
    ∃ record', redemptions (f st) !! redeemId = Some record'
               ∧ Forall (λ k, record' !! k = record !! k) written_once.

Lemma keeps_once_refl redeemId (f : State → State) :
  (∀ st, redemptions (f st) = redemptions st) → keeps_once redeemId f.
Proof.
  intros Hf st record Hr. exists record. rewrite Hf. split; [exact Hr|].
  apply Forall_forall. reflexivity.
Qed.

Lemma keeps_once_merged redeemId redeemId' updates :
  spares updates → keeps_once redeemId (RedemptionService.merged redeemId' updates).
Proof.
  intros Hsp st record Hr. unfold RedemptionService.merged.
  destruct (redemptions st !! redeemId') as [existing|] eqn:Hex.
  - simpl. destruct (decide (redeemId' = redeemId)) as [->|Hne].
    + rewrite lookup_insert_eq. eexists. split; [reflexivity|].
      rewrite Hr in Hex. injection Hex as <-.
      unfold spares in Hsp. rewrite Forall_forall in Hsp |- *.
      intros k Hk. rewrite lookup_insert_ne.
      * apply lookup_union_r, Hsp, Hk.
      * intros <-. revert Hk. unfold written_once. rewrite !elem_of_cons.
        rewrite elem_of_nil. intros [H|[H|[H|[H|[H|[]]]]]]; discriminate H.
    + rewrite lookup_insert_ne by exact Hne. exists record. split; [exact Hr|].
      apply Forall_forall. reflexivity.
  - exists record. split; [exact Hr|]. apply Forall_forall. reflexivity.
Qed.

Section DefaultAddress.
Context (E : Env) (cfg : LightningService.Config).

Lemma blank_not_provided (lightningAddress : option string) :
  RedemptionService.blank lightningAddress = true →
  LightningService.provided lightningAddress = false.
Proof.
  destruct lightningAddress as [a|]; [|reflexivity]. simpl.
  destruct (String.eqb a ""); [reflexivity|]. simpl. intros ->. reflexivity.
Qed.

(** Without a default, a request that names no address does not pass the
    validation. *)
Lemma no_address_no_default (token lightningAddress : option string) (st : State) :
  RedemptionService.blank lightningAddress = true →
  LightningService.getDefaultLightningAddress cfg = None →
  ∃ errs,
    Loop.turn (redeem E cfg token lightningAddress) st
    = (Loop.Done (Return (BadRequest400 (join ", " errs) None)), st)
    ∧ "No Lightning address provided and no default Lightning address configured"
      ∈ errs.
Proof.
  intros Hblank Hdefault. apply blank_not_provided in Hblank.
  assert (∃ v, Loop.turn (RedemptionService.validateRedemptionRequest E cfg token
                            lightningAddress) st
               = (Loop.Done (Return v), st)
               ∧ valid v = false
               ∧ "No Lightning address provided and no default Lightning address configured"
                 ∈ errors v) as (v & Hv & Hvalid & Hin).
  { unfold RedemptionService.validateRedemptionRequest,
      LightningService.getLightningAddressToUse. unmonad. simpl.
    rewrite Hblank, Hdefault. simpl.
    destruct token as [t|]; [destruct (String.eqb t "")|]; simpl;
      try destruct (RedemptionService.checkExistingRedemption E t st); simpl;
      eexists; (split; [reflexivity|]); simpl; (split; [reflexivity|]);
      apply list_elem_of_In; simpl; auto. }
  exists (errors v). unfold redeem. unmonad.
  rewrite turn_bind, turn_await, Hv, Hvalid. split; [reflexivity | exact Hin].
Qed.

(** With a default, the attempt is stored with the default as its address
    and marked as using it, and stays so to its end. *)
Lemma default_address_recorded (P : Peers) (token : string)
    (lightningAddress : option string) (defaultAddress : string) (st : State) :
  RedemptionService.blank lightningAddress = true →
  LightningService.getDefaultLightningAddress cfg = Some defaultAddress →
  let run := exec P (RedemptionService.performRedemption E cfg token lightningAddress) st in
  (∃ record, redemptions run.2 !! uuidv4 E (drawn st) = Some record
             ∧ record !! "lightningAddress" = Some (JStr defaultAddress)
             ∧ record !! "usingDefaultAddress" = Some (JBool true))
  ∧ (∀ redeemId paid amount invoiceAmount to usingDefault fee actualFee netAmount
       preimage change mint format,
       run.1 = Return (Redeemed redeemId paid amount invoiceAmount to usingDefault
                         fee actualFee netAmount preimage change mint format) →
       to = defaultAddress ∧ usingDefault = true).
Proof.
  intros Hblank Hdefault run.
  assert (LightningService.getLightningAddressToUse cfg lightningAddress
          = Return defaultAddress) as Haddress.
  { unfold LightningService.getLightningAddressToUse.
    now rewrite (blank_not_provided _ Hblank), Hdefault. }
  subst run. rewrite (exec_performRedemption E cfg P _ _ _ st Haddress).
  set (redeemId := uuidv4 E (drawn st)).
  set (marked := λ s : State,
         ∃ record, redemptions s !! redeemId = Some record
                   ∧ record !! "lightningAddress" = Some (JStr defaultAddress)
                   ∧ record !! "usingDefaultAddress" = Some (JBool true)).
  assert (sat (keeps_once redeemId) any
            (λ o, match o with
                  | Return (Redeemed _ _ _ _ to usingDefault _ _ _ _ _ _ _) =>
                      to = defaultAddress ∧ usingDefault = true
                  | _ => True
                  end)
            (attempt E cfg token lightningAddress defaultAddress st)) as Hsat.
  { unfold attempt. apply sat_try_catch_post.
    eapply sat_mono;
      [| apply (sat_redemptionSteps E cfg (keeps_once redeemId) any) ].
    - intros [[]|e]; cbn [redeemed_as].
      + intros (_ & -> & -> & _). auto.
      + tauto.
      + intros _. split; [|exact I]. apply keeps_once_merged.
        apply spares_literal. reflexivity.
    - intros f. now apply keeps_once_refl.
    - intros f. now apply keeps_once_refl.
    - intros c _. exact I.
    - intros id' updates. apply keeps_once_merged.
    - intros url. exact I.
    - intros parsed url _. exact I. }
  assert (∀ f s, keeps_once redeemId f → marked s → marked (f s)) as Hwrite.
  { intros f s Hf (record & Hr & Ha & Hu).
    destruct (Hf s record Hr) as (record' & Hr' & Hkeep).
    rewrite Forall_forall in Hkeep. exists record'. split; [exact Hr'|].
    rewrite (Hkeep "lightningAddress"), (Hkeep "usingDefaultAddress");
      [auto | | ]; apply list_elem_of_In; simpl; auto 10. }
  assert (marked (started E token lightningAddress defaultAddress st)) as Hstart.
  { destruct (started_lookup E token lightningAddress defaultAddress st) as [Hr _].
    eexists. split; [exact Hr|]. rewrite Hblank.
    rewrite !lookup_insert_ne by discriminate. split; reflexivity. }
  destruct (exec_sat _ _ P _ marked _ _ Hwrite (λ c s H, H) Hsat Hstart) as [HQ HI].
  split; [exact HI|].
  intros redeemId' paid amount invoiceAmount to usingDefault fee actualFee netAmount
    preimage change mint format Hrun.
  rewrite Hrun in HQ. exact HQ.
Qed.

End DefaultAddress.

(** C10. A request whose Lightning address is absent or blank: when no
    default address is configured it is refused by the validation with
    "No Lightning address provided and no default Lightning address
    configured" and no attempt is made, nothing being written or sent;
    when a default is configured, the default is the destination and the
    record of the attempt is marked as using the default. *)
Theorem absent_address_default_or_refusal
    (P : Peers) (E : Env) (cfg : LightningService.Config)
    (lightningAddress : option string) (st : State) :
  RedemptionService.blank lightningAddress = true →
  (LightningService.getDefaultLightningAddress cfg = None →
   ∀ token, ∃ errs,
     Loop.turn (redeem E cfg token lightningAddress) st
     = (Loop.Done (Return (BadRequest400 (join ", " errs) None)), st)
     ∧ "No Lightning address provided and no default Lightning address configured"
       ∈ errs)
  ∧ (∀ defaultAddress,
       LightningService.getDefaultLightningAddress cfg = Some defaultAddress →
       LightningService.getLightningAddressToUse cfg lightningAddress
       = Return defaultAddress
       ∧ ∀ token,
           let run := exec P (RedemptionService.performRedemption E cfg token
                                lightningAddress) st in
           (∃ record, redemptions run.2 !! uuidv4 E (drawn st) = Some record
                      ∧ record !! "lightningAddress" = Some (JStr defaultAddress)
                      ∧ record !! "usingDefaultAddress" = Some (JBool true))
           ∧ (∀ redeemId paid amount invoiceAmount to usingDefault fee actualFee
                netAmount preimage change mint format,
                run.1 = Return (Redeemed redeemId paid amount invoiceAmount to
                                  usingDefault fee actualFee netAmount preimage
                                  change mint format) →
                to = defaultAddress ∧ usingDefault = true)).
Proof.
  intros Hblank. split.
  - intros Hnone token. now apply no_address_no_default.
  - intros defaultAddress Hdefault. split.
    + unfold LightningService.getLightningAddressToUse.
      now rewrite (blank_not_provided _ Hblank), Hdefault.
    + intros token. now apply default_address_recorded.
Qed.

Lemma absent_address_default_or_refusal_witness :
  let unset := LightningService.new (Some "*") None in
  RedemptionService.blank (Some "  ") = true
  ∧ (∃ errs,
       Loop.turn (redeem Scenario.E unset (Some Scenario.token) (Some "  ")) Scenario.st0
       = (Loop.Done (Return (BadRequest400 (join ", " errs) None)), Scenario.st0)
       ∧ "No Lightning address provided and no default Lightning address configured"
         ∈ errs)
  ∧ LightningService.getLightningAddressToUse Scenario.cfg (Some "  ")
    = Return "admin@example.org".
Proof.
  intros unset. split; [reflexivity|]. split.
  - refine (proj1 (absent_address_default_or_refusal (Scenario.P Scenario.paidResponse)
                     Scenario.E unset (Some "  ") Scenario.st0 eq_refl) eq_refl
              (Some Scenario.token)).
  - refine (proj1 (proj2 (absent_address_default_or_refusal
                            (Scenario.P Scenario.paidResponse)
                            Scenario.E Scenario.cfg (Some "  ") Scenario.st0 eq_refl)
                     "admin@example.org" eq_refl)).
Defined.

(** ** The settlement signals *)

(** The signals of a melt response, any of which makes the payment count
    as made: [paid] is [true], a preimage came back under either name, or
    [state] is ['PAID']. *)
Definition paid_signal (meltResponse : JsVal) : bool :=
  is_true (get meltResponse "paid")
  || truthy (get meltResponse "payment_preimage")
  || truthy (get meltResponse "preimage")
  || is_str "PAID" (get meltResponse "state").

Lemma truthy_or (a b : JsVal) : truthy (or a b) = truthy a || truthy b.
Proof. unfold or. destruct (truthy a) eqn:H; [now rewrite H | reflexivity]. Qed.

Lemma truthy_and (a b : JsVal) : truthy (and a b) = truthy a && truthy b.
Proof. unfold and. destruct (truthy a) eqn:H; [reflexivity | now rewrite H]. Qed.

Lemma paymentSuccessful_signal (meltResponse : JsVal) :
  truthy (CashuMint.paymentSuccessful meltResponse) = paid_signal meltResponse.
Proof.
  unfold CashuMint.paymentSuccessful, paid_signal.
  rewrite !truthy_or, truthy_and. cbn [truthy].
  destruct (is_str "PAID" (get meltResponse "state")) eqn:Hs.
  - destruct (get meltResponse "state") as [| |b|n|s|l|l|x]; try discriminate Hs.
    cbn [truthy is_str] in *. apply String.eqb_eq in Hs. subst s. reflexivity.
  - now rewrite andb_false_r.
Qed.

(** What [performRedemption] makes of the result of [meltToken]. *)
Lemma settled_signal (meltResult : MeltResult) :
  mr_paid meltResult = CashuMint.paymentSuccessful (rawMeltResponse meltResult) →
  mr_preimage meltResult = or (get (rawMeltResponse meltResult) "payment_preimage")
                              (get (rawMeltResponse meltResult) "preimage") →
  truthy (or (mr_paid meltResult) (JBool (truthy (mr_preimage meltResult))))
  = paid_signal (rawMeltResponse meltResult).
Proof.
  intros -> ->. rewrite truthy_or, paymentSuccessful_signal. cbn [truthy].
  rewrite truthy_or. unfold paid_signal.
  destruct (is_true _), (truthy (get _ "payment_preimage")),
    (truthy (get _ "preimage")), (is_str _ _); reflexivity.
Qed.

(** Code that ends without a further write, call or throw. *)
Fixpoint quiet {A} (m : Run A) : Prop :=
  match m with
  | Ret _ => True
  | Gets f => ∀ st, quiet (f st)
  | Yield m' => quiet m'
  | _ => False
  end.

(** [sat_last G L m]: the writes of [m] are in [G], but for a last one in
    [L] after which [m] ends quietly. *)
Fixpoint sat_last {A} (G L : (State → State) → Prop) (m : Run A) : Prop :=
  match m with
  | Ret _ | Raise _ => True
  | Gets f => ∀ st, sat_last G L (f st)
  | Modify f m' => (G f ∧ sat_last G L m') ∨ (L f ∧ quiet m')
  | Await c k => ∀ o, sat_last G L (k o)
  | Yield m' => sat_last G L m'
  end.

Section SatLast.
Context (G L : (State → State) → Prop).

Lemma sat_last_bind {A B} (Q : Outcome A → Prop) (m : Run A) (k : A → Run B) :
  sat G any Q m → (∀ a, Q (Return a) → sat_last G L (k a)) →
  sat_last G L (bind m k).
Proof.
  intros Hm Hk. induction m as [a|e|f IH|f m IH|c f IH|m IH]; simpl in *; auto.
  - destruct Hm. auto.
  - destruct Hm. auto.
Qed.

Lemma quiet_try_catch {A} (m : Run A) (h : JsError → Run A) :
  quiet m → quiet (try_catch m h).
Proof. induction m as [a|e|f IH|f m IH|c f IH|m IH]; simpl; auto; tauto. Qed.

Lemma sat_last_try_catch {A} (m : Run A) (h : JsError → Run A) :
  sat_last G L m → (∀ e, sat_last G L (h e)) → sat_last G L (try_catch m h).
Proof.
  intros Hm Hh. induction m as [a|e|f IH|f m IH|c f IH|m IH]; simpl in *; auto.
  destruct Hm as [[Hf Hm]|[Hf Hm]]; [left | right]; auto using quiet_try_catch.
Qed.

Lemma exec_quiet {A} (P : Peers) (m : Run A) (st : State) :
  quiet m → (exec P m st).2 = st.
Proof.
  revert st. induction m as [a|e|f IH|f m IH|c f IH|m IH]; simpl; intros st H;
    auto; tauto.
Qed.

(** From a state in [U], code in [sat_last G L] ends in a state in [F]. *)
Lemma exec_sat_last {A} (P : Peers) (U F : State → Prop) (m : Run A) (st : State) :
  (∀ f s, G f → U s → U (f s)) →
  (∀ f s, L f → U s → F (f s)) →
  (∀ c s, U s → U (sent c s)) →
  (∀ s, U s → F s) →
  sat_last G L m → U st → F (exec P m st).2.
Proof.
  intros HG HL Hsent HUF. revert st.
  induction m as [a|e|f IH|f m IH|c f IH|m IH]; simpl; intros st Hm Hst; auto.
  destruct Hm as [[Hf Hm]|[Hf Hm]]; [auto|].
  rewrite exec_quiet by exact Hm. auto.
Qed.

End SatLast.

Section Settlement.
Context (E : Env) (cfg : LightningService.Config) (redeemId : string).

(** The record of the attempt holds no melt response yet. *)
Definition unsettled (st : State) : Prop :=
  ∃ record, redemptions st !! redeemId = Some record
            ∧ record !! "rawMeltResponse" = None.

(** If the record holds a melt response, its status and its [paid] field
    are what the signals of that response say. *)
Definition classified (st : State) : Prop :=
  ∀ record meltResponse,
    redemptions st !! redeemId = Some record →
    record !! "rawMeltResponse" = Some meltResponse →
    record !! "status"
    = Some (JStr (if paid_signal meltResponse then "paid" else "failed"))
    ∧ ∃ paid, record !! "paid" = Some paid
              ∧ truthy paid = paid_signal meltResponse.

Definition before_settling (f : State → State) : Prop :=
  ∀ st, unsettled st → unsettled (f st).

Definition settling (f : State → State) : Prop :=
  ∀ st, unsettled st → classified (f st).

Lemma unsettled_classified st : unsettled st → classified st.
Proof.
  intros (record & Hr & Hnone) record' meltResponse Hr' Hraw. congruence.
Qed.

Lemma before_settling_merged redeemId' updates :
  updates !! "rawMeltResponse" = None →
  before_settling (RedemptionService.merged redeemId' updates).
Proof.
  intros Hu st (record & Hr & Hnone). unfold RedemptionService.merged.
  destruct (redemptions st !! redeemId') as [existing|] eqn:Hex.
  - unfold unsettled, set_redemptions. cbn [redemptions].
    destruct (decide (redeemId' = redeemId)) as [->|Hne].
    + rewrite lookup_insert_eq. eexists. split; [reflexivity|].
      rewrite lookup_insert_ne by discriminate.
      rewrite Hr in Hex. injection Hex as <-.
      now rewrite lookup_union_r.
    + exists record. now rewrite lookup_insert_ne.
  - now exists record.
Qed.

Lemma before_settling_other (f : State → State) :
  (∀ st, redemptions (f st) = redemptions st) → before_settling f.
Proof. intros Hf st (record & Hr & Hnone). exists record. now rewrite Hf. Qed.

(** What [meltToken] returns reports the response of the mint and what it
    made of it. *)
Definition melt_report (o : Outcome MeltResult) : Prop :=
  match o with
  | Return meltResult =>
      mr_paid meltResult = CashuMint.paymentSuccessful (rawMeltResponse meltResult)
      ∧ mr_preimage meltResult
        = or (get (rawMeltResponse meltResult) "payment_preimage")
             (get (rawMeltResponse meltResult) "preimage")
  | Throw _ => True
  end.

Lemma sat_meltToken_report (G : (State → State) → Prop) (token bolt11 : string) :
  (∀ f, G (set_mints f)) → (∀ f, G (set_wallets f)) →
  sat G any melt_report (CashuMint.meltToken E token bolt11).
Proof.
  intros Gm Gw. unfold CashuMint.meltToken. unmonad.
  apply sat_try_catch_post.
  apply sat_bind_lift; [intros parsed _ | intros e _; repeat sat_step].
  apply sat_bind; [apply sat_getWallet; auto; intros; exact I | intros _
                  | intros e; repeat sat_step].
  apply sat_bind_lift; [intros [proofs mint] _ | intros e _; repeat sat_step].
  apply sat_bind; [apply sat_net; exact I | intros meltQuote
                  | intros e; repeat sat_step].
  destruct (_ <? _); [cbn [throw sat]; repeat sat_step|].
  apply sat_bind; [apply sat_net; exact I | intros meltResponse
                  | intros e; repeat sat_step].
  destruct (LightningService.is_nullish meltResponse);
    [cbn [throw sat]; repeat sat_step|].
  simpl. split; reflexivity.
Qed.

Lemma sat_last_attempt (token : string) (lightningAddress : option string)
    (destination : string) :
  sat_last before_settling settling
    (try_catch
       (RedemptionService.redemptionSteps E cfg redeemId token destination
          (RedemptionService.blank lightningAddress))
       (RedemptionService.recordFailure redeemId)).
Proof.
  assert (∀ f, before_settling (set_mints f)) as Gm
    by (intros f; now apply before_settling_other).
  assert (∀ f, before_settling (set_wallets f)) as Gw
    by (intros f; now apply before_settling_other).
  assert (∀ c, mint_call c → any c) as Cm by (intros; exact I).
  assert (∀ id' updates, updates !! "rawMeltResponse" = None →
            sat before_settling any any
              (RedemptionService.updateRedemption id' updates)) as Hupdate.
  { intros id' updates Hu. apply sat_modify. now apply before_settling_merged. }
  apply sat_last_try_catch.
  2:{ intros e. left. split; [|exact I]. now apply before_settling_merged. }
  unfold RedemptionService.redemptionSteps. unmonad.
  eapply sat_last_bind; [apply Hupdate; reflexivity | intros _ _].
  destruct (CashuMint.parseToken E token) as [tokenData|e]; [|exact I].
  cbn [lift bind]. destruct (_ <=? 0); [exact I|].
  eapply sat_last_bind; [apply Hupdate; reflexivity | intros _ _].
  eapply sat_last_bind; [apply Hupdate; reflexivity | intros _ _].
  eapply sat_last_bind; [apply (sat_spendabilityStep E); auto | intros _ _].
  eapply sat_last_bind; [apply Hupdate; reflexivity | intros _ _].
  eapply sat_last_bind;
    [apply (sat_resolveInvoice E cfg); intros; exact I | intros invoiceData _].
  destruct (LightningService.bolt11 invoiceData); try exact I.
  eapply sat_last_bind; [apply Hupdate; reflexivity | intros _ _].
  eapply sat_last_bind; [apply Hupdate; reflexivity | intros _ _].
  eapply sat_last_bind;
    [apply (sat_meltToken_report before_settling); auto | intros meltResult [Hp Hpre]].
  intros st0. right. split; [|exact I].
  intros st (record & Hr & Hnone) record' meltResponse Hr' Hraw.
  unfold RedemptionService.merged in Hr'. rewrite Hr in Hr'.
  unfold set_redemptions in Hr'. cbn [redemptions] in Hr'.
  rewrite lookup_insert_eq in Hr'. injection Hr' as <-.
  rewrite lookup_insert_ne in Hraw by discriminate.
  erewrite lookup_union_Some_l in Hraw by reflexivity.
  injection Hraw as <-.
  rewrite <- (settled_signal meltResult Hp Hpre).
  split.
  - rewrite lookup_insert_ne by discriminate.
    erewrite lookup_union_Some_l by reflexivity. reflexivity.
  - eexists. split; [|reflexivity].
    rewrite lookup_insert_ne by discriminate.
    erewrite lookup_union_Some_l by reflexivity. reflexivity.
Qed.

End Settlement.

(** C6. The payment counts as made when any one of the signals holds:
    [paid] is [true], or a non-empty preimage is present, or [state] is
    ['PAID']. This is what [meltToken] reports, and what the record of the
    attempt says about the melt response it holds: status ["paid"] when a
    signal holds, ["failed"] when none does. A response with [paid: false]
    and a preimage counts as paid; one with no signal does not. *)
Theorem multi_signal_settlement
    (P : Peers) (E : Env) (cfg : LightningService.Config) (token : string)
    (lightningAddress : option string) (destination : string) (st : State) :
  LightningService.getLightningAddressToUse cfg lightningAddress = Return destination →
  (∀ meltResponse,
     truthy (CashuMint.paymentSuccessful meltResponse) = paid_signal meltResponse)
  ∧ (let run := exec P (RedemptionService.performRedemption E cfg token
                          lightningAddress) st in
     ∀ record meltResponse,
       redemptions run.2 !! uuidv4 E (drawn st) = Some record →
       record !! "rawMeltResponse" = Some meltResponse →
       record !! "status"
       = Some (JStr (if paid_signal meltResponse then "paid" else "failed"))
       ∧ ∃ paid, record !! "paid" = Some paid
                 ∧ truthy paid = paid_signal meltResponse)
  ∧ paid_signal (JObj [("paid", JBool false); ("payment_preimage", JStr "8f3a")]) = true
  ∧ paid_signal (JObj [("paid", JBool false); ("state", JStr "PAID")]) = true
  ∧ paid_signal (JObj [("paid", JBool false); ("payment_preimage", JStr "");
                       ("state", JStr "UNPAID")]) = false.
Proof.
  intros Haddress. split; [exact paymentSuccessful_signal|].
  split; [|repeat split].
  intros run. subst run.
  rewrite (exec_performRedemption E cfg P _ _ _ st Haddress).
  apply (exec_sat_last (before_settling (uuidv4 E (drawn st)))
           (settling (uuidv4 E (drawn st))) P
           (unsettled (uuidv4 E (drawn st)))
           (classified (uuidv4 E (drawn st)))).
  - intros f s Hf. apply Hf.
  - intros f s Hf. apply Hf.
  - intros c s H. exact H.
  - apply unsettled_classified.
  - apply sat_last_attempt.
  - destruct (started_lookup E token lightningAddress destination st) as [Hr _].
    eexists. split; [exact Hr|].
    rewrite !lookup_insert_ne by discriminate. reflexivity.
Qed.

Lemma multi_signal_settlement_witness :
  let meltResponse := JObj [("paid", JBool false); ("payment_preimage", JStr "8f3a")] in
  let run := exec (Scenario.P meltResponse)
               (RedemptionService.performRedemption Scenario.E Scenario.cfg
                  Scenario.token None) Scenario.st0 in
  (redemptions run.2 !! "7c1e-0") ≫= (λ record, record !! "rawMeltResponse")
  = Some meltResponse
  ∧ ∀ record meltResponse',
      redemptions run.2 !! "7c1e-0" = Some record →
      record !! "rawMeltResponse" = Some meltResponse' →
      record !! "status"
      = Some (JStr (if paid_signal meltResponse' then "paid" else "failed"))
      ∧ ∃ paid, record !! "paid" = Some paid
                ∧ truthy paid = paid_signal meltResponse'.
Proof.
  intros meltResponse run. split; [vm_compute; reflexivity|].
  refine (proj1 (proj2 (multi_signal_settlement (Scenario.P meltResponse) Scenario.E
                          Scenario.cfg Scenario.token None "admin@example.org"
                          Scenario.st0 _))).
  vm_compute. reflexivity.
Defined.

(** The two cases of the specification, run: [paid: false] with a
    preimage ends as paid, a response without any signal ends as failed. *)
Example settlement_by_preimage :
  let run := exec (Scenario.P (JObj [("paid", JBool false);
                                     ("payment_preimage", JStr "8f3a")]))
               (RedemptionService.performRedemption Scenario.E Scenario.cfg
                  Scenario.token None) Scenario.st0 in
  (redemptions run.2 !! "7c1e-0") ≫= (λ record, record !! "status")
  = Some (JStr "paid").
Proof. vm_compute. reflexivity. Qed.

Example settlement_without_signal :
  let run := exec (Scenario.P (JObj [("paid", JBool false); ("state", JStr "PENDING")]))
               (RedemptionService.performRedemption Scenario.E Scenario.cfg
                  Scenario.token None) Scenario.st0 in
  (redemptions run.2 !! "7c1e-0") ≫= (λ record, record !! "status")
  = Some (JStr "failed")
  ∧ (redemptions run.2 !! "7c1e-0") ≫= (λ record, record !! "paid")
    = Some (JBool false).
Proof. vm_compute. split; reflexivity. Qed.

(** ** The sweep *)

Section Sweep.
Context (cutoff : Z).

(** The hash under which a swept record is removed from the index. *)
Definition indexed_under (tokenHash : string) (record : gmap string JsVal) : Prop :=
  record !! "tokenHash" = Some (JStr tokenHash) ∧ tokenHash ≠ "".

Lemma sweepEntry_redemptions st redeemId record :
  redemptions (RedemptionService.sweepEntry cutoff st (redeemId, record))
  = if RedemptionService.createdBefore cutoff record
    then delete redeemId (redemptions st) else redemptions st.
Proof.
  unfold RedemptionService.sweepEntry.
  destruct (RedemptionService.createdBefore cutoff record); [|reflexivity].
  destruct (record !! "tokenHash") as [[| | | |h| | |]|]; try reflexivity.
  destruct (negb (String.eqb h "")); reflexivity.
Qed.

Lemma sweepEntry_tokenHashes st redeemId record tokenHash :
  tokenHashes (RedemptionService.sweepEntry cutoff st (redeemId, record)) !! tokenHash
  = if RedemptionService.createdBefore cutoff record then
      match record !! "tokenHash" with
      | Some (JStr h) =>
          if negb (String.eqb h "") && String.eqb h tokenHash then None
          else tokenHashes st !! tokenHash
      | _ => tokenHashes st !! tokenHash
      end
    else tokenHashes st !! tokenHash.
Proof.
  unfold RedemptionService.sweepEntry.
  destruct (RedemptionService.createdBefore cutoff record); [|reflexivity].
  destruct (record !! "tokenHash") as [[| | | |h| | |]|]; try reflexivity.
  destruct (String.eqb_spec h ""); [reflexivity|]. cbn [negb andb].
  destruct (String.eqb_spec h tokenHash) as [->|Hne];
    cbn [set_tokenHashes tokenHashes set_redemptions].
  - apply lookup_delete_eq.
  - now apply lookup_delete_ne.
Qed.

Lemma sweepEntry_rest st entry :
  mints (RedemptionService.sweepEntry cutoff st entry) = mints st
  ∧ wallets (RedemptionService.sweepEntry cutoff st entry) = wallets st
  ∧ trace (RedemptionService.sweepEntry cutoff st entry) = trace st
  ∧ now (RedemptionService.sweepEntry cutoff st entry) = now st
  ∧ drawn (RedemptionService.sweepEntry cutoff st entry) = drawn st.
Proof.
  destruct entry as [redeemId record]. unfold RedemptionService.sweepEntry.
  destruct (RedemptionService.createdBefore cutoff record); [|auto].
  destruct (record !! "tokenHash") as [[| | | |h| | |]|]; auto.
  destruct (negb (String.eqb h "")); auto.
Qed.

(** Sweeping a list of entries: a record goes exactly when it is listed
    as old. *)
Lemma sweep_redemptions (entries : list (string * gmap string JsVal)) st redeemId :
  redemptions (foldl (RedemptionService.sweepEntry cutoff) st entries) !! redeemId
  = if existsb (λ e, bool_decide (e.1 = redeemId)
                     && RedemptionService.createdBefore cutoff e.2) entries
    then None else redemptions st !! redeemId.
Proof.
  revert st. induction entries as [|[id record] entries IH]; intros st; [reflexivity|].
  cbn [foldl existsb fst snd]. rewrite IH, sweepEntry_redemptions.
  destruct (existsb _ entries); [now rewrite orb_true_r|]. rewrite orb_false_r.
  destruct (RedemptionService.createdBefore cutoff record);
    [|now rewrite andb_false_r].
  rewrite andb_true_r.
  case_bool_decide as Hid.
  - subst id. apply lookup_delete_eq.
  - now apply lookup_delete_ne.
Qed.

(** An index entry goes exactly when an old record is listed under its
    hash. *)
Lemma sweep_tokenHashes (entries : list (string * gmap string JsVal)) st tokenHash :
  tokenHashes (foldl (RedemptionService.sweepEntry cutoff) st entries) !! tokenHash
  = if existsb (λ e, RedemptionService.createdBefore cutoff e.2
                     && match e.2 !! "tokenHash" with
                        | Some (JStr h) => negb (String.eqb h "") && String.eqb h tokenHash
                        | _ => false
                        end) entries
    then None else tokenHashes st !! tokenHash.
Proof.
  revert st. induction entries as [|[id record] entries IH]; intros st; [reflexivity|].
  cbn [foldl existsb fst snd]. rewrite IH, sweepEntry_tokenHashes.
  destruct (existsb _ entries); [now rewrite orb_true_r|]. rewrite orb_false_r.
  destruct (RedemptionService.createdBefore cutoff record); [|reflexivity]. cbn [andb].
  destruct (record !! "tokenHash") as [[| | | |h| | |]|]; reflexivity.
Qed.

Lemma sweep_rest (entries : list (string * gmap string JsVal)) st :
  mints (foldl (RedemptionService.sweepEntry cutoff) st entries) = mints st
  ∧ wallets (foldl (RedemptionService.sweepEntry cutoff) st entries) = wallets st
  ∧ trace (foldl (RedemptionService.sweepEntry cutoff) st entries) = trace st
  ∧ now (foldl (RedemptionService.sweepEntry cutoff) st entries) = now st
  ∧ drawn (foldl (RedemptionService.sweepEntry cutoff) st entries) = drawn st.
Proof.
  revert st. induction entries as [|entry entries IH]; intros st; [auto|].
  cbn [foldl]. destruct (IH (RedemptionService.sweepEntry cutoff st entry))
    as (-> & -> & -> & -> & ->).
  apply sweepEntry_rest.
Qed.

End Sweep.

(** C9, as the code has it. The sweep goes by age alone: it removes
    exactly the records created before [now - maxAgeMs] (24 hours when no
    age is given), whatever their status, and with each removed record the
    index entry under the record's token hash; every other record and
    index entry, and the rest of the state, stay as they are. *)
Theorem sweep_by_age_only (P : Peers) (maxAgeMs : option Z) (st : State) :
  let cutoff := now st - default (24 * 60 * 60 * 1000) maxAgeMs in
  let old record := match record !! "createdAt" with
                    | Some (JNum createdAt) => createdAt <? cutoff
                    | _ => false
                    end in
  let swept := (exec P (RedemptionService.cleanupOldRedemptions maxAgeMs) st).2 in
  (∀ redeemId,
     redemptions swept !! redeemId
     = match redemptions st !! redeemId with
       | Some record => if old record then None else Some record
       | None => None
       end)
  ∧ (∀ tokenHash,
       (∃ redeemId record,
          redemptions st !! redeemId = Some record ∧ old record = true
          ∧ indexed_under tokenHash record)
       → tokenHashes swept !! tokenHash = None)
  ∧ (∀ tokenHash,
       ¬ (∃ redeemId record,
            redemptions st !! redeemId = Some record ∧ old record = true
            ∧ indexed_under tokenHash record)
       → tokenHashes swept !! tokenHash = tokenHashes st !! tokenHash)
  ∧ trace swept = trace st ∧ drawn swept = drawn st.
Proof.
  intros cutoff old swept.
  assert (swept = foldl (RedemptionService.sweepEntry cutoff) st
                    (map_to_list (redemptions st))) as -> by reflexivity.
  change old with (RedemptionService.createdBefore cutoff).
  split; [|split; [|split]].
  - intros redeemId. rewrite sweep_redemptions.
    destruct (existsb _ _) eqn:Hex.
    + apply existsb_exists in Hex as ([id record] & Hin & Hf).
      apply list_elem_of_In, elem_of_map_to_list in Hin.
      apply andb_true_iff in Hf as [Hid Hold]. apply bool_decide_eq_true in Hid.
      cbn [fst snd] in *. subst id. now rewrite Hin, Hold.
    + destruct (redemptions st !! redeemId) as [record|] eqn:Hr; [|reflexivity].
      destruct (RedemptionService.createdBefore cutoff record) eqn:Hold; [|reflexivity].
      exfalso. assert (existsb
        (λ e, bool_decide (e.1 = redeemId) && RedemptionService.createdBefore cutoff e.2)
        (map_to_list (redemptions st)) = true) as Hex'; [|congruence].
      apply existsb_exists. exists (redeemId, record). split.
      * now apply list_elem_of_In, elem_of_map_to_list.
      * cbn [fst snd]. rewrite Hold. now rewrite bool_decide_eq_true_2.
  - intros tokenHash (redeemId & record & Hr & Hold & Hh & Hne).
    rewrite sweep_tokenHashes.
    assert (existsb
      (λ e, RedemptionService.createdBefore cutoff e.2
            && match e.2 !! "tokenHash" with
               | Some (JStr h) => negb (String.eqb h "") && String.eqb h tokenHash
               | _ => false
               end) (map_to_list (redemptions st)) = true) as ->; [|reflexivity].
    apply existsb_exists. exists (redeemId, record). split.
    + now apply list_elem_of_In, elem_of_map_to_list.
    + cbn [fst snd]. rewrite Hold, Hh, String.eqb_refl.
      apply String.eqb_neq in Hne. now rewrite Hne.
  - intros tokenHash Hnone. rewrite sweep_tokenHashes.
    destruct (existsb _ _) eqn:Hex; [|reflexivity].
    exfalso. apply Hnone.
    apply existsb_exists in Hex as ([id record] & Hin & Hf).
    apply list_elem_of_In, elem_of_map_to_list in Hin. cbn [fst snd] in Hf.
    apply andb_true_iff in Hf as [Hold Hf].
    exists id, record. split; [exact Hin|]. split; [exact Hold|].
    unfold indexed_under.
    destruct (record !! "tokenHash") as [[| | | |h| | |]|]; try discriminate Hf.
    apply andb_true_iff in Hf as [Hne Heq].
    apply String.eqb_eq in Heq. subst h. split; [reflexivity|].
    apply negb_true_iff, String.eqb_neq in Hne. exact Hne.
  - destruct (sweep_rest cutoff (map_to_list (redemptions st)) st)
      as (_ & _ & Ht & _ & Hd). auto.
Qed.

(** C9, as it is stated, fails: an attempt that has been waiting for the
    mint for 25 hours, its status still ["melting_token"], is removed by
    the sweep, and its index entry with it. *)
Lemma sweep_removes_attempt_in_flight :
  let P := Scenario.P Scenario.paidResponse in
  let paused :=
    Nat.iter 5 (Loop.resume P)
      (Loop.turn (RedemptionService.performRedemption Scenario.E Scenario.cfg
                    Scenario.token None) Scenario.st0) in
  let later := Loop.set_now (now paused.2 + 25 * 60 * 60 * 1000) paused.2 in
  let swept := (exec P (RedemptionService.cleanupOldRedemptions None) later).2 in
  match paused.1 with
  | Loop.Blocked (MintMelt _ _ _) _ => True
  | _ => False
  end
  ∧ (redemptions later !! "7c1e-0") ≫= (λ record, record !! "status")
    = Some (JStr "melting_token")
  ∧ tokenHashes later !! RedemptionService.generateTokenHash Scenario.E Scenario.token
    = Some "7c1e-0"
  ∧ redemptions swept !! "7c1e-0" = None
  ∧ tokenHashes swept !! RedemptionService.generateTokenHash Scenario.E Scenario.token
    = None.
Proof. vm_compute. repeat split. Qed.

(** * The services, function by function

    ** Regular expressions: what [matches] accepts *)

(** Every character of [s] satisfies [p]. *)
Fixpoint every (p : ascii → bool) (s : string) : bool :=
  match s with
  | EmptyString => true
  | String c s' => p c && every p s'
  end.

Lemma matches_Void (s : string) : matches Void s = false.
Proof. induction s as [|c s IH]; [reflexivity | exact IH]. Qed.

Lemma matches_Eps (s : string) : matches Eps s = true ↔ s = "".
Proof.
  destruct s as [|c s]; cbn [matches deriv nullable]; [tauto|].
  rewrite matches_Void. split; discriminate.
Qed.

Lemma matches_Alt (r1 r2 : regex) (s : string) :
  matches (Alt r1 r2) s = matches r1 s || matches r2 s.
Proof.
  revert r1 r2. induction s as [|c s IH]; intros r1 r2; [reflexivity|].
  cbn [matches deriv]. apply IH.
Qed.

Lemma matches_Seq (r1 r2 : regex) (s : string) :
  matches (Seq r1 r2) s = true
  ↔ ∃ s1 s2, s = s1 +:+ s2 ∧ matches r1 s1 = true ∧ matches r2 s2 = true.
Proof.
  revert r1. induction s as [|c s IH]; intros r1.
  - cbn [matches nullable]. rewrite andb_true_iff. split.
    + intros [H1 H2]. exists "", "". auto.
    + intros ([|] & [|] & Hs & H1 & H2); try discriminate. auto.
  - cbn [matches deriv]. destruct (nullable r1) eqn:Hn.
    + rewrite matches_Alt, orb_true_iff, IH. split.
      * intros [(s1 & s2 & -> & H1 & H2)|H2].
        -- exists (String c s1), s2. auto.
        -- exists "", (String c s). auto.
      * intros ([|c' s1] & s2 & Hs & H1 & H2).
        -- right. change ("" +:+ s2) with s2 in Hs. subst s2. exact H2.
        -- left. injection Hs as <- ->. exists s1, s2. auto.
    + rewrite IH. split.
      * intros (s1 & s2 & -> & H1 & H2). exists (String c s1), s2. auto.
      * intros ([|c' s1] & s2 & Hs & H1 & H2).
        -- simpl in H1. congruence.
        -- injection Hs as <- ->. exists s1, s2. auto.
Qed.

Lemma matches_Class (p : ascii → bool) (s : string) :
  matches (Class p) s = true ↔ ∃ c, s = String c "" ∧ p c = true.
Proof.
  destruct s as [|c s]; cbn [matches deriv nullable].
  - split; [discriminate | intros (c & Hs & _); discriminate].
  - destruct (p c) eqn:Hp.
    + rewrite matches_Eps. split.
      * intros ->. eauto.
      * intros (c' & Hs & _). injection Hs as _ ->. reflexivity.
    + rewrite matches_Void. split; [discriminate|].
      intros (c' & Hs & Hp'). injection Hs as <- _. congruence.
Qed.

Lemma matches_Star_Class (p : ascii → bool) (s : string) :
  matches (Star (Class p)) s = every p s.
Proof.
  induction s as [|c s IH]; [reflexivity|].
  cbn [matches deriv every]. destruct (p c); cbn [andb].
  - rewrite <- IH. apply eq_true_iff_eq. rewrite matches_Seq. split.
    + intros (s1 & s2 & -> & H1%matches_Eps & H2). subst s1. exact H2.
    + intros H. exists "", s. auto.
  - apply not_true_is_false. rewrite matches_Seq.
    intros (s1 & s2 & _ & H1 & _). rewrite matches_Void in H1. discriminate.
Qed.

Lemma matches_Plus_Class (p : ascii → bool) (s : string) :
  matches (Plus (Class p)) s = true ↔ s ≠ "" ∧ every p s = true.
Proof.
  unfold Plus. rewrite matches_Seq. split.
  - intros (s1 & s2 & -> & (c & -> & Hc)%matches_Class & H2).
    rewrite matches_Star_Class in H2.
    change (String c "" +:+ s2) with (String c s2). cbn [every].
    rewrite Hc, H2. split; [discriminate|reflexivity].
  - intros [Hne H]. destruct s as [|c s]; [congruence|].
    cbn in H. apply andb_true_iff in H as [Hc H].
    exists (String c ""), s. rewrite matches_Star_Class.
    split; [reflexivity|]. split; [|exact H]. apply matches_Class. eauto.
Qed.

Lemma matches_Chr (c : ascii) (s : string) :
  matches (Chr c) s = true ↔ s = String c "".
Proof.
  unfold Chr. rewrite matches_Class. split.
  - intros (c' & -> & Hc). apply Ascii.eqb_eq in Hc. congruence.
  - intros ->. exists c. split; [reflexivity | apply Ascii.eqb_refl].
Qed.

Lemma matches_Lit (l s : string) : matches (Lit l) s = true ↔ s = l.
Proof.
  revert s. induction l as [|c l IH]; intros s; cbn [Lit].
  - apply matches_Eps.
  - rewrite matches_Seq. split.
    + intros (s1 & s2 & -> & H1%matches_Chr & H2%IH). subst. reflexivity.
    + intros ->. exists (String c ""), l. rewrite matches_Chr, IH. auto.
Qed.

(** ** Strings: [rev], [trim] and [split] *)

Lemma every_app (p : ascii → bool) (s1 s2 : string) :
  every p (s1 +:+ s2) = every p s1 && every p s2.
Proof.
  induction s1 as [|c s1 IH]; [reflexivity|].
  change (String c s1 +:+ s2) with (String c (s1 +:+ s2)). cbn [every].
  rewrite IH. destruct (p c), (every p s1); reflexivity.
Qed.

Lemma every_impl (p q : ascii → bool) (s : string) :
  (∀ c, p c = true → q c = true) → every p s = true → every q s = true.
Proof.
  intros Hpq. induction s as [|c s IH]; [reflexivity|].
  cbn [every]. rewrite !andb_true_iff. intros [Hc Hs]. auto.
Qed.

Lemma rev_app_spec (s1 s2 s3 : string) :
  String.rev_app (String.rev_app s1 s2) s3 = String.rev_app s2 (s1 +:+ s3).
Proof.
  revert s2 s3. induction s1 as [|c s1 IH]; intros s2 s3; cbn [String.rev_app].
  - reflexivity.
  - rewrite IH. reflexivity.
Qed.

Lemma rev_involutive (s : string) : String.rev (String.rev s) = s.
Proof.
  unfold String.rev. rewrite rev_app_spec. cbn [String.rev_app].
  induction s as [|c s IH]; [reflexivity|].
  change (String c s +:+ "") with (String c (s +:+ "")). f_equal. exact IH.
Qed.

Lemma every_rev_app (p : ascii → bool) (s1 s2 : string) :
  every p (String.rev_app s1 s2) = every p s1 && every p s2.
Proof.
  revert s2. induction s1 as [|c s1 IH]; intros s2; [reflexivity|].
  cbn [String.rev_app every]. rewrite IH. cbn [every].
  destruct (p c), (every p s1), (every p s2); reflexivity.
Qed.

Lemma every_rev (p : ascii → bool) (s : string) :
  every p (String.rev s) = every p s.
Proof. unfold String.rev. rewrite every_rev_app. cbn. apply andb_true_r. Qed.

Lemma trimStart_every (s : string) :
  every (λ c, negb (is_ws c)) s = true → trimStart s = s.
Proof.
  destruct s as [|c s]; [reflexivity|]. cbn [every trimStart].
  destruct (is_ws c); [discriminate | reflexivity].
Qed.

(** A string without white space is left as it is by [trim]. *)
Lemma trim_every (s : string) :
  every (λ c, negb (is_ws c)) s = true → trim s = s.
Proof.
  intros H. unfold trim. rewrite (trimStart_every s H).
  rewrite trimStart_every by (rewrite every_rev; exact H).
  apply rev_involutive.
Qed.

Lemma split_go_every (sep : ascii) (cur u : string) :
  every (λ c, negb (Ascii.eqb c sep)) u = true →
  (∀ rest, split_go sep cur (u +:+ String sep rest)
           = String.rev (String.rev_app u cur) :: split_go sep "" rest)
  ∧ split_go sep cur u = [String.rev (String.rev_app u cur)].
Proof.
  revert cur. induction u as [|c u IH]; intros cur Hu.
  - split; [intros rest|].
    + change ("" +:+ String sep rest) with (String sep rest).
      cbn [split_go String.rev_app]. rewrite Ascii.eqb_refl. reflexivity.
    + reflexivity.
  - cbn [every] in Hu. apply andb_true_iff in Hu as [Hc Hu].
    apply negb_true_iff in Hc.
    split; [intros rest|].
    + change (String c u +:+ String sep rest)
        with (String c (u +:+ String sep rest)).
      cbn [split_go String.rev_app]. rewrite Hc. apply IH, Hu.
    + cbn [split_go String.rev_app]. rewrite Hc. apply IH, Hu.
Qed.

(** Splitting [u@d] at the ["@"] gives back [u] and [d] when neither holds
    one. *)
Lemma split_two (sep : ascii) (u d : string) :
  every (λ c, negb (Ascii.eqb c sep)) u = true →
  every (λ c, negb (Ascii.eqb c sep)) d = true →
  split sep (u +:+ String sep d) = [u; d].
Proof.
  intros Hu Hd. unfold split.
  rewrite (proj1 (split_go_every sep "" u Hu)).
  rewrite (proj2 (split_go_every sep "" d Hd)).
  fold (String.rev u) (String.rev d). rewrite !rev_involutive. reflexivity.
Qed.

(** ** Tokens: what the format check lets through *)

Lemma alnum_dash_solid (c : ascii) :
  CashuService.alnum_dash c = true → negb (is_ws c) = true.
Proof.
  destruct c as [[] [] [] [] [] [] [] []]; vm_compute; congruence.
Qed.

Lemma tokenFormat_shape (token : string) :
  CashuService.isValidTokenFormat token = true
  ↔ ∃ version body,
      token = "cashu" +:+ String version body
      ∧ (version = "a" ∨ version = "b" ∨ version = "A" ∨ version = "B")%char
      ∧ body ≠ ""
      ∧ every CashuService.alnum_dash body = true.
Proof.
  unfold CashuService.isValidTokenFormat. rewrite matches_Seq.
  assert (∀ v, CashuService.one_of "abAB" v = true
               ↔ (v = "a" ∨ v = "b" ∨ v = "A" ∨ v = "B")%char) as Hone.
  { intros v. unfold CashuService.one_of. cbn [list_ascii_of_string existsb].
    rewrite !orb_true_iff, !Ascii.eqb_eq. intuition congruence. }
  split.
  - intros (s1 & s2 & -> & H1%matches_Lit & H2). subst s1.
    apply matches_Seq in H2 as (s3 & body & -> & (v & -> & Hv)%matches_Class & Hb).
    apply matches_Plus_Class in Hb as [Hne Hb].
    exists v, body. split; [reflexivity|]. rewrite <- Hone. auto.
  - intros (v & body & -> & Hv & Hne & Hb).
    exists "cashu", (String v body). split; [reflexivity|].
    split; [apply matches_Lit; reflexivity|].
    apply matches_Seq. exists (String v ""), body. split; [reflexivity|].
    split; [apply matches_Class; exists v; split; [reflexivity | apply Hone, Hv]|].
    apply matches_Plus_Class. auto.
Qed.

(** A token that passes the format check holds no white space, so
    trimming leaves it as it is. *)
Lemma isValidTokenFormat_trim (token : string) :
  CashuService.isValidTokenFormat token = true → trim token = token.
Proof.
  intros (v & body & -> & Hv & _ & Hb)%tokenFormat_shape.
  apply trim_every.
  change ("cashu" +:+ String v body)
    with (String "c" (String "a" (String "s" (String "h" (String "u" (String v body)))))).
  cbn [every]. rewrite (every_impl _ _ body alnum_dash_solid Hb).
  destruct Hv as [-> | [-> | [-> | ->]]]; reflexivity.
Qed.

(** X1. The format check accepts exactly the strings made of ["cashu"], one
    of the letters a, b, A, B, and one or more letters, digits, dashes or
    underscores; such a string is left as it is by [trim]. *)
Theorem isValidTokenFormat_accepts (token : string) :
  (CashuService.isValidTokenFormat token = true
   ↔ ∃ version body,
       token = "cashu" +:+ String version body
       ∧ (version = "a" ∨ version = "b" ∨ version = "A" ∨ version = "B")%char
       ∧ body ≠ ""
       ∧ every CashuService.alnum_dash body = true)
  ∧ (CashuService.isValidTokenFormat token = true → trim token = token).
Proof. split; [apply tokenFormat_shape | apply isValidTokenFormat_trim]. Qed.

(** ** Tokens: what parsing hands over *)

(** The total as [reduce] adds it up: one rounded addition a proof. *)
Definition summed (amounts : list Z) : Z := foldl Number.plus 0 amounts.

Lemma foldl_amounts (proofs : list Proof) (acc : Z) :
  foldl (λ sum proof, Number.plus sum (amount proof)) acc proofs
  = foldl Number.plus acc (map amount proofs).
Proof.
  revert acc. induction proofs as [|p proofs IH]; intros acc; cbn [foldl map].
  - reflexivity.
  - apply IH.
Qed.

Lemma sum_nonneg (amounts : list Z) :
  Forall (λ d, 0 ≤ d) amounts → 0 ≤ foldr Z.add 0 amounts.
Proof.
  induction 1 as [|d amounts Hd _ IH]; cbn [foldr]; lia.
Qed.

(** Amounts that are not negative and add up to less than 2^53 are added
    without rounding. *)
Lemma foldl_plus_exact (amounts : list Z) (acc : Z) :
  0 ≤ acc → Forall (λ d, 0 ≤ d) amounts →
  acc + foldr Z.add 0 amounts < 2 ^ 53 →
  foldl Number.plus acc amounts = acc + foldr Z.add 0 amounts.
Proof.
  intros Hacc Hall. revert acc Hacc.
  induction Hall as [|d amounts Hd Hall IH]; intros acc Hacc Hsum; cbn [foldl foldr] in *.
  - lia.
  - pose proof (sum_nonneg amounts Hall) as Hrest.
    rewrite plus_exact by lia. rewrite IH by lia. lia.
Qed.

Section Parsing.
Context (E : Env).

Lemma parseToken_cases (token : string) :
  match CashuMint.parseToken E token with
  | Return parsed =>
      CashuService.isValidTokenFormat (trim token) = true
      ∧ CashuMint.decodeTokenStructure E (trim token)
        = Return (td_proofs parsed, td_mint parsed)
      ∧ td_proofs parsed ≠ []
      ∧ numProofs parsed = length (td_proofs parsed)
      ∧ denominations parsed = map amount (td_proofs parsed)
      ∧ totalAmount parsed = summed (denominations parsed)
      ∧ 0 < totalAmount parsed
      ∧ format parsed
        = (if startsWith "cashuA" (trim token) then "cashuA" else "cashuB")
  | Throw error =>
      ∃ reason, error = Error ("Token parsing failed: " +:+ reason)
  end.
Proof.
  unfold CashuMint.parseToken, CashuMint.decodeTokenStructure,
    CashuService.parseToken.
  destruct (String.eqb token ""); cbn [rethrow]; [eauto|].
  destruct (CashuService.isValidTokenFormat (trim token)) eqn:Hformat;
    cbn [negb rethrow]; [|eauto].
  destruct (CashuService.decodeTokenStructure _ (trim token))
    as [[proofs mint]|e] eqn:Hdecode; cbn [bindO rethrow]; [|eauto].
  destruct proofs as [|p proofs]; cbn [length Nat.eqb rethrow]; [eauto|].
  destruct (_ <=? 0) eqn:Hpos; cbn [rethrow]; [eauto|].
  apply Z.leb_gt in Hpos. cbn [td_proofs td_mint numProofs denominations
                                totalAmount format].
  unfold summed. rewrite <- foldl_amounts. repeat split; auto.
Qed.

End Parsing.

(** X2. A token that parses has passed the format check (after trimming),
    has at least one proof, and format cashuA exactly when it starts with
    ["cashuA"]. Its total is positive and is what adding the denominations
    one by one as doubles gives; that is their sum when none is negative
    and the sum is below 2^53, and can be less otherwise: 2^53 and 1 add
    up to 2^53. Every failure is reported as "Token parsing failed: ...". *)
Theorem parseToken_result (E : Env) (token : string) :
  match CashuMint.parseToken E token with
  | Return parsed =>
      CashuService.isValidTokenFormat (trim token) = true
      ∧ CashuMint.decodeTokenStructure E (trim token)
        = Return (td_proofs parsed, td_mint parsed)
      ∧ td_proofs parsed ≠ []
      ∧ numProofs parsed = length (td_proofs parsed)
      ∧ denominations parsed = map amount (td_proofs parsed)
      ∧ totalAmount parsed = summed (denominations parsed)
      ∧ (Forall (λ d, 0 ≤ d) (denominations parsed) →
         foldr Z.add 0 (denominations parsed) < 2 ^ 53 →
         totalAmount parsed = foldr Z.add 0 (denominations parsed))
      ∧ 0 < totalAmount parsed
      ∧ format parsed
        = (if startsWith "cashuA" (trim token) then "cashuA" else "cashuB")
  | Throw error =>
      ∃ reason, error = Error ("Token parsing failed: " +:+ reason)
  end
  ∧ summed [2 ^ 53; 1] = 2 ^ 53.
Proof.
  split; [|vm_compute; reflexivity].
  pose proof (parseToken_cases E token) as H.
  destruct (CashuMint.parseToken E token) as [parsed|error]; [|exact H].
  destruct H as (H1 & H2 & H3 & H4 & H5 & H6 & H7 & H8).
  repeat split; try assumption.
  intros Hall Hsum. rewrite H6. unfold summed.
  rewrite foldl_plus_exact by (assumption || lia). lia.
Qed.

(** ** The route [POST /api/decode] *)

Lemma getTokenMintUrl_decoded (E : Env) (token : string) (proofs : list Proof)
    (mint : string) :
  CashuMint.decodeTokenStructure E token = Return (proofs, mint) →
  CashuService.getTokenMintUrl (getDecodedToken E) token
  = if String.eqb mint "" then None else Some mint.
Proof.
  unfold CashuMint.decodeTokenStructure, CashuService.decodeTokenStructure,
    CashuService.getTokenMintUrl.
  destruct (getDecodedToken E token) as [[[m ps|[|e es]]|]|err];
    cbn [bindO rethrow]; try discriminate;
    intros [= <- <-]; reflexivity.
Qed.

(** X3. When [/api/decode] answers 200, the token is a string that passed
    the format check untrimmed, the answer carries the fields of the
    parsed token, and [mint_url] names the same mint as [decoded.mint], or
    is [null] when that is empty. *)
Theorem decode_200 (E : Env) (token : option string) (mint : string)
    (total : Z) (n : nat) (denoms : list Z) (fmt : string)
    (mint_url : option string) :
  Server.decode E token = Server.Decode200 mint total n denoms fmt mint_url →
  ∃ t parsed,
    token = Some t
    ∧ CashuService.isValidTokenFormat t = true
    ∧ CashuMint.parseToken E t = Return parsed
    ∧ mint = td_mint parsed ∧ total = totalAmount parsed
    ∧ n = numProofs parsed ∧ denoms = denominations parsed
    ∧ fmt = format parsed
    ∧ mint_url = (if String.eqb mint "" then None else Some mint).
Proof.
  unfold Server.decode. destruct token as [t|]; [|discriminate].
  destruct (String.eqb t ""); [discriminate|].
  destruct (CashuService.isValidTokenFormat t) eqn:Hformat; [|discriminate].
  cbn [negb]. fold (CashuMint.parseToken E t).
  pose proof (parseToken_cases E t) as Hparsed.
  destruct (CashuMint.parseToken E t) as [parsed|e] eqn:Hparse; [|discriminate].
  intros [= <- <- <- <- <- <-]. exists t, parsed.
  destruct Hparsed as (_ & Hdecode & _).
  rewrite (isValidTokenFormat_trim t Hformat) in Hdecode.
  rewrite (getTokenMintUrl_decoded E t _ _ Hdecode). repeat split; auto.
Qed.

Lemma decode_200_witness :
  Server.decode Scenario.E (Some Scenario.token)
  = Server.Decode200 "https://mint.example" 21000 2 [16384; 4616] "cashuA"
      (Some "https://mint.example")
  ∧ ∃ t parsed,
      Some Scenario.token = Some t
      ∧ CashuService.isValidTokenFormat t = true
      ∧ CashuMint.parseToken Scenario.E t = Return parsed
      ∧ "https://mint.example" = td_mint parsed ∧ 21000 = totalAmount parsed
      ∧ 2%nat = numProofs parsed ∧ [16384; 4616] = denominations parsed
      ∧ "cashuA" = format parsed
      ∧ Some "https://mint.example"
        = (if String.eqb "https://mint.example" "" then None
           else Some "https://mint.example").
Proof.
  assert (Server.decode Scenario.E (Some Scenario.token)
          = Server.Decode200 "https://mint.example" 21000 2 [16384; 4616] "cashuA"
              (Some "https://mint.example")) as H by (vm_compute; reflexivity).
  split; [exact H|].
  exact (decode_200 Scenario.E (Some Scenario.token) _ _ _ _ _ _ H).
Defined.

(** ** Lightning addresses: what the format check lets through *)

Lemma not_ws_at_no_at (c : ascii) :
  LightningService.not_ws_at c = true → negb (Ascii.eqb c "@") = true.
Proof.
  unfold LightningService.not_ws_at. rewrite negb_orb, andb_true_iff. tauto.
Qed.

Lemma address_shape (a : string) :
  LightningService.validateLightningAddress a = true
  ↔ ∃ user host tld,
      a = user +:+ "@" +:+ host +:+ "." +:+ tld
      ∧ user ≠ "" ∧ host ≠ "" ∧ tld ≠ ""
      ∧ every LightningService.not_ws_at user = true
      ∧ every LightningService.not_ws_at host = true
      ∧ every LightningService.not_ws_at tld = true.
Proof.
  unfold LightningService.validateLightningAddress, LightningService.emailRegex.
  split.
  - destruct (String.eqb a ""); [discriminate|].
    intros (user & s1 & -> & [Hu1 Hu2]%matches_Plus_Class & H)%matches_Seq.
    apply matches_Seq in H as (at_ & s2 & -> & ->%matches_Chr & H).
    apply matches_Seq in H as (host & s3 & -> & [Hh1 Hh2]%matches_Plus_Class & H).
    apply matches_Seq in H as (dot & tld & -> & ->%matches_Chr
                               & [Ht1 Ht2]%matches_Plus_Class).
    exists user, host, tld. auto 10.
  - intros (user & host & tld & -> & Hu & Hh & Ht & Hu' & Hh' & Ht').
    destruct (String.eqb_spec (user +:+ "@" +:+ host +:+ "." +:+ tld) "")
      as [Hempty|_].
    { destruct user; [congruence | discriminate Hempty]. }
    apply matches_Seq. exists user, ("@" +:+ host +:+ "." +:+ tld).
    split; [reflexivity|]. split; [apply matches_Plus_Class; auto|].
    apply matches_Seq. exists "@", (host +:+ "." +:+ tld).
    split; [reflexivity|]. split; [apply matches_Chr; reflexivity|].
    apply matches_Seq. exists host, ("." +:+ tld).
    split; [reflexivity|]. split; [apply matches_Plus_Class; auto|].
    apply matches_Seq. exists ".", tld.
    split; [reflexivity|]. split; [apply matches_Chr; reflexivity|].
    apply matches_Plus_Class; auto.
Qed.

Lemma address_parts (cfg : LightningService.Config) (a : string) :
  LightningService.validateLightningAddress a = true →
  ∃ username domain,
    a = username +:+ "@" +:+ domain
    ∧ username ≠ ""
    ∧ every LightningService.not_ws_at username = true
    ∧ every LightningService.not_ws_at domain = true
    ∧ split "@" a = [username; domain]
    ∧ LightningService.parseLightningAddress cfg a
      = (if LightningService.isDomainAllowed cfg domain
         then Return (username, domain)
         else Throw (Error ("Domain " +:+ domain
                              +:+ " is not allowed for redemption"))).
Proof.
  intros Hvalid.
  destruct (proj1 (address_shape a) Hvalid)
    as (user & host & tld & -> & Hu & Hh & Ht & Hu' & Hh' & Ht').
  exists user, (host +:+ "." +:+ tld).
  assert (every LightningService.not_ws_at (host +:+ "." +:+ tld) = true) as Hd.
  { rewrite every_app, Hh'. change ("." +:+ tld) with (String "." tld).
    cbn [every]. rewrite Ht'. reflexivity. }
  assert (split "@" (user +:+ "@" +:+ host +:+ "." +:+ tld)
          = [user; host +:+ "." +:+ tld]) as Hsplit.
  { change ("@" +:+ host +:+ "." +:+ tld) with (String "@" (host +:+ "." +:+ tld)).
    apply split_two; eapply every_impl; eauto using not_ws_at_no_at. }
  repeat split; auto.
  unfold LightningService.parseLightningAddress.
  rewrite Hvalid, Hsplit. cbn [negb].
  destruct (LightningService.isDomainAllowed cfg _); reflexivity.
Qed.

(** The characters of the class [[^\s@]], among the code units below 256:
    all but U+0009 to U+000D, U+0020, U+00A0 and ["@"]. *)
Lemma not_ws_at_codes (c : ascii) :
  LightningService.not_ws_at c = true
  ↔ (let n := nat_of_ascii c in
     ¬ (9 ≤ n ≤ 13) ∧ n ≠ 32 ∧ n ≠ 160 ∧ n ≠ 64)%nat.
Proof.
  destruct c as [[] [] [] [] [] [] [] []]; vm_compute; split;
    first [ discriminate | intros _; repeat split; lia || discriminate
          | intros (H1 & H2 & H3 & H4); first [ exfalso; apply H1; split; lia
                                              | congruence | reflexivity ] ].
Qed.

(** X4. Among the strings whose characters are code units below 256, the
    format check accepts exactly the strings [user@host.tld] whose three
    parts are non-empty and hold neither ["@"] nor white space, that is
    none of U+0009 to U+000D, U+0020 and U+00A0. *)
Theorem validateLightningAddress_accepts (a : string) :
  (LightningService.validateLightningAddress a = true
   ↔ ∃ user host tld,
       a = user +:+ "@" +:+ host +:+ "." +:+ tld
       ∧ user ≠ "" ∧ host ≠ "" ∧ tld ≠ ""
       ∧ every LightningService.not_ws_at user = true
       ∧ every LightningService.not_ws_at host = true
       ∧ every LightningService.not_ws_at tld = true)
  ∧ (∀ c, LightningService.not_ws_at c = true
          ↔ (let n := nat_of_ascii c in
             ¬ (9 ≤ n ≤ 13) ∧ n ≠ 32 ∧ n ≠ 160 ∧ n ≠ 64)%nat)
  ∧ LightningService.validateLightningAddress
      (String (ascii_of_nat 160) "user@example.org") = false.
Proof.
  split; [apply address_shape|]. split; [apply not_ws_at_codes|].
  vm_compute. reflexivity.
Qed.

(** X5. An address that passes the format check splits at its one ["@"]
    into a user name and a domain; it is refused with "Domain ... is not
    allowed" when the allow-list refuses the domain, and otherwise parses
    to these two parts and resolves to
    [https://domain/.well-known/lnurlp/username]. An address that fails the
    format check is refused as such. *)
Theorem parseLightningAddress_parts (cfg : LightningService.Config) (a : string) :
  if LightningService.validateLightningAddress a then
    ∃ username domain,
      a = username +:+ "@" +:+ domain
      ∧ LightningService.parseLightningAddress cfg a
        = (if LightningService.isDomainAllowed cfg domain
           then Return (username, domain)
           else Throw (Error ("Domain " +:+ domain
                                +:+ " is not allowed for redemption")))
      ∧ LightningService.getLNURLpEndpoint cfg a
        = (if LightningService.isDomainAllowed cfg domain
           then Return ("https://" +:+ domain +:+ "/.well-known/lnurlp/"
                          +:+ username)
           else Throw (Error ("Domain " +:+ domain
                                +:+ " is not allowed for redemption")))
  else
    LightningService.parseLightningAddress cfg a
    = Throw (Error "Invalid Lightning address format")
    ∧ LightningService.getLNURLpEndpoint cfg a
      = Throw (Error "Invalid Lightning address format").
Proof.
  destruct (LightningService.validateLightningAddress a) eqn:Hvalid.
  - destruct (address_parts cfg a Hvalid)
      as (username & domain & Ha & _ & _ & _ & _ & Hparse).
    exists username, domain. split; [exact Ha|]. split; [exact Hparse|].
    unfold LightningService.getLNURLpEndpoint. rewrite Hparse.
    destruct (LightningService.isDomainAllowed cfg domain); reflexivity.
  - unfold LightningService.getLNURLpEndpoint,
      LightningService.parseLightningAddress.
    rewrite Hvalid. split; reflexivity.
Qed.

(** ** Validation of a redemption request *)

Lemma validation_verdict
    (P : Peers) (E : Env) (cfg : LightningService.Config)
    (token lightningAddress : option string) (st : State) :
  ∃ validation,
    Loop.turn (RedemptionService.validateRedemptionRequest E cfg token
                 lightningAddress) st
    = (Loop.Done (Return validation), st)
    ∧ exec P (RedemptionService.validateRedemptionRequest E cfg token
                lightningAddress) st
      = (Return validation, st)
    ∧ (valid validation = true ↔ errors validation = [])
    ∧ (valid validation = true →
       ∃ t parsed destination,
         token = Some t ∧ t ≠ ""
         ∧ tokenData validation = Some parsed
         ∧ CashuMint.parseToken E t = Return parsed
         ∧ 0 < totalAmount parsed
         ∧ RedemptionService.checkExistingRedemption E t st = None
         ∧ lightningAddressToUse validation = Some destination
         ∧ LightningService.getLightningAddressToUse cfg lightningAddress
           = Return destination
         ∧ LightningService.validateLightningAddress destination = true).
Proof.
  unfold RedemptionService.validateRedemptionRequest. unmonad.
  cbn [gets bind Loop.turn exec id].
  destruct token as [t|]; cycle 1.
  { destruct (LightningService.getLightningAddressToUse cfg lightningAddress)
      as [a|e]; [destruct (LightningService.validateLightningAddress a)|];
      cbn; eexists; (split; [reflexivity|]); (split; [reflexivity|]);
      cbn; (split; [split; discriminate|discriminate]). }
  destruct (String.eqb_spec t "") as [->|Hne].
  { destruct (LightningService.getLightningAddressToUse cfg lightningAddress)
      as [a|e]; [destruct (LightningService.validateLightningAddress a)|];
      cbn; eexists; (split; [reflexivity|]); (split; [reflexivity|]);
      cbn; (split; [split; discriminate|discriminate]). }
  destruct (LightningService.getLightningAddressToUse cfg lightningAddress)
    as [a|e] eqn:Haddress; cycle 1.
  { destruct (RedemptionService.checkExistingRedemption E t st);
      cbn; eexists; (split; [reflexivity|]); (split; [reflexivity|]);
      cbn; (split; [split; discriminate|discriminate]). }
  destruct (LightningService.validateLightningAddress a) eqn:Hformat; cycle 1.
  { destruct (RedemptionService.checkExistingRedemption E t st);
      cbn; eexists; (split; [reflexivity|]); (split; [reflexivity|]);
      cbn; (split; [split; discriminate|discriminate]). }
  destruct (RedemptionService.checkExistingRedemption E t st) eqn:Hfresh.
  { cbn; eexists; (split; [reflexivity|]); (split; [reflexivity|]);
      cbn; (split; [split; discriminate|discriminate]). }
  cbn [negb app andb length Nat.eqb].
  pose proof (parseToken_cases E t) as Hparsed.
  destruct (CashuMint.parseToken E t) as [parsed|e] eqn:Hparse; cycle 1.
  { cbn; eexists; (split; [reflexivity|]); (split; [reflexivity|]);
      cbn; (split; [split; discriminate|discriminate]). }
  destruct Hparsed as (_ & _ & _ & _ & _ & _ & Hpos & _).
  unfold await. cbn [lift bind try_catch Loop.turn exec].
  destruct (totalAmount parsed <=? 0) eqn:Hle; [apply Z.leb_le in Hle; lia|].
  eexists; (split; [reflexivity|]); (split; [reflexivity|]).
  cbn [valid errors tokenData lightningAddressToUse]. rewrite !Hle.
  cbn [length Nat.eqb].
  split; [tauto|]. intros _. exists t, parsed, a. auto 12.
Qed.

(** X6. Validating a request, its two fields strings or left out, contacts
    nobody and writes nothing. A request is valid exactly when no error was
    collected, and then the token is a non-empty string that parses to a
    positive total, no attempt is on record for it, and the address to use,
    given or default, passes the format check. *)
Theorem validateRedemptionRequest_verdict
    (P : Peers) (E : Env) (cfg : LightningService.Config)
    (token lightningAddress : option string) (st : State) :
  ∃ validation,
    Loop.turn (RedemptionService.validateRedemptionRequest E cfg token
                 lightningAddress) st
    = (Loop.Done (Return validation), st)
    ∧ exec P (RedemptionService.validateRedemptionRequest E cfg token
                lightningAddress) st
      = (Return validation, st)
    ∧ (valid validation = true ↔ errors validation = [])
    ∧ (valid validation = true →
       ∃ t parsed destination,
         token = Some t ∧ t ≠ ""
         ∧ tokenData validation = Some parsed
         ∧ CashuMint.parseToken E t = Return parsed
         ∧ 0 < totalAmount parsed
         ∧ RedemptionService.checkExistingRedemption E t st = None
         ∧ lightningAddressToUse validation = Some destination
         ∧ LightningService.getLightningAddressToUse cfg lightningAddress
           = Return destination
         ∧ LightningService.validateLightningAddress destination = true).
Proof. apply validation_verdict. Qed.

(** ** The route [POST /api/redeem]: its answers *)

Lemma sat_any {A} (m : Run A) : sat any any any m.
Proof.
  induction m as [a|e|k IH|f m IH|c k IH|m IH]; cbn [sat]; unfold any in *; auto.
Qed.

Lemma sat_performRedemption_returns (E : Env) (cfg : LightningService.Config)
    (token : string) (lightningAddress : option string) :
  sat any any (λ o, ∃ result, o = Return result)
    (RedemptionService.performRedemption E cfg token lightningAddress).
Proof.
  unfold RedemptionService.performRedemption. unmonad.
  cbn [gets modify bind sat]. intros st. split; [exact I|].
  apply sat_try_catch; [apply sat_any | eauto |].
  intros e. unfold RedemptionService.recordFailure,
    RedemptionService.updateRedemption. unmonad.
  cbn [modify bind sat]. split; [exact I | eauto].
Qed.

(** X7. To a request whose two fields are strings or left out,
    [/api/redeem] never answers 500 and never throws. A request that fails
    validation is answered 400 with the collected errors and leaves the
    state as it was; a valid request is answered 200, or 400 with the id of
    its attempt. *)
Theorem redeem_never_500
    (P : Peers) (E : Env) (cfg : LightningService.Config)
    (token lightningAddress : option string) (st : State) :
  let run := exec P (redeem E cfg token lightningAddress) st in
  ∃ validation,
    exec P (RedemptionService.validateRedemptionRequest E cfg token
              lightningAddress) st
    = (Return validation, st)
    ∧ if valid validation then attempted run.1
      else run = (Return (BadRequest400 (join ", " (errors validation)) None), st).
Proof.
  destruct (validation_verdict P E cfg token lightningAddress st)
    as (validation & _ & Hexec & _ & Hvalid).
  exists validation. split; [exact Hexec|].
  unfold redeem. unmonad. rewrite exec_bind, exec_await, Hexec.
  destruct (valid validation); cbn [negb]; [|reflexivity].
  destruct (Hvalid eq_refl) as (t & _ & _ & -> & _).
  refine (proj1 (exec_sat any any P attempted (λ _, True) _ st _ _ _ I));
    [auto | auto |].
  apply sat_try_catch_post, sat_bind_post.
  eapply sat_mono; [|apply sat_await, sat_performRedemption_returns].
  intros o [[] ->]; exact I.
Qed.

(** ** The calls of a run, read by an automaton

    [obeys δ Q s m]: started in state [s] of the automaton [δ], every call
    that [m] sends is one the automaton takes, and [m] ends with an outcome
    and in a state that [Q] holds of. Writes do not touch the trace. *)

Section Obeys.
Context {S : Type} (δ : S → NetCall → option S).

Fixpoint obeys {A} (Q : Outcome A → S → Prop) (s : S) (m : Run A) : Prop :=
  match m with
  | Ret a => Q (Return a) s
  | Raise e => Q (Throw e) s
  | Gets f => ∀ st, obeys Q s (f st)
  | Modify f m' => keeps_trace f ∧ obeys Q s m'
  | Await c k =>
      match δ s c with
      | Some s' => ∀ o, obeys Q s' (k o)
      | None => False
      end
  | Yield m' => obeys Q s m'
  end.

Fixpoint run_calls (s : S) (calls : list NetCall) : option S :=
  match calls with
  | [] => Some s
  | c :: calls' =>
      match δ s c with
      | Some s' => run_calls s' calls'
      | None => None
      end
  end.

Lemma obeys_mono {A} (Q Q' : Outcome A → S → Prop) (s : S) (m : Run A) :
  (∀ o s', Q o s' → Q' o s') → obeys Q s m → obeys Q' s m.
Proof.
  intros HQ. revert s.
  induction m as [a|e|k IH|f m IH|c k IH|m IH]; intros s; cbn [obeys]; auto.
  - intros [Hf Hm]. auto.
  - destruct (δ s c); auto.
Qed.

Lemma obeys_bind {A B} (Q : Outcome B → S → Prop) (s : S) (m : Run A)
    (k : A → Run B) :
  obeys (λ o s', match o with
                 | Return a => obeys Q s' (k a)
                 | Throw e => Q (Throw e) s'
                 end) s m →
  obeys Q s (bind m k).
Proof.
  revert s. induction m as [a|e|f IH|f m IH|c f IH|m IH]; intros s;
    cbn [obeys bind]; auto.
  - intros [Hf Hm]. auto.
  - destruct (δ s c); auto.
Qed.

Lemma obeys_try_catch {A} (Q : Outcome A → S → Prop) (s : S) (m : Run A)
    (h : JsError → Run A) :
  obeys (λ o s', match o with
                 | Return a => Q (Return a) s'
                 | Throw e => obeys Q s' (h e)
                 end) s m →
  obeys Q s (try_catch m h).
Proof.
  revert s. induction m as [a|e|f IH|f m IH|c f IH|m IH]; intros s;
    cbn [obeys try_catch]; auto.
  - intros [Hf Hm]. auto.
  - destruct (δ s c); auto.
Qed.

Lemma obeys_lift {A} (Q : Outcome A → S → Prop) (s : S) (o : Outcome A) :
  Q o s → obeys Q s (lift o).
Proof. destruct o; exact id. Qed.

Lemma obeys_bind_lift {A B} (Q : Outcome B → S → Prop) (s : S) (o : Outcome A)
    (k : A → Run B) :
  (∀ a, o = Return a → obeys Q s (k a)) →
  (∀ e, o = Throw e → Q (Throw e) s) →
  obeys Q s (bind (lift o) k).
Proof. destruct o; cbn [lift bind obeys]; auto. Qed.

Lemma obeys_net (s s' : S) (c : NetCall) (Q : Outcome (answerType c) → S → Prop) :
  δ s c = Some s' → (∀ o, Q o s') → obeys Q s (net c).
Proof.
  intros Hδ HQ. cbn [net obeys]. rewrite Hδ. intros o. apply obeys_lift, HQ.
Qed.

Lemma run_calls_app (s : S) (calls1 calls2 : list NetCall) :
  run_calls s (calls1 ++ calls2)
  = run_calls s calls1 ≫= (λ s', run_calls s' calls2).
Proof.
  revert s. induction calls1 as [|c calls1 IH]; intros s; [reflexivity|].
  cbn [app run_calls]. destruct (δ s c); [apply IH | reflexivity].
Qed.

Lemma exec_obeys {A} (P : Peers) (Q : Outcome A → S → Prop) (s : S)
    (m : Run A) (st : State) :
  obeys Q s m →
  ∃ calls s',
    trace (exec P m st).2 = (trace st ++ calls)%list
    ∧ run_calls s calls = Some s'
    ∧ Q (exec P m st).1 s'.
Proof.
  revert s st. induction m as [a|e|f IH|f m IH|c f IH|m IH]; intros s st;
    cbn [obeys exec].
  - intros HQ. exists [], s. rewrite app_nil_r. auto.
  - intros HQ. exists [], s. rewrite app_nil_r. auto.
  - intros Hm. apply IH, Hm.
  - intros [Hf Hm]. destruct (IH s (f st) Hm) as (calls & s' & Ht & Hr & HQ).
    exists calls, s'. rewrite Ht, Hf. auto.
  - destruct (δ s c) as [s1|] eqn:Hδ; [|tauto]. intros Hm.
    destruct (IH (respond P (trace (sent c st)) c) s1 (sent c st) (Hm _))
      as (calls & s' & Ht & Hr & HQ).
    exists (c :: calls), s'. rewrite Ht. cbn [sent trace run_calls].
    rewrite Hδ, <- app_assoc. auto.
  - intros Hm. apply IH, Hm.
Qed.

End Obeys.

(** Code that ends in the automaton state it started in. *)
Definition stays {S A} (s : S) : Outcome A → S → Prop := λ _ s', s' = s.

(** On success the automaton is in [s]. *)
Definition reaches {S A} (s : S) : Outcome A → S → Prop :=
  λ o s', match o with Return _ => s' = s | Throw _ => True end.

Lemma keeps_trace_mints f : keeps_trace (set_mints f).
Proof. intros st. reflexivity. Qed.

Lemma keeps_trace_wallets f : keeps_trace (set_wallets f).
Proof. intros st. reflexivity. Qed.

Lemma keeps_trace_tokenHashes f : keeps_trace (set_tokenHashes f).
Proof. intros st. reflexivity. Qed.

Lemma keeps_trace_stored redeemId status :
  keeps_trace (RedemptionService.stored redeemId status).
Proof. intros st. reflexivity. Qed.

Lemma keeps_trace_draw : keeps_trace draw.
Proof. intros st. reflexivity. Qed.

Section ServiceCalls.
Context (E : Env) (cfg : LightningService.Config).
Context {S : Type} (δ : S → NetCall → option S).

Lemma obeys_getMint (s : S) (mintUrl : string) :
  δ s (MintGetInfo mintUrl) = Some s →
  obeys δ (stays s) s (CashuMint.getMint mintUrl).
Proof.
  intros Hδ. unfold CashuMint.getMint. unmonad.
  cbn [gets bind obeys]. intros st.
  destruct (negb _); [|reflexivity].
  apply obeys_try_catch, obeys_bind.
  apply obeys_net with (s' := s); [exact Hδ|].
  intros [[]|e]; cbn [modify obeys throw]; [|reflexivity].
  split; [apply keeps_trace_mints | reflexivity].
Qed.

Lemma obeys_getWallet (s : S) (mintUrl : string) :
  δ s (MintGetInfo mintUrl) = Some s →
  obeys δ (stays s) s (CashuMint.getWallet mintUrl).
Proof.
  intros Hδ. unfold CashuMint.getWallet. unmonad.
  cbn [gets bind obeys]. intros st.
  destruct (negb _); [|reflexivity].
  apply obeys_try_catch, obeys_bind.
  eapply obeys_mono; [|apply obeys_getMint, Hδ].
  intros [[]|e] s' ->; cbn [modify obeys throw]; [|reflexivity].
  split; [apply keeps_trace_wallets | reflexivity].
Qed.

(** The same where the probe moves the automaton on: it is sent at most
    once. *)
Lemma obeys_getMint_once (s s' : S) (mintUrl : string) :
  δ s (MintGetInfo mintUrl) = Some s' →
  obeys δ (λ _ t, t = s ∨ t = s') s (CashuMint.getMint mintUrl).
Proof.
  intros Hδ. unfold CashuMint.getMint. unmonad.
  cbn [gets bind obeys]. intros st.
  destruct (negb _); [|left; reflexivity].
  apply obeys_try_catch, obeys_bind.
  apply obeys_net with (s' := s'); [exact Hδ|].
  intros [[]|e]; cbn [modify obeys throw]; [|right; reflexivity].
  split; [apply keeps_trace_mints | right; reflexivity].
Qed.

Lemma obeys_getWallet_once (s s' : S) (mintUrl : string) :
  δ s (MintGetInfo mintUrl) = Some s' →
  obeys δ (λ _ t, t = s ∨ t = s') s (CashuMint.getWallet mintUrl).
Proof.
  intros Hδ. unfold CashuMint.getWallet. unmonad.
  cbn [gets bind obeys]. intros st.
  destruct (negb _); [|left; reflexivity].
  apply obeys_try_catch, obeys_bind.
  eapply obeys_mono; [|apply obeys_getMint_once, Hδ].
  intros [[]|e] t Ht; cbn [modify obeys throw]; [|exact Ht].
  split; [apply keeps_trace_wallets | exact Ht].
Qed.

Lemma obeys_checkTokenSpendable (s : S) (token : string) :
  (∀ parsed, CashuMint.parseToken E token = Return parsed →
     δ s (MintGetInfo (td_mint parsed)) = Some s
     ∧ δ s (MintCheck (td_mint parsed) (map secret (td_proofs parsed))) = Some s) →
  obeys δ (stays s) s (CashuMint.checkTokenSpendable E token).
Proof.
  intros Hδ. unfold CashuMint.checkTokenSpendable. unmonad.
  apply obeys_try_catch.
  apply obeys_bind_lift; [intros parsed Hparse|].
  - destruct (Hδ parsed Hparse) as [Hinfo Hcheck].
    apply obeys_bind.
    eapply obeys_mono; [|apply obeys_getMint, Hinfo].
    intros [[]|e] s' ->.
    + apply obeys_bind. apply obeys_net with (s' := s); [exact Hcheck|].
      intros [checkResult|e]; [|destruct (existsb _ _); reflexivity].
      destruct (LightningService.is_nullish checkResult); cbn [throw obeys mret Run_ret];
        [destruct (existsb _ _); reflexivity | reflexivity].
    + destruct (existsb _ _); reflexivity.
  - intros e _. destruct (existsb _ _); reflexivity.
Qed.

Lemma obeys_spendabilityStep (s : S) (token : string) :
  (∀ parsed, CashuMint.parseToken E token = Return parsed →
     δ s (MintGetInfo (td_mint parsed)) = Some s
     ∧ δ s (MintCheck (td_mint parsed) (map secret (td_proofs parsed))) = Some s) →
  obeys δ (stays s) s (RedemptionService.spendabilityStep E token).
Proof.
  intros Hδ. unfold RedemptionService.spendabilityStep. unmonad.
  apply obeys_try_catch, obeys_bind.
  eapply obeys_mono; [|apply obeys_checkTokenSpendable, Hδ].
  intros [check|e] s' ->.
  - destruct (_ || _); cbn [throw obeys]; [|reflexivity].
    destruct (_ || _); reflexivity.
  - destruct (_ || _); reflexivity.
Qed.

Lemma obeys_fetchLNURLpResponse (s : S) (lnurlpUrl : string) :
  δ s (HttpGet lnurlpUrl []) = Some s →
  obeys δ (stays s) s (LightningService.fetchLNURLpResponse lnurlpUrl).
Proof.
  intros Hδ. unfold LightningService.fetchLNURLpResponse. unmonad.
  apply obeys_try_catch, obeys_bind.
  apply obeys_net with (s' := s); [exact Hδ|].
  intros [response|e]; [|destruct (_ || _); reflexivity].
  repeat (lazymatch goal with
          | |- obeys _ _ _ (if ?b then _ else _) => destruct b
          | |- obeys _ _ _ (let _ := _ in _) => cbv zeta
          end; cbn [throw obeys mret Run_ret]);
    try reflexivity; destruct (_ || _); reflexivity.
Qed.

Lemma obeys_getInvoice (s s' : S) (callbackUrl : JsVal) (amount : Z)
    (comment : string) :
  (∀ url, δ s (HttpGet url (LightningService.invoiceQuery amount comment))
          = Some s') →
  obeys δ (reaches s') s (LightningService.getInvoice E callbackUrl amount comment).
Proof.
  intros Hδ. unfold LightningService.getInvoice. unmonad.
  apply obeys_try_catch. cbv zeta.
  destruct (negb (validURL E _)); [exact I|].
  apply obeys_bind. apply obeys_net with (s' := s'); [apply Hδ|].
  intros [response|e]; [|exact I].
  repeat (lazymatch goal with
          | |- obeys _ _ _ (if ?b then _ else _) => destruct b
          | |- obeys _ _ _ (let _ := _ in _) => cbv zeta
          end; cbn [throw obeys mret Run_ret]);
    first [exact I | reflexivity].
Qed.

Lemma obeys_resolveInvoice (s s' : S) (lightningAddress : string) (amount : Z)
    (comment : string) :
  (∀ url, δ s (HttpGet url []) = Some s) →
  (∀ url, δ s (HttpGet url (LightningService.invoiceQuery
                              (LightningService.satsToMillisats amount) comment))
          = Some s') →
  obeys δ (reaches s') s
    (LightningService.resolveInvoice E cfg lightningAddress amount comment).
Proof.
  intros Hδ1 Hδ2. unfold LightningService.resolveInvoice. unmonad.
  apply obeys_try_catch.
  apply obeys_bind_lift; [intros lnurlpUrl _ | intros; exact I].
  apply obeys_bind.
  eapply obeys_mono; [|apply obeys_fetchLNURLpResponse, Hδ1].
  intros [lnurlpResponse|e] s1 ->; [|exact I].
  destruct (negb _); [exact I|]. cbv zeta.
  apply obeys_bind.
  eapply obeys_mono; [|apply obeys_getInvoice, Hδ2].
  intros [[pr action]|e] s1; cbn [reaches]; [intros ->|intros; exact I].
  apply obeys_bind_lift; [intros [username domain] _; reflexivity | intros; exact I].
Qed.

End ServiceCalls.

(** ** The calls of an attempt *)

(** How far an attempt has come: it probes the mint and the provider, has
    asked for the invoice, has probed the mint once more, has asked for the
    quote, has sent the melt. *)
Inductive Phase := Probing | Invoiced | Probed | Quoted | Melted.

(** The calls an attempt on a token may send in each phase, for the mint,
    the secrets and the value of that token. The melt is let through as
    [meltToken] decides it: by the sum of the quote's amount and fee
    reserve, added as doubles. *)
Definition protocol (mint : string) (secrets : list string) (value : Z)
    (phase : Phase) (c : NetCall) : option Phase :=
  match phase, c with
  | Probing, MintGetInfo url => if String.eqb url mint then Some Probing else None
  | Probing, MintCheck url asked =>
      if String.eqb url mint && bool_decide (asked = secrets)
      then Some Probing else None
  | Probing, HttpGet _ [] => Some Probing
  | Probing, HttpGet _ (_ :: _) => Some Invoiced
  | Invoiced, MintGetInfo url => if String.eqb url mint then Some Probed else None
  | Invoiced, MintMeltQuote url _ => if String.eqb url mint then Some Quoted else None
  | Probed, MintMeltQuote url _ => if String.eqb url mint then Some Quoted else None
  | Quoted, MintMelt url q _ =>
      if String.eqb url mint
         && (Number.plus (quote_amount q) (fee_reserve q) <=? value)
      then Some Melted else None
  | _, _ => None
  end.

Definition is_melt (c : NetCall) : bool :=
  match c with MintMelt _ _ _ => true | _ => false end.

(** What the protocol lets a single call be. *)
Definition own_mint (mint : string) (secrets : list string) (value : Z)
    (c : NetCall) : Prop :=
  match c with
  | MintGetInfo url => url = mint
  | MintCheck url asked => url = mint ∧ asked = secrets
  | MintMeltQuote url _ => url = mint
  | MintMelt url q _ =>
      url = mint ∧ Number.plus (quote_amount q) (fee_reserve q) ≤ value
  | HttpGet _ _ => True
  end.

Section Protocol.
Context (mint : string) (secrets : list string) (value : Z).

Let δ := protocol mint secrets value.

Definition melts_left (phase : Phase) : nat :=
  match phase with Melted => 0 | _ => 1 end.

Lemma protocol_melts (calls : list NetCall) (phase phase' : Phase) :
  run_calls δ phase calls = Some phase' →
  (length (filter is_melt calls) + melts_left phase' ≤ melts_left phase)%nat.
Proof.
  revert phase. induction calls as [|c calls IH]; intros phase; cbn [run_calls].
  - intros [= <-]. cbn. lia.
  - destruct (δ phase c) as [phase1|] eqn:Hδ; [|discriminate].
    intros Hrun. specialize (IH _ Hrun).
    unfold δ, protocol in Hδ.
    destruct phase, c as [url|url asked|url b|url q ps|url [|]];
      try discriminate; cbn [filter is_melt];
      repeat (match type of Hδ with
              | context [if ?b then _ else _] => destruct b
              end; try discriminate);
      injection Hδ as <-; cbn [melts_left length] in *;
      rewrite ?filter_cons; cbn [is_melt]; simpl; simpl in IH; lia.
Qed.

Lemma protocol_own_mint (calls : list NetCall) (phase phase' : Phase) :
  run_calls δ phase calls = Some phase' →
  Forall (own_mint mint secrets value) calls.
Proof.
  revert phase. induction calls as [|c calls IH]; intros phase; cbn [run_calls].
  - constructor.
  - destruct (δ phase c) as [phase1|] eqn:Hδ; [|discriminate].
    intros Hrun. constructor; [|exact (IH _ Hrun)].
    unfold δ, protocol in Hδ.
    destruct phase, c as [url|url asked|url b|url q ps|url [|]];
      try discriminate; cbn [own_mint]; try exact I;
      repeat match type of Hδ with
             | context [String.eqb ?a ?b] =>
                 destruct (String.eqb_spec a b); cbn [andb] in Hδ
             | context [bool_decide ?p] =>
                 destruct (bool_decide_reflect p); cbn [andb] in Hδ
             | context [?a <=? ?b] =>
                 destruct (Z.leb_spec a b); cbn [andb] in Hδ
             end; try discriminate; auto.
Qed.

Lemma protocol_melted (calls : list NetCall) (phase : Phase) :
  run_calls δ phase calls = Some Melted → phase ≠ Melted →
  (1 ≤ length (filter is_melt calls))%nat.
Proof.
  revert phase. induction calls as [|c calls IH]; intros phase; cbn [run_calls].
  - intros [= ->] Hne. congruence.
  - destruct (δ phase c) as [phase1|] eqn:Hδ; [|discriminate].
    intros Hrun Hne. rewrite filter_cons.
    destruct phase1;
      try (specialize (IH _ Hrun ltac:(discriminate));
           destruct (decide _); cbn [length]; lia).
    unfold δ, protocol in Hδ.
    destruct phase, c as [url|url asked|url b|url q ps|url [|]];
      try discriminate;
      repeat (match type of Hδ with
              | context [if ?b then _ else _] => destruct b
              end; try discriminate).
    rewrite decide_True by exact I. cbn [length]. lia.
Qed.

End Protocol.

Section AttemptCalls.
Context (E : Env) (cfg : LightningService.Config).
Context (token : string) (parsed : TokenData).
Context (Hparse : CashuMint.parseToken E token = Return parsed).

Let δ := protocol (td_mint parsed) (map secret (td_proofs parsed))
           (totalAmount parsed).

Lemma obeys_meltToken (bolt11 : string) :
  obeys δ (reaches Melted) Invoiced (CashuMint.meltToken E token bolt11).
Proof.
  unfold CashuMint.meltToken. unmonad.
  apply obeys_try_catch.
  assert (∀ error : JsError,
            obeys δ (reaches (A := MeltResult) Melted) Invoiced
              (if str_includes "Insufficient funds" (message error)
                  || str_includes "Payment failed" (message error)
                  || str_includes "Quote not found" (message error)
               then throw error
               else throw (Error ("Melt operation failed: " +:+ message error))))
    as Hhandler.
  { intros error. destruct (_ || _); exact I. }
  assert (∀ (s : Phase) (error : JsError),
            obeys δ (reaches (A := MeltResult) Melted) s
              (if str_includes "Insufficient funds" (message error)
                  || str_includes "Payment failed" (message error)
                  || str_includes "Quote not found" (message error)
               then throw error
               else throw (Error ("Melt operation failed: " +:+ message error))))
    as Hh.
  { intros s error. destruct (_ || _); exact I. }
  apply obeys_bind_lift; [intros parsed' Hparse' | intros; apply Hh].
  rewrite Hparse in Hparse'. injection Hparse' as <-.
  apply obeys_bind.
  eapply obeys_mono; [|apply obeys_getWallet_once with (s' := Probed)].
  2:{ unfold δ, protocol. rewrite String.eqb_refl. reflexivity. }
  intros [[]|e] s Hs; [|apply Hh].
  apply obeys_bind_lift; [intros [proofs mint'] _ | intros; apply Hh].
  apply obeys_bind. apply obeys_net with (s' := Quoted).
  { unfold δ, protocol. destruct Hs as [-> | ->]; rewrite String.eqb_refl; reflexivity. }
  intros [meltQuote|e]; [|apply Hh]. cbv zeta.
  destruct (totalAmount parsed <? _) eqn:Hcover; [apply Hh|].
  apply Z.ltb_ge in Hcover.
  apply obeys_bind. apply obeys_net with (s' := Melted).
  { unfold δ, protocol. rewrite String.eqb_refl.
    apply Z.leb_le in Hcover. rewrite Hcover. reflexivity. }
  intros [meltResponse|e]; [|apply Hh].
  destruct (LightningService.is_nullish meltResponse); [apply Hh | reflexivity].
Qed.

Definition melted_if_redeemed (o : Outcome RedemptionResult) (phase : Phase)
  : Prop :=
  match o with
  | Return (Redeemed _ _ _ _ _ _ _ _ _ _ _ _ _) => phase = Melted
  | _ => True
  end.

Lemma obeys_updateRedemption {A} (Q : Outcome A → Phase → Prop) (s : Phase)
    (redeemId : string) (updates : gmap string JsVal) (k : unit → Run A) :
  obeys δ Q s (k tt) →
  obeys δ Q s (bind (RedemptionService.updateRedemption redeemId updates) k).
Proof.
  intros Hk. cbn [RedemptionService.updateRedemption modify bind obeys].
  split; [apply keeps_trace_merged | exact Hk].
Qed.

Lemma obeys_redemptionSteps (redeemId destination : string) (isUsingDefault : bool) :
  obeys δ melted_if_redeemed Probing
    (RedemptionService.redemptionSteps E cfg redeemId token destination
       isUsingDefault).
Proof.
  unfold RedemptionService.redemptionSteps. unmonad.
  apply obeys_updateRedemption.
  apply obeys_bind_lift; [intros parsed' Hparse' | intros; exact I].
  rewrite Hparse in Hparse'. injection Hparse' as <-. cbv zeta.
  destruct (_ <=? 0); [exact I|].
  do 2 apply obeys_updateRedemption.
  apply obeys_bind.
  eapply obeys_mono; [|apply obeys_spendabilityStep].
  2:{ intros parsed' Hparse'. rewrite Hparse in Hparse'. injection Hparse' as <-.
      unfold δ, protocol. rewrite String.eqb_refl, bool_decide_eq_true_2 by reflexivity.
      split; reflexivity. }
  intros [[]|e] s ->; [|exact I].
  apply obeys_updateRedemption.
  apply obeys_bind.
  eapply obeys_mono; [|apply obeys_resolveInvoice with (s' := Invoiced)];
    [|reflexivity|reflexivity].
  intros [invoiceData|e] s; cbn [reaches]; [intros ->|intros; exact I].
  destruct (LightningService.bolt11 invoiceData) as [| |b|n|bolt11|l|fs|x];
    try exact I.
  do 2 apply obeys_updateRedemption.
  apply obeys_bind.
  eapply obeys_mono; [|apply obeys_meltToken].
  intros [meltResult|e] s'; cbn [reaches]; [intros ->|intros; exact I].
  cbn [gets bind obeys]. intros st.
  split; [apply keeps_trace_merged | reflexivity].
Qed.

Lemma obeys_performRedemption (lightningAddress : option string) :
  obeys δ melted_if_redeemed Probing
    (RedemptionService.performRedemption E cfg token lightningAddress).
Proof.
  unfold RedemptionService.performRedemption. unmonad.
  cbn [gets modify bind obeys]. intros st. split; [apply keeps_trace_draw|].
  assert (∀ (s : Phase) (e : JsError),
            obeys δ melted_if_redeemed s
              (RedemptionService.recordFailure (uuidv4 E (drawn st)) e)) as Hfail.
  { intros s e. unfold RedemptionService.recordFailure. unmonad.
    apply obeys_updateRedemption. exact I. }
  apply obeys_try_catch.
  apply obeys_bind_lift; [intros destination _ | intros; apply Hfail].
  cbn [RedemptionService.storeRedemption modify bind obeys].
  split; [apply keeps_trace_stored|].
  split; [apply keeps_trace_tokenHashes|].
  eapply obeys_mono; [|apply obeys_redemptionSteps].
  intros [result|e] s H; [exact H | apply Hfail].
Qed.

End AttemptCalls.

(** X8. The calls of one attempt come in a fixed order: probes of the mint
    and of the provider, then the request for the invoice, then at most one
    more probe of the mint, the request for a quote, and the melt, which is
    sent only when the sum of the quote's amount and fee reserve, added as
    doubles, is at most the token's value. So an attempt melts at most
    once, never before it has asked for an invoice and a quote, and sends
    nothing after the melt; an attempt that reports a redemption has sent
    the melt. *)
Theorem attempt_call_order
    (P : Peers) (E : Env) (cfg : LightningService.Config) (token : string)
    (lightningAddress : option string) (parsed : TokenData) (st : State) :
  CashuMint.parseToken E token = Return parsed →
  let run := exec P (RedemptionService.performRedemption E cfg token
                       lightningAddress) st in
  ∃ calls phase,
    trace run.2 = (trace st ++ calls)%list
    ∧ run_calls (protocol (td_mint parsed) (map secret (td_proofs parsed))
                   (totalAmount parsed)) Probing calls = Some phase
    ∧ (length (filter is_melt calls) ≤ 1)%nat
    ∧ (∀ redeemId paid amount invoiceAmount to usingDefault fee actualFee
         netAmount preimage change mint format,
         run.1 = Return (Redeemed redeemId paid amount invoiceAmount to
                           usingDefault fee actualFee netAmount preimage change
                           mint format) →
         phase = Melted ∧ length (filter is_melt calls) = 1%nat).
Proof.
  intros Hparse run.
  destruct (exec_obeys _ P _ Probing _ st
              (obeys_performRedemption E cfg token parsed Hparse lightningAddress))
    as (calls & phase & Htrace & Hrun & Hend).
  exists calls, phase. pose proof (protocol_melts _ _ _ _ _ _ Hrun) as Hmelts.
  cbn [melts_left] in Hmelts.
  split; [exact Htrace|]. split; [exact Hrun|]. split; [lia|].
  intros * Hresult. fold run in Hend. rewrite Hresult in Hend.
  cbn [melted_if_redeemed] in Hend. subst phase. split; [reflexivity|].
  pose proof (protocol_melted _ _ _ _ _ Hrun ltac:(discriminate)). lia.
Qed.

(** X9. Every call an attempt makes to a mint goes to the mint the token
    names: the probe, the spendability check, which asks about the token's
    own secrets, the quote request and the melt. A melt is sent only with a
    quote whose amount and fee reserve, added as doubles, the token's value
    covers; where their sum is below 2^53 that is the sum itself, past it
    the sum may be rounded down: a token of 2^53 sats covers a quote of
    8827055269646172 and 180143985094821, which add up to 2^53 + 1. *)
Theorem attempt_own_mint
    (P : Peers) (E : Env) (cfg : LightningService.Config) (token : string)
    (lightningAddress : option string) (parsed : TokenData) (st : State) :
  CashuMint.parseToken E token = Return parsed →
  let run := exec P (RedemptionService.performRedemption E cfg token
                       lightningAddress) st in
  ∃ calls,
    trace run.2 = (trace st ++ calls)%list
    ∧ ∀ c, c ∈ calls →
        match c with
        | MintGetInfo url => url = td_mint parsed
        | MintCheck url asked =>
            url = td_mint parsed ∧ asked = map secret (td_proofs parsed)
        | MintMeltQuote url _ => url = td_mint parsed
        | MintMelt url q _ =>
            url = td_mint parsed
            ∧ Number.plus (quote_amount q) (fee_reserve q) ≤ totalAmount parsed
            ∧ (Z.abs (quote_amount q + fee_reserve q) < 2 ^ 53 →
               quote_amount q + fee_reserve q ≤ totalAmount parsed)
        | HttpGet _ _ => True
        end.
Proof.
  intros Hparse run.
  destruct (exec_obeys _ P _ Probing _ st
              (obeys_performRedemption E cfg token parsed Hparse lightningAddress))
    as (calls & phase & Htrace & Hrun & _).
  exists calls. split; [exact Htrace|].
  pose proof (protocol_own_mint _ _ _ _ _ _ Hrun) as Hown.
  rewrite Forall_forall in Hown. intros c Hc. specialize (Hown c Hc).
  destruct c; try exact Hown.
  destruct Hown as [Hurl Hsum]. split; [exact Hurl|]. split; [exact Hsum|].
  intros Hsafe. rewrite plus_exact in Hsum by exact Hsafe. exact Hsum.
Qed.

(** The sum of a quote past 2^53, as the guard of [meltToken] sees it. *)
Example melt_guard_rounds :
  8827055269646172 + 180143985094821 = 2 ^ 53 + 1
  ∧ Number.plus 8827055269646172 180143985094821 = 2 ^ 53.
Proof. vm_compute. split; reflexivity. Qed.

(** ** What an attempt writes *)

(** A write that changes no record but the one under [redeemId], keeps
    the write-once fields of that one, and leaves the index, the id counter
    and the clock alone. *)
Definition own_record (redeemId : string) (f : State → State) : Prop :=
  keeps_once redeemId f
  ∧ ∀ st, (∀ id, id ≠ redeemId → redemptions (f st) !! id = redemptions st !! id)
          ∧ tokenHashes (f st) = tokenHashes st
          ∧ drawn (f st) = drawn st
          ∧ now (f st) = now st.

Lemma own_record_merged (redeemId : string) (updates : gmap string JsVal) :
  spares updates → own_record redeemId (RedemptionService.merged redeemId updates).
Proof.
  intros Hsp. split; [apply keeps_once_merged, Hsp|].
  intros st. unfold RedemptionService.merged.
  destruct (redemptions st !! redeemId); [|auto].
  cbn [set_redemptions redemptions tokenHashes drawn now].
  split; [|auto]. intros id Hid. apply lookup_insert_ne. congruence.
Qed.

Lemma own_record_other (redeemId : string) (f : State → State) :
  (∀ st, redemptions (f st) = redemptions st ∧ tokenHashes (f st) = tokenHashes st
         ∧ drawn (f st) = drawn st ∧ now (f st) = now st) →
  own_record redeemId f.
Proof.
  intros Hf. split; [apply keeps_once_refl; intros st; apply Hf|].
  intros st. destruct (Hf st) as (-> & -> & -> & ->). auto.
Qed.

Ltac spared :=
  first [ apply spares_singleton; reflexivity | apply spares_literal; reflexivity ].

Section OwnWrites.
Context (E : Env) (cfg : LightningService.Config).
Context (G : (State → State) → Prop).
Context (Gmints : ∀ f, G (set_mints f)) (Gwallets : ∀ f, G (set_wallets f)).

(** The steps of an attempt write through [updateRedemption] under the
    attempt's own id, and to the two caches. *)
Lemma sat_redemptionSteps_own (redeemId token destination : string)
    (isUsingDefault : bool) :
  (∀ updates, spares updates → G (RedemptionService.merged redeemId updates)) →
  sat G any any
    (RedemptionService.redemptionSteps E cfg redeemId token destination
       isUsingDefault).
Proof.
  intros Gupdate.
  assert (∀ updates, spares updates →
            sat G any any (RedemptionService.updateRedemption redeemId updates))
    as Hupdate by (intros updates H; apply sat_modify, Gupdate, H).
  unfold RedemptionService.redemptionSteps. unmonad.
  apply sat_bind; [apply Hupdate; spared | intros _ | intros; exact I].
  apply sat_bind_lift; [intros tokenData Hparse | intros; exact I].
  destruct (_ <=? 0); [exact I|].
  repeat first
    [ apply Hupdate; spared
    | apply sat_spendabilityStep; [auto | intros; exact I]
    | apply sat_resolveInvoice; intros; exact I
    | apply sat_meltToken; [auto | auto | intros; exact I]
    | sat_step ].
Qed.

Lemma sat_attempt_own (token : string) (lightningAddress : option string)
    (destination : string) (st : State) :
  (∀ updates, spares updates →
     G (RedemptionService.merged (uuidv4 E (drawn st)) updates)) →
  sat G any (λ o, ∃ result, o = Return result)
    (attempt E cfg token lightningAddress destination st).
Proof.
  intros Gupdate. unfold attempt.
  apply sat_try_catch; [apply sat_redemptionSteps_own, Gupdate | eauto |].
  intros e. unfold RedemptionService.recordFailure,
    RedemptionService.updateRedemption. unmonad.
  cbn [modify bind sat]. split; [|eauto].
  apply Gupdate. apply spares_literal. reflexivity.
Qed.

End OwnWrites.

Lemma attempt_frame (P : Peers) (E : Env) (cfg : LightningService.Config)
    (token : string) (lightningAddress : option string) (destination : string)
    (st : State) :
  LightningService.getLightningAddressToUse cfg lightningAddress
    = Return destination →
  let run := exec P (RedemptionService.performRedemption E cfg token
                       lightningAddress) st in
  let redeemId := uuidv4 E (drawn st) in
  let tokenHash := RedemptionService.generateTokenHash E token in
  (∃ result, run.1 = Return result)
  ∧ (∀ id, id ≠ redeemId → redemptions run.2 !! id = redemptions st !! id)
  ∧ tokenHashes run.2 = <[tokenHash := redeemId]> (tokenHashes st)
  ∧ drawn run.2 = S (drawn st)
  ∧ now run.2 = now st
  ∧ ∃ record,
      redemptions run.2 !! redeemId = Some record
      ∧ record !! "tokenHash" = Some (JStr tokenHash)
      ∧ record !! "lightningAddress" = Some (JStr destination)
      ∧ record !! "createdAt" = Some (JNum (now st)).
Proof.
  intros Haddress run redeemId tokenHash. subst run.
  rewrite (exec_performRedemption E cfg P _ _ _ st Haddress).
  set (I := λ s : State,
         (∀ id, id ≠ redeemId → redemptions s !! id = redemptions st !! id)
         ∧ tokenHashes s = <[tokenHash := redeemId]> (tokenHashes st)
         ∧ drawn s = S (drawn st)
         ∧ now s = now st
         ∧ ∃ record,
             redemptions s !! redeemId = Some record
             ∧ record !! "tokenHash" = Some (JStr tokenHash)
             ∧ record !! "lightningAddress" = Some (JStr destination)
             ∧ record !! "createdAt" = Some (JNum (now st))).
  assert (∀ f s, own_record redeemId f → I s → I (f s)) as Hwrite.
  { intros f s [Honce Hf] (Hframe & Hindex & Hdrawn & Hnow & record & Hr & H1 & H2 & H3).
    destruct (Hf s) as (Hf1 & Hf2 & Hf3 & Hf4).
    split; [intros id Hid; rewrite Hf1 by exact Hid; auto|].
    split; [congruence|]. split; [congruence|]. split; [congruence|].
    destruct (Honce s record Hr) as (record' & Hr' & Hkeep).
    rewrite Forall_forall in Hkeep. exists record'. split; [exact Hr'|].
    rewrite (Hkeep "tokenHash"), (Hkeep "lightningAddress"), (Hkeep "createdAt");
      [auto | | | ]; apply list_elem_of_In; simpl; auto 10. }
  assert (I (started E token lightningAddress destination st)) as Hstart.
  { destruct (started_lookup E token lightningAddress destination st) as [Hr _].
    split.
    { intros id Hid. unfold started, RedemptionService.stored.
      cbn [set_tokenHashes set_redemptions redemptions draw].
      apply lookup_insert_ne. intros Heq. apply Hid. symmetry. exact Heq. }
    split; [reflexivity|]. split; [reflexivity|]. split; [reflexivity|].
    eexists. split; [exact Hr|].
    split; [|split].
    - rewrite !lookup_insert_ne by discriminate. reflexivity.
    - rewrite !lookup_insert_ne by discriminate. reflexivity.
    - rewrite lookup_insert_ne by discriminate. apply lookup_insert_eq. }
  assert (sat (own_record redeemId) any (λ o, ∃ result, o = Return result)
            (attempt E cfg token lightningAddress destination st)) as Hsat.
  { apply sat_attempt_own.
    - intros f. apply own_record_other. intros s. auto.
    - intros f. apply own_record_other. intros s. auto.
    - intros updates. apply own_record_merged. }
  destruct (exec_sat _ _ P _ I _ _ Hwrite (λ c s H, H) Hsat Hstart) as [HQ HI].
  split; [exact HQ | exact HI].
Qed.

(** X10. An attempt that has an address to pay to never throws, draws one
    id, and writes the ledger in one place only: the record under that id,
    which keeps the token hash, the address and the creation time it was
    stored with, and the index entry of the token, which points to it.
    Every other record and the clock are as before. *)
Theorem attempt_writes_own_record
    (P : Peers) (E : Env) (cfg : LightningService.Config)
    (token : string) (lightningAddress : option string) (destination : string)
    (st : State) :
  LightningService.getLightningAddressToUse cfg lightningAddress
    = Return destination →
  let run := exec P (RedemptionService.performRedemption E cfg token
                       lightningAddress) st in
  let redeemId := uuidv4 E (drawn st) in
  let tokenHash := RedemptionService.generateTokenHash E token in
  (∃ result, run.1 = Return result)
  ∧ (∀ id, id ≠ redeemId → redemptions run.2 !! id = redemptions st !! id)
  ∧ tokenHashes run.2 = <[tokenHash := redeemId]> (tokenHashes st)
  ∧ drawn run.2 = S (drawn st)
  ∧ now run.2 = now st
  ∧ ∃ record,
      redemptions run.2 !! redeemId = Some record
      ∧ record !! "tokenHash" = Some (JStr tokenHash)
      ∧ record !! "lightningAddress" = Some (JStr destination)
      ∧ record !! "createdAt" = Some (JNum (now st)).
Proof. apply attempt_frame. Qed.

(** ** How an attempt ends: its last write and its result

    [settles R G L m]: every path of [m] ends with a write [f] directly
    followed by the return of a result [a] with [L f a], all writes before
    it being in [G]; [R] tells whether [m] may also end by a throw. *)


Section Settles.
Context {A : Type} (G : (State → State) → Prop) (L : (State → State) → A → Prop).




End Settles.




Section AttemptEnds.
Context (E : Env) (cfg : LightningService.Config).



End AttemptEnds.

(** ** From [/api/redeem] to [/api/status] *)





(** ** The ledger and its index stay in step *)

(** Every index entry points to a record that carries its hash, and every
    record that carries a hash is the one the index has for that hash. *)
Definition in_step (st : State) : Prop :=
  (∀ tokenHash redeemId,
     tokenHashes st !! tokenHash = Some redeemId →
     redeemId ≠ "" ∧ tokenHash ≠ ""
     ∧ ∃ record, redemptions st !! redeemId = Some record
                 ∧ record !! "tokenHash" = Some (JStr tokenHash))
  ∧ (∀ redeemId record tokenHash,
       redemptions st !! redeemId = Some record →
       record !! "tokenHash" = Some (JStr tokenHash) →
       tokenHashes st !! tokenHash = Some redeemId).

(** A write that leaves the index alone, and of every record its presence
    and the hash it carries. *)
Definition keeps_hashes (f : State → State) : Prop :=
  ∀ st, tokenHashes (f st) = tokenHashes st
        ∧ ∀ redeemId,
            (redemptions (f st) !! redeemId) ≫= (λ record, Some (record !! "tokenHash"))
            = (redemptions st !! redeemId) ≫= (λ record, Some (record !! "tokenHash")).

Lemma keeps_hashes_in_step (f : State → State) (st : State) :
  keeps_hashes f → in_step st → in_step (f st).
Proof.
  intros Hf [H1 H2]. destruct (Hf st) as [Hindex Hrecords]. split.
  - intros tokenHash redeemId Hentry. rewrite Hindex in Hentry.
    destruct (H1 _ _ Hentry) as (Hid & Hh & record & Hr & Hfield).
    split; [exact Hid|]. split; [exact Hh|].
    specialize (Hrecords redeemId). rewrite Hr in Hrecords. cbn in Hrecords.
    destruct (redemptions (f st) !! redeemId) as [record'|]; [|discriminate].
    cbn in Hrecords. exists record'. split; [reflexivity|]. congruence.
  - intros redeemId record tokenHash Hr Hfield. rewrite Hindex.
    specialize (Hrecords redeemId). rewrite Hr in Hrecords. cbn in Hrecords.
    destruct (redemptions st !! redeemId) as [record'|] eqn:Hr'; [|discriminate].
    cbn in Hrecords. apply (H2 redeemId record' tokenHash); [exact Hr'|].
    congruence.
Qed.

Lemma keeps_hashes_merged (redeemId : string) (updates : gmap string JsVal) :
  spares updates → keeps_hashes (RedemptionService.merged redeemId updates).
Proof.
  intros Hsp st. unfold RedemptionService.merged.
  destruct (redemptions st !! redeemId) as [existing|] eqn:Hex; [|auto].
  cbn [set_redemptions redemptions tokenHashes]. split; [reflexivity|].
  intros id. destruct (decide (id = redeemId)) as [->|Hne].
  - rewrite lookup_insert_eq, Hex. cbn. f_equal.
    rewrite lookup_insert_ne by discriminate.
    apply lookup_union_r. unfold spares in Hsp. rewrite Forall_forall in Hsp.
    apply Hsp. apply list_elem_of_In; simpl; auto 10.
  - rewrite lookup_insert_ne by congruence. reflexivity.
Qed.

Lemma keeps_hashes_other (f : State → State) :
  (∀ st, redemptions (f st) = redemptions st ∧ tokenHashes (f st) = tokenHashes st) →
  keeps_hashes f.
Proof. intros Hf st. destruct (Hf st) as [-> ->]. auto. Qed.

Section InStep.
Context (E : Env) (cfg : LightningService.Config).

Lemma in_step_started (token : string) (lightningAddress : option string)
    (destination : string) (st : State) :
  in_step st →
  uuidv4 E (drawn st) ≠ "" →
  redemptions st !! uuidv4 E (drawn st) = None →
  RedemptionService.generateTokenHash E token ≠ "" →
  tokenHashes st !! RedemptionService.generateTokenHash E token = None →
  in_step (started E token lightningAddress destination st).
Proof.
  intros [H1 H2] Hid Hfresh Hhash Hfree.
  destruct (started_lookup E token lightningAddress destination st) as [Hr _].
  set (redeemId := uuidv4 E (drawn st)) in *.
  set (tokenHash := RedemptionService.generateTokenHash E token) in *.
  assert (∀ id, id ≠ redeemId →
            redemptions (started E token lightningAddress destination st) !! id
            = redemptions st !! id) as Hothers.
  { intros id Hne. unfold started, RedemptionService.stored.
    cbn [set_tokenHashes set_redemptions redemptions draw].
    apply lookup_insert_ne. intros Heq. apply Hne. symmetry. exact Heq. }
  assert (tokenHashes (started E token lightningAddress destination st)
          = <[tokenHash := redeemId]> (tokenHashes st)) as Hindex by reflexivity.
  split.
  - intros h id. rewrite Hindex. intros [[<- <-]|[Hne Hentry]]%lookup_insert_Some.
    + split; [exact Hid|]. split; [exact Hhash|]. eexists. split; [exact Hr|].
      rewrite !lookup_insert_ne by discriminate. reflexivity.
    + destruct (H1 _ _ Hentry) as (Hid' & Hh & record & Hr' & Hfield).
      split; [exact Hid'|]. split; [exact Hh|]. exists record.
      split; [|exact Hfield]. rewrite Hothers; [exact Hr'|].
      intros ->. congruence.
  - intros id record h Hrecord Hfield. rewrite Hindex.
    destruct (decide (id = redeemId)) as [->|Hne].
    + rewrite Hr in Hrecord. injection Hrecord as <-.
      rewrite !lookup_insert_ne in Hfield by discriminate.
      injection Hfield as <-. apply lookup_insert_eq.
    + rewrite Hothers in Hrecord by exact Hne.
      pose proof (H2 _ _ _ Hrecord Hfield) as Hentry.
      rewrite lookup_insert_ne; [exact Hentry|]. intros <-. congruence.
Qed.

Lemma in_step_redeem (P : Peers) (token lightningAddress : option string)
    (st : State) :
  in_step st →
  uuidv4 E (drawn st) ≠ "" →
  redemptions st !! uuidv4 E (drawn st) = None →
  (∀ t, token = Some t → RedemptionService.generateTokenHash E t ≠ "") →
  in_step (exec P (redeem E cfg token lightningAddress) st).2.
Proof.
  intros Hstep Hid Hfresh Hhash.
  destruct (validation_verdict P E cfg token lightningAddress st)
    as (validation & _ & Hexec & _ & Hvalid).
  unfold redeem. unmonad. rewrite exec_bind, exec_await, Hexec.
  destruct (valid validation); cbn [negb]; [|exact Hstep].
  destruct (Hvalid eq_refl) as (t & parsed & destination & -> & _ & _ & _ & _
                                & Hguard & _ & Haddress & _).
  rewrite exec_try_catch, exec_bind, exec_await.
  assert (in_step (exec P (RedemptionService.performRedemption E cfg t
                             lightningAddress) st).2) as Hafter.
  { rewrite (exec_performRedemption E cfg P _ _ _ st Haddress).
    refine (proj2 (exec_sat keeps_hashes any P any in_step
                     (attempt E cfg t lightningAddress destination st)
                     (started E t lightningAddress destination st) _ _ _ _)).
    - intros f s. apply keeps_hashes_in_step.
    - intros c s H. exact H.
    - eapply sat_mono; [|apply (sat_attempt_own E cfg keeps_hashes)].
      + intros o _. exact I.
      + intros f. apply keeps_hashes_other. intros s. auto.
      + intros f. apply keeps_hashes_other. intros s. auto.
      + intros updates. apply keeps_hashes_merged.
    - apply in_step_started; auto.
      unfold RedemptionService.checkExistingRedemption,
        RedemptionService.getRedemptionByTokenHash,
        RedemptionService.getRedemption in Hguard.
      destruct (tokenHashes st !! RedemptionService.generateTokenHash E t)
        as [id|] eqn:Hentry; [|reflexivity].
      destruct Hstep as [H1 _].
      destruct (H1 _ _ Hentry) as (Hne & _ & record & Hr & _).
      apply String.eqb_neq in Hne. rewrite Hne, Hr in Hguard. discriminate. }
  destruct (exec P (RedemptionService.performRedemption E cfg t lightningAddress) st)
    as [[result|e] st']; cbn [snd] in Hafter |- *.
  - destruct result; exact Hafter.
  - exact Hafter.
Qed.

Definition swept (P : Peers) (maxAgeMs : option Z) (st : State) : State :=
  (exec P (RedemptionService.cleanupOldRedemptions maxAgeMs) st).2.

Definition cutoff_at (maxAgeMs : option Z) (st : State) : Z :=
  now st - default RedemptionService.defaultMaxAgeMs maxAgeMs.

Lemma swept_record (P : Peers) (maxAgeMs : option Z) (st : State)
    (redeemId : string) :
  redemptions (swept P maxAgeMs st) !! redeemId
  = match redemptions st !! redeemId with
    | Some record =>
        if RedemptionService.createdBefore (cutoff_at maxAgeMs st) record
        then None else Some record
    | None => None
    end.
Proof.
  unfold swept, RedemptionService.cleanupOldRedemptions, cutoff_at.
  cbn [modify exec snd]. rewrite sweep_redemptions.
  set (cutoff := now st - default RedemptionService.defaultMaxAgeMs maxAgeMs).
  destruct (redemptions st !! redeemId) as [record|] eqn:Hr.
  - replace (existsb _ _) with (RedemptionService.createdBefore cutoff record);
      [reflexivity|].
    symmetry. apply eq_true_iff_eq. rewrite existsb_exists. split.
    + intros ([id' record'] & Hin & Hboth). cbn [fst snd] in Hboth.
      apply andb_true_iff in Hboth as [->%bool_decide_eq_true Hage].
      apply list_elem_of_In, elem_of_map_to_list in Hin. congruence.
    + intros Hage. exists (redeemId, record). split.
      * apply list_elem_of_In, elem_of_map_to_list, Hr.
      * cbn [fst snd]. rewrite Hage. rewrite bool_decide_eq_true_2; reflexivity.
  - destruct (existsb _ _); reflexivity.
Qed.

Lemma swept_index (P : Peers) (maxAgeMs : option Z) (st : State)
    (tokenHash redeemId : string) (record : gmap string JsVal) :
  in_step st →
  tokenHashes st !! tokenHash = Some redeemId →
  redemptions st !! redeemId = Some record →
  tokenHashes (swept P maxAgeMs st) !! tokenHash
  = if RedemptionService.createdBefore (cutoff_at maxAgeMs st) record
    then None else Some redeemId.
Proof.
  intros [H1 H2] Hentry Hr.
  unfold swept, RedemptionService.cleanupOldRedemptions, cutoff_at.
  cbn [modify exec snd]. rewrite sweep_tokenHashes, Hentry.
  set (cutoff := now st - default RedemptionService.defaultMaxAgeMs maxAgeMs).
  replace (existsb _ _) with (RedemptionService.createdBefore cutoff record);
    [reflexivity|].
  destruct (H1 _ _ Hentry) as (_ & Hh & record0 & Hr0 & Hfield).
  rewrite Hr in Hr0. injection Hr0 as <-.
  symmetry. apply eq_true_iff_eq. rewrite existsb_exists. split.
  - intros ([id' record'] & Hin & Hboth). cbn [fst snd] in Hboth.
    apply andb_true_iff in Hboth as [Hage Hmatch].
    apply list_elem_of_In, elem_of_map_to_list in Hin.
    destruct (record' !! "tokenHash") as [[| | | |h'| | |]|] eqn:Hfield';
      try discriminate.
    apply andb_true_iff in Hmatch as [_ ->%String.eqb_eq].
    pose proof (H2 _ _ _ Hin Hfield') as Hentry'.
    rewrite Hentry in Hentry'. injection Hentry' as <-. congruence.
  - intros Hage. exists (redeemId, record). split.
    + apply list_elem_of_In, elem_of_map_to_list, Hr.
    + cbn [fst snd]. rewrite Hage, Hfield, String.eqb_refl.
      apply String.eqb_neq in Hh. rewrite Hh. reflexivity.
Qed.

Lemma swept_index_None (P : Peers) (maxAgeMs : option Z) (st : State)
    (tokenHash : string) :
  tokenHashes st !! tokenHash = None →
  tokenHashes (swept P maxAgeMs st) !! tokenHash = None.
Proof.
  intros Hentry. unfold swept, RedemptionService.cleanupOldRedemptions.
  cbn [modify exec snd]. rewrite sweep_tokenHashes, Hentry.
  destruct (existsb _ _); reflexivity.
Qed.

Lemma in_step_sweep (P : Peers) (maxAgeMs : option Z) (st : State) :
  in_step st → in_step (swept P maxAgeMs st).
Proof.
  intros Hstep. pose proof Hstep as [H1 H2]. split.
  - intros h id Hentry.
    destruct (tokenHashes st !! h) as [id0|] eqn:Hentry0;
      [|rewrite (swept_index_None P maxAgeMs st h Hentry0) in Hentry; discriminate].
    destruct (H1 _ _ Hentry0) as (Hid & Hh & record & Hr & Hfield).
    rewrite (swept_index P maxAgeMs st h id0 record Hstep Hentry0 Hr) in Hentry.
    destruct (RedemptionService.createdBefore _ record) eqn:Hage; [discriminate|].
    injection Hentry as <-.
    split; [exact Hid|]. split; [exact Hh|]. exists record.
    split; [|exact Hfield]. rewrite swept_record, Hr, Hage. reflexivity.
  - intros id record h Hr Hfield. rewrite swept_record in Hr.
    destruct (redemptions st !! id) as [record0|] eqn:Hr0; [|discriminate].
    destruct (RedemptionService.createdBefore _ record0) eqn:Hage; [discriminate|].
    injection Hr as <-.
    pose proof (H2 _ _ _ Hr0 Hfield) as Hentry.
    rewrite (swept_index P maxAgeMs st h id record0 Hstep Hentry Hr0), Hage.
    reflexivity.
Qed.

Lemma guard_after_sweep (P : Peers) (maxAgeMs : option Z) (token : string)
    (st : State) (redeemId : string) (record : gmap string JsVal) :
  in_step st →
  tokenHashes st !! RedemptionService.generateTokenHash E token = Some redeemId →
  redemptions st !! redeemId = Some record →
  RedemptionService.checkExistingRedemption E token st = Some record
  ∧ RedemptionService.checkExistingRedemption E token (swept P maxAgeMs st)
    = if RedemptionService.createdBefore (cutoff_at maxAgeMs st) record
      then None else Some record.
Proof.
  intros Hstep Hentry Hr. pose proof Hstep as [H1 _].
  destruct (H1 _ _ Hentry) as (Hid%String.eqb_neq & _).
  unfold RedemptionService.checkExistingRedemption,
    RedemptionService.getRedemptionByTokenHash, RedemptionService.getRedemption.
  rewrite Hentry, Hid, Hr. split; [reflexivity|].
  rewrite (swept_index P maxAgeMs st _ _ _ Hstep Hentry Hr).
  destruct (RedemptionService.createdBefore _ record) eqn:Hage; [reflexivity|].
  rewrite Hid, swept_record, Hr, Hage. reflexivity.
Qed.

End InStep.


(** X13. The sweep keeps the ledger and its index in step: it leaves no
    index entry without its record and no record without its index
    entry. *)
Theorem sweep_keeps_in_step (P : Peers) (maxAgeMs : option Z) (st : State) :
  in_step st →
  in_step (exec P (RedemptionService.cleanupOldRedemptions maxAgeMs) st).2.
Proof. exact (in_step_sweep P maxAgeMs st). Qed.

(** X14. With the ledger and its index in step, a token that has a record
    is refused by the duplicate guard before the sweep, and after the
    sweep exactly when its record is not older than the maximum age: the
    sweep of an old record makes its token redeemable again. *)
Theorem sweep_frees_old_tokens
    (P : Peers) (E : Env) (maxAgeMs : option Z) (token : string) (st : State)
    (redeemId : string) (record : gmap string JsVal) :
  in_step st →
  tokenHashes st !! RedemptionService.generateTokenHash E token = Some redeemId →
  redemptions st !! redeemId = Some record →
  let after := (exec P (RedemptionService.cleanupOldRedemptions maxAgeMs) st).2 in
  let cutoff := now st - default (24 * 60 * 60 * 1000) maxAgeMs in
  RedemptionService.checkExistingRedemption E token st = Some record
  ∧ RedemptionService.checkExistingRedemption E token after
    = if RedemptionService.createdBefore cutoff record then None else Some record.
Proof. exact (guard_after_sweep E P maxAgeMs token st redeemId record). Qed.

(** ** The mint cache *)

Lemma getMint_cached (P : Peers) (mintUrl : string) (st : State) :
  mintUrl ∈ mints st → exec P (CashuMint.getMint mintUrl) st = (Return tt, st).
Proof.
  intros Hin. unfold CashuMint.getMint. unmonad. cbn [gets bind exec].
  rewrite bool_decide_eq_true_2 by exact Hin. reflexivity.
Qed.

Lemma getMint_probe (P : Peers) (mintUrl : string) (st : State) :
  mintUrl ∉ mints st →
  exec P (CashuMint.getMint mintUrl) st
  = match mint_getInfo P (trace st ++ [MintGetInfo mintUrl]) mintUrl with
    | Return _ =>
        (Return tt,
         set_mints (λ ms, {[mintUrl]} ∪ ms) (sent (MintGetInfo mintUrl) st))
    | Throw error =>
        (Throw (Error ("Failed to connect to mint " +:+ mintUrl +:+ ": "
                         +:+ message error)),
         sent (MintGetInfo mintUrl) st)
    end.
Proof.
  intros Hin. unfold CashuMint.getMint. unmonad. cbn [gets bind exec].
  rewrite bool_decide_eq_false_2 by exact Hin. cbn [negb].
  rewrite exec_try_catch. cbn [net bind exec respond sent trace].
  destruct (mint_getInfo P _ mintUrl) as [[]|error]; reflexivity.
Qed.

(** X15. The mint is probed only until it answered once: a mint that is
    in the cache is not contacted, a probe that succeeds puts the mint in
    the cache, so that no later [getMint] for it sends anything, and a
    probe that fails leaves the cache as it was and is reported as
    "Failed to connect to mint ...". *)
Theorem getMint_probes_once (P : Peers) (mintUrl : string) (st : State) :
  let run := exec P (CashuMint.getMint mintUrl) st in
  (mintUrl ∈ mints st → run = (Return tt, st))
  ∧ (mintUrl ∉ mints st →
     trace run.2 = (trace st ++ [MintGetInfo mintUrl])%list)
  ∧ match run.1 with
    | Return _ =>
        mintUrl ∈ mints run.2
        ∧ ∀ P', exec P' (CashuMint.getMint mintUrl) run.2 = (Return tt, run.2)
    | Throw error =>
        mints run.2 = mints st
        ∧ ∃ reason, error = Error ("Failed to connect to mint " +:+ mintUrl
                                     +:+ ": " +:+ reason)
    end.
Proof.
  intros run. subst run. destruct (decide (mintUrl ∈ mints st)) as [Hin|Hout].
  - rewrite (getMint_cached P mintUrl st Hin). cbn [fst snd].
    split; [reflexivity|]. split; [tauto|]. split; [exact Hin|].
    intros P'. apply getMint_cached, Hin.
  - rewrite (getMint_probe P mintUrl st Hout).
    split; [tauto|].
    destruct (mint_getInfo P _ mintUrl) as [[]|error]; cbn [fst snd].
    + split; [reflexivity|].
      assert (mintUrl ∈ mints (set_mints (λ ms, {[mintUrl]} ∪ ms)
                                 (sent (MintGetInfo mintUrl) st))) as Hin
          by (cbn [set_mints mints]; set_solver).
      split; [exact Hin|]. intros P'. apply getMint_cached, Hin.
    + split; [reflexivity|]. split; [reflexivity|]. eauto.
Qed.

(** ** The spendability probe *)

Definition spent_error : JsError :=
  Error "This token has already been spent and cannot be redeemed again".

Lemma sat_spendabilityStep_outcomes (E : Env) (token : string) :
  sat any any (λ o, o = Return tt ∨ o = Throw spent_error)
    (RedemptionService.spendabilityStep E token).
Proof.
  unfold RedemptionService.spendabilityStep. unmonad.
  apply sat_try_catch; [apply sat_any | intros []; auto |].
  intros e. destruct (_ || _); cbn [throw sat mret Run_ret]; auto.
Qed.

Section Spent.
Context (P : Peers) (E : Env) (cfg : LightningService.Config).
Context (token : string) (parsed : TokenData).
Context (Hparse : CashuMint.parseToken E token = Return parsed).

Let check := MintCheck (td_mint parsed) (map secret (td_proofs parsed)).

Lemma spendabilityStep_spent (checkResult : JsVal) (st : State) :
  td_mint parsed ∈ mints st →
  mint_check P (trace st ++ [check]) (td_mint parsed)
    (map secret (td_proofs parsed)) = Return checkResult →
  LightningService.is_nullish checkResult = false →
  RedemptionService.has_length_0 (or (get checkResult "spendable") (JArr [])) = true →
  exec P (RedemptionService.spendabilityStep E token) st
  = (Throw spent_error, sent check st).
Proof.
  intros Hcached Hanswer Hobject Hnone.
  unfold RedemptionService.spendabilityStep, CashuMint.checkTokenSpendable.
  unmonad. rewrite exec_try_catch, exec_bind, exec_try_catch, exec_bind.
  rewrite Hparse, exec_lift, exec_bind, (getMint_cached P _ st Hcached).
  rewrite exec_bind. cbn [net exec respond sent trace]. fold check.
  rewrite Hanswer. cbn [lift exec]. rewrite Hobject. cbn [exec mret Run_ret].
  cbn [spendable]. rewrite Hnone, orb_true_r. cbn [throw exec].
  reflexivity.
Qed.

End Spent.

Lemma merged_caches (redeemId : string) (updates : gmap string JsVal) (st : State) :
  mints (RedemptionService.merged redeemId updates st) = mints st
  ∧ trace (RedemptionService.merged redeemId updates st) = trace st.
Proof.
  unfold RedemptionService.merged. destruct (redemptions st !! redeemId); auto.
Qed.

Lemma spent_attempt (P : Peers) (E : Env) (cfg : LightningService.Config)
    (token : string) (lightningAddress : option string) (destination : string)
    (parsed : TokenData) (checkResult : JsVal) (st : State) :
  CashuMint.parseToken E token = Return parsed →
  LightningService.getLightningAddressToUse cfg lightningAddress
    = Return destination →
  0 < totalAmount parsed - CashuService.calculateFee (totalAmount parsed) →
  let check := MintCheck (td_mint parsed) (map secret (td_proofs parsed)) in
  td_mint parsed ∈ mints st →
  mint_check P (trace st ++ [check]) (td_mint parsed)
    (map secret (td_proofs parsed)) = Return checkResult →
  LightningService.is_nullish checkResult = false →
  RedemptionService.has_length_0 (or (get checkResult "spendable") (JArr [])) = true →
  let run := exec P (RedemptionService.performRedemption E cfg token
                       lightningAddress) st in
  run.1 = Return (NotRedeemed (uuidv4 E (drawn st))
                    "This token has already been spent and cannot be redeemed again")
  ∧ trace run.2 = (trace st ++ [check])%list.
Proof.
  intros Hparse Haddress Hnet check Hcached Hanswer Hobject Hnone run. subst run.
  rewrite (exec_performRedemption E cfg P _ _ _ st Haddress).
  unfold attempt. rewrite exec_try_catch.
  unfold RedemptionService.redemptionSteps. unmonad.
  cbn [RedemptionService.updateRedemption modify bind exec].
  rewrite exec_bind, Hparse, exec_lift. cbv zeta.
  apply Z.leb_gt in Hnet. rewrite minus_nonpos, Hnet.
  cbn [RedemptionService.updateRedemption modify bind exec].
  rewrite exec_bind.
  erewrite (spendabilityStep_spent P E token parsed Hparse checkResult);
    [ | | | exact Hobject | exact Hnone ].
  - unfold RedemptionService.recordFailure. unmonad.
    cbn [RedemptionService.updateRedemption modify bind exec mret Run_ret
           fst snd message spent_error Error].
    split; [reflexivity|].
    rewrite (proj2 (merged_caches _ _ _)). cbn [sent trace].
    rewrite !(proj2 (merged_caches _ _ _)). reflexivity.
  - rewrite !(proj1 (merged_caches _ _ _)). exact Hcached.
  - rewrite !(proj2 (merged_caches _ _ _)). exact Hanswer.
Qed.

(** X16. The spendability probe can end an attempt in one way only, with
    "This token has already been spent and cannot be redeemed again"; any
    other failure of the probe is passed over. When the mint answers the
    check with no spendable proofs (an empty list, or no list at all), the
    attempt ends with that error right after the check: no invoice is
    asked for and nothing is melted. *)
Theorem spent_token_stops_attempt
    (P : Peers) (E : Env) (cfg : LightningService.Config)
    (token : string) (lightningAddress : option string) (destination : string)
    (parsed : TokenData) (checkResult : JsVal) (st : State) :
  CashuMint.parseToken E token = Return parsed →
  LightningService.getLightningAddressToUse cfg lightningAddress
    = Return destination →
  0 < totalAmount parsed - CashuService.calculateFee (totalAmount parsed) →
  let check := MintCheck (td_mint parsed) (map secret (td_proofs parsed)) in
  td_mint parsed ∈ mints st →
  mint_check P (trace st ++ [check]) (td_mint parsed)
    (map secret (td_proofs parsed)) = Return checkResult →
  LightningService.is_nullish checkResult = false →
  RedemptionService.has_length_0 (or (get checkResult "spendable") (JArr [])) = true →
  let run := exec P (RedemptionService.performRedemption E cfg token
                       lightningAddress) st in
  run.1 = Return (NotRedeemed (uuidv4 E (drawn st))
                    "This token has already been spent and cannot be redeemed again")
  ∧ trace run.2 = (trace st ++ [check])%list
  ∧ ∀ P' st',
      (exec P' (RedemptionService.spendabilityStep E token) st').1 = Return tt
      ∨ (exec P' (RedemptionService.spendabilityStep E token) st').1
        = Throw (Error
            "This token has already been spent and cannot be redeemed again").
Proof.
  intros Hparse Haddress Hnet check Hcached Hanswer Hobject Hnone run.
  destruct (spent_attempt P E cfg token lightningAddress destination parsed
              checkResult st Hparse Haddress Hnet Hcached Hanswer Hobject Hnone)
    as [Hresult Htrace].
  split; [exact Hresult|]. split; [exact Htrace|].
  intros P' st'.
  exact (proj1 (exec_sat any any P' _ (λ _, True) _ st' (λ _ _ _ _, I)
                  (λ _ _ _, I) (sat_spendabilityStep_outcomes E token) I)).
Qed.

(** ** What the provider's answers are checked for *)

(** An LNURL-pay answer that [fetchLNURLpResponse] hands on. *)
Definition payable (data : JsVal) : Prop :=
  LightningService.is_nullish data = false
  ∧ is_str "ERROR" (get data "status") = false
  ∧ truthy (get data "callback") = true
  ∧ truthy (get data "minSendable") = true
  ∧ truthy (get data "maxSendable") = true.

Definition fetched (o : Outcome JsVal) : Prop :=
  match o with
  | Return data => payable data
  | Throw error =>
      error = Error "Unable to connect to Lightning address provider"
      ∨ ∃ reason, error = Error ("LNURLp fetch failed: " +:+ reason)
  end.

Lemma sat_fetchLNURLpResponse_fetched (lnurlpUrl : string) :
  sat any any fetched (LightningService.fetchLNURLpResponse lnurlpUrl).
Proof.
  unfold LightningService.fetchLNURLpResponse. unmonad.
  assert (∀ error : JsError,
            sat any any fetched
              (if LightningService.has_code error "ECONNREFUSED"
                  || LightningService.has_code error "ENOTFOUND"
               then throw (Error "Unable to connect to Lightning address provider")
               else throw (Error ("LNURLp fetch failed: " +:+ message error))))
    as Hhandler.
  { intros error. destruct (_ || _); cbn [throw sat fetched]; eauto. }
  apply sat_try_catch_post, sat_bind_post.
  cbn [net sat]. split; [exact I|]. intros [response|error]; cbn [lift sat];
    [|apply Hhandler].
  destruct (negb (status response =? 200)); [apply Hhandler|]. cbv zeta.
  destruct (LightningService.is_nullish (data response)) eqn:Hobject;
    [apply Hhandler|].
  destruct (is_str "ERROR" _) eqn:Herror; [apply Hhandler|].
  destruct (truthy (get (data response) "callback")) eqn:H1;
    cbn [negb orb]; [|apply Hhandler].
  destruct (truthy (get (data response) "minSendable")) eqn:H2;
    cbn [negb orb]; [|apply Hhandler].
  destruct (truthy (get (data response) "maxSendable")) eqn:H3;
    cbn [negb orb]; [|apply Hhandler].
  cbn [mret Run_ret sat fetched]. unfold payable. auto.
Qed.

(** X17. [fetchLNURLpResponse] sends one GET, without a query, to the
    given URL. What it returns is an object that is not an error answer
    and has a callback and both bounds, none of them missing, empty or 0;
    every failure is reported as "Unable to connect to Lightning address
    provider" or as "LNURLp fetch failed: ...". *)
Theorem fetchLNURLpResponse_result (P : Peers) (lnurlpUrl : string) (st : State) :
  let run := exec P (LightningService.fetchLNURLpResponse lnurlpUrl) st in
  run.2 = sent (HttpGet lnurlpUrl []) st
  ∧ match run.1 with
    | Return data =>
        LightningService.is_nullish data = false
        ∧ is_str "ERROR" (get data "status") = false
        ∧ truthy (get data "callback") = true
        ∧ truthy (get data "minSendable") = true
        ∧ truthy (get data "maxSendable") = true
    | Throw error =>
        error = Error "Unable to connect to Lightning address provider"
        ∨ ∃ reason, error = Error ("LNURLp fetch failed: " +:+ reason)
    end.
Proof.
  intros run. split.
  - subst run. unfold LightningService.fetchLNURLpResponse. unmonad.
    rewrite exec_try_catch, exec_bind. cbn [net exec respond].
    destruct (axios_get P _ lnurlpUrl []) as [response|error]; cbn [lift exec];
      [|destruct (_ || _); reflexivity].
    repeat (lazymatch goal with
            | |- context [exec P (if ?b then _ else _) _] => destruct b
            end; cbv zeta; cbn [throw exec mret Run_ret]);
      try reflexivity; destruct (_ || _); reflexivity.
  - exact (proj1 (exec_sat any any P fetched (λ _, True) _ st (λ _ _ _ _, I)
                    (λ _ _ _, I) (sat_fetchLNURLpResponse_fetched lnurlpUrl) I)).
Qed.

(** The invoice data that [resolveInvoice] hands on, for an address and
    an amount in sats. *)
Definition resolved (cfg : LightningService.Config) (lightningAddress : string)
    (amount : Z) (o : Outcome LightningService.InvoiceData) : Prop :=
  match o with
  | Return invoiceData =>
      LightningService.lightningAddress invoiceData = lightningAddress
      ∧ LightningService.inv_amount invoiceData = amount
      ∧ LightningService.amountMsats invoiceData
        = LightningService.satsToMillisats amount
      ∧ truthy (LightningService.bolt11 invoiceData) = true
      ∧ payable (LightningService.lnurlpResponse invoiceData)
      ∧ LightningService.validateAmount amount
          (LightningService.lnurlpResponse invoiceData) = true
      ∧ LightningService.isDomainAllowed cfg (LightningService.domain invoiceData)
        = true
      ∧ ∃ username,
          lightningAddress
          = username +:+ "@" +:+ LightningService.domain invoiceData
  | Throw error =>
      ∃ reason, error = Error ("Lightning address resolution failed: " +:+ reason)
  end.

Lemma sat_getInvoice_pr (E : Env) (callbackUrl : JsVal) (amount : Z)
    (comment : string) :
  sat any any (λ o, match o with
                    | Return (pr, _) => truthy pr = true
                    | Throw _ => True
                    end)
    (LightningService.getInvoice E callbackUrl amount comment).
Proof.
  unfold LightningService.getInvoice. unmonad.
  apply sat_try_catch_post. cbv zeta.
  destruct (negb (validURL E _)); [exact I|].
  apply sat_bind_post. cbn [net sat]. split; [exact I|].
  intros [response|error]; cbn [lift sat throw]; [|exact I].
  destruct (negb (status response =? 200)); [exact I|]. cbv zeta.
  destruct (LightningService.is_nullish (data response)); [exact I|].
  destruct (is_str "ERROR" _); [exact I|].
  destruct (truthy (get (data response) "pr")) eqn:Hpr; cbn [negb]; [|exact I].
  exact Hpr.
Qed.

Lemma sat_resolveInvoice_resolved (E : Env) (cfg : LightningService.Config)
    (lightningAddress : string) (amount : Z) (comment : string) :
  sat any any (resolved cfg lightningAddress amount)
    (LightningService.resolveInvoice E cfg lightningAddress amount comment).
Proof.
  unfold LightningService.resolveInvoice. unmonad.
  apply sat_try_catch_post.
  assert (∀ error : JsError,
            sat any any (resolved cfg lightningAddress amount)
              (throw (Error ("Lightning address resolution failed: "
                               +:+ message error)))) as Hhandler.
  { intros error. cbn [throw sat resolved]. eauto. }
  apply sat_bind_lift; [intros lnurlpUrl Hurl | intros; apply Hhandler].
  apply sat_bind_post.
  eapply sat_mono; [|apply sat_fetchLNURLpResponse_fetched].
  intros [lnurlpResponse|error]; cbn [fetched]; [intros Hpay|intros; apply Hhandler].
  destruct (LightningService.validateAmount amount lnurlpResponse) eqn:Hamount;
    cbn [negb]; [|apply Hhandler].
  cbv zeta. apply sat_bind_post.
  eapply sat_mono; [|apply sat_getInvoice_pr].
  intros [[pr action]|error]; [intros Hpr|intros; apply Hhandler].
  apply sat_bind_lift; [intros [username domain] Hparts | intros; apply Hhandler].
  cbn [mret Run_ret sat resolved LightningService.lightningAddress
         LightningService.inv_amount LightningService.amountMsats
         LightningService.bolt11 LightningService.lnurlpResponse
         LightningService.domain].
  repeat (split; [first [reflexivity | assumption]|]).
  unfold LightningService.parseLightningAddress in Hparts.
  destruct (LightningService.validateLightningAddress lightningAddress) eqn:Hvalid;
    [|discriminate].
  destruct (address_parts cfg lightningAddress Hvalid)
    as (username' & domain' & Haddress & _ & _ & _ & Hsplit & _).
  rewrite Hsplit in Hparts. cbn [negb] in Hparts.
  destruct (LightningService.isDomainAllowed cfg domain') eqn:Hallowed;
    [|discriminate].
  injection Hparts as <- <-. split; [exact Hallowed|]. eauto.
Qed.

(** X18. [resolveInvoice] hands on an invoice only when the address is of
    the form [username@domain] with a domain the allow-list admits, the
    provider's answer has its callback and bounds, the amount lies within
    these bounds, and the callback returned a non-empty invoice; the data
    carry the address, the amount in sats, and the amount in millisats as
    [satsToMillisats] gives it: the product with 1000 as a double, which is
    the exact product where that is below 2^53 (72057594037929 sats come
    out as 72057594037928992). Every failure is reported as "Lightning
    address resolution failed: ...". *)
Theorem resolveInvoice_result
    (P : Peers) (E : Env) (cfg : LightningService.Config)
    (lightningAddress : string) (amount : Z) (comment : string) (st : State) :
  match (exec P (LightningService.resolveInvoice E cfg lightningAddress amount
                   comment) st).1 with
  | Return invoiceData =>
      LightningService.lightningAddress invoiceData = lightningAddress
      ∧ LightningService.inv_amount invoiceData = amount
      ∧ LightningService.amountMsats invoiceData
        = LightningService.satsToMillisats amount
      ∧ (Z.abs (amount * 1000) < 2 ^ 53 →
         LightningService.amountMsats invoiceData = amount * 1000)
      ∧ truthy (LightningService.bolt11 invoiceData) = true
      ∧ truthy (get (LightningService.lnurlpResponse invoiceData) "callback") = true
      ∧ LightningService.validateAmount amount
          (LightningService.lnurlpResponse invoiceData) = true
      ∧ LightningService.isDomainAllowed cfg (LightningService.domain invoiceData)
        = true
      ∧ ∃ username,
          lightningAddress
          = username +:+ "@" +:+ LightningService.domain invoiceData
  | Throw error =>
      ∃ reason, error = Error ("Lightning address resolution failed: " +:+ reason)
  end
  ∧ LightningService.satsToMillisats 72057594037929 = 72057594037928992.
Proof.
  split; [|vm_compute; reflexivity].
  pose proof (proj1 (exec_sat any any P (resolved cfg lightningAddress amount)
                       (λ _, True) _ st (λ _ _ _ _, I) (λ _ _ _, I)
                       (sat_resolveInvoice_resolved E cfg lightningAddress amount
                          comment) I)) as H.
  destruct (exec P _ st).1 as [invoiceData|error]; cbn [resolved] in H; [|exact H].
  unfold payable in H.
  destruct H as (H1 & H2 & H3 & H4 & (_ & _ & H5 & _) & H6 & H7 & H8).
  repeat split; try assumption.
  intros Hsafe. rewrite H3. apply times_exact, Hsafe.
Qed.

(** ** The route [POST /api/check-spendable] *)

(** The calls of a spendability check: probes of a mint and checks. *)
Definition probing (_ : unit) (c : NetCall) : option unit :=
  match c with
  | MintGetInfo _ | MintCheck _ _ => Some tt
  | _ => None
  end.

Lemma probing_calls (calls : list NetCall) (s s' : unit) :
  run_calls probing s calls = Some s' →
  Forall (λ c, match c with
               | MintGetInfo _ | MintCheck _ _ => True
               | _ => False
               end) calls.
Proof.
  revert s. induction calls as [|c calls IH]; intros s; cbn [run_calls].
  - constructor.
  - destruct (probing s c) as [s1|] eqn:Hc; [|discriminate].
    intros Hrun. constructor; [|exact (IH _ Hrun)].
    destruct c; (exact I || discriminate).
Qed.

(** A write that leaves the ledger, its index and the id counter alone. *)
Definition keeps_records (f : State → State) : Prop :=
  ∀ st, redemptions (f st) = redemptions st
        ∧ tokenHashes (f st) = tokenHashes st
        ∧ drawn (f st) = drawn st.

Section CheckSpendable.
Context (E : Env).

Lemma sat_check_spendable (token : option string) :
  sat keeps_records any (λ o, ∃ answer, o = Return answer)
    (Server.check_spendable E token).
Proof.
  unfold Server.check_spendable. unmonad.
  destruct token as [t|]; [|cbn; eauto].
  destruct (String.eqb t ""); [cbn; eauto|].
  apply sat_try_catch_post.
  destruct (negb _); [cbn; eauto|].
  apply sat_bind_post.
  eapply sat_mono; [|apply (sat_checkTokenSpendable E keeps_records any)].
  - intros [check|e] _; cbn [sat mret Run_ret]; eauto.
  - intros f st. auto.
  - intros c _. exact I.
Qed.

Lemma obeys_check_spendable (token : option string) :
  obeys probing (λ _ _, True) tt (Server.check_spendable E token).
Proof.
  unfold Server.check_spendable. unmonad.
  destruct token as [t|]; [|exact I].
  destruct (String.eqb t ""); [exact I|].
  apply obeys_try_catch.
  destruct (negb _); [exact I|].
  apply obeys_bind.
  eapply obeys_mono; [|apply obeys_checkTokenSpendable with (s := tt)].
  - intros [check|e] s _; exact I.
  - intros parsed _. split; reflexivity.
Qed.

End CheckSpendable.

(** X19. [/api/check-spendable] always answers, with 200 or 400. It leaves
    the ledger, its index and the id counter as they were, and sends
    nothing but probes of a mint and spendability checks: no GET to a
    provider, no quote request, no melt. *)
Theorem check_spendable_reads_only
    (P : Peers) (E : Env) (token : option string) (st : State) :
  let run := exec P (Server.check_spendable E token) st in
  (∃ answer, run.1 = Return answer)
  ∧ redemptions run.2 = redemptions st
  ∧ tokenHashes run.2 = tokenHashes st
  ∧ drawn run.2 = drawn st
  ∧ ∃ calls,
      trace run.2 = (trace st ++ calls)%list
      ∧ ∀ c, c ∈ calls →
          match c with
          | MintGetInfo _ | MintCheck _ _ => True
          | _ => False
          end.
Proof.
  intros run.
  destruct (exec_sat keeps_records any P _
              (λ s, redemptions s = redemptions st
                    ∧ tokenHashes s = tokenHashes st ∧ drawn s = drawn st)
              _ st
              (λ f s Hf Hs, ltac:(destruct (Hf s) as (-> & -> & ->); exact Hs))
              (λ c s Hs, Hs) (sat_check_spendable E token)
              (conj eq_refl (conj eq_refl eq_refl)))
    as [Hanswer (H1 & H2 & H3)].
  split; [exact Hanswer|]. split; [exact H1|]. split; [exact H2|].
  split; [exact H3|].
  destruct (exec_obeys probing P _ tt _ st (obeys_check_spendable E token))
    as (calls & s' & Htrace & Hrun & _).
  exists calls. split; [exact Htrace|].
  apply Forall_forall. exact (probing_calls _ _ _ Hrun).
Qed.

(** ** The rate limiter *)

Module Limiter.

(** The requests that the limiter lets through, out of a run of requests
    [(client, time)] in the order they arrive, starting from the map
    [rateLimitMap]. *)
Fixpoint passed (limit : Z) (rateLimitMap : gmap (option string) (list Z))
    (requests : list (option string * Z)) : list (option string * Z) :=
  match requests with
  | [] => []
  | (client, now) :: requests' =>
      let r := Server.rateLimit limit client now rateLimitMap in
      ((if r.1 then [(client, now)] else []) ++ passed limit r.2 requests')%list
  end.

(** The map after these requests. *)
Fixpoint served (limit : Z) (rateLimitMap : gmap (option string) (list Z))
    (requests : list (option string * Z)) : gmap (option string) (list Z) :=
  match requests with
  | [] => rateLimitMap
  | (client, now) :: requests' =>
      served limit (Server.rateLimit limit client now rateLimitMap).2 requests'
  end.

(** The clock does not run backwards. *)
Fixpoint ascending (from : Z) (requests : list (option string * Z)) : Prop :=
  match requests with
  | [] => True
  | (_, now) :: requests' => from ≤ now ∧ ascending now requests'
  end.

(** The time of the last request. *)
Fixpoint final (from : Z) (requests : list (option string * Z)) : Z :=
  match requests with
  | [] => from
  | (_, now) :: requests' => final now requests'
  end.

(** The number of requests of [client] in [log] that fall within the
    minute that ends at [t]. *)
Definition within (client : option string) (t : Z)
    (log : list (option string * Z)) : nat :=
  length (List.filter (λ e, bool_decide (e.1 = client)
                            && (t - 60000 <? e.2) && (e.2 <=? t)) log).

Definition after (client : option string) (x : Z)
    (log : list (option string * Z)) : nat :=
  length (List.filter (λ e, bool_decide (e.1 = client) && (x <? e.2)) log).

Definition later (x : Z) (times : list Z) : nat :=
  length (List.filter (λ time, x <? time) times).

Lemma length_filter_le {A} (p q : A → bool) (l : list A) :
  (∀ a, p a = true → q a = true) →
  (length (List.filter p l) ≤ length (List.filter q l))%nat.
Proof.
  intros Hpq. induction l as [|a l IH]; [reflexivity|]. cbn [List.filter].
  destruct (p a) eqn:Hp.
  - rewrite (Hpq a Hp). cbn [length]. lia.
  - destruct (q a); cbn [length]; lia.
Qed.

Lemma later_filter (x y : Z) (times : list Z) :
  y ≤ x → later x (List.filter (λ time, y <? time) times) = later x times.
Proof.
  intros Hxy. unfold later. induction times as [|time times IH]; [reflexivity|].
  cbn [List.filter]. destruct (y <? time) eqn:Hy; cbn [List.filter].
  - destruct (x <? time); cbn [length]; rewrite IH; reflexivity.
  - apply Z.ltb_ge in Hy. destruct (x <? time) eqn:Hx; [|exact IH].
    apply Z.ltb_lt in Hx. lia.
Qed.

Section Window.
Context (limit : Z).

(** What holds between the map and the requests let through so far, the
    last of them at [T] or before: the map holds the times of those of the
    last minute, and of no others. *)
Definition counted (rateLimitMap : gmap (option string) (list Z))
    (log : list (option string * Z)) (T : Z) : Prop :=
  (∀ client x, T - 60000 ≤ x →
     after client x log = later x (default [] (rateLimitMap !! client)))
  ∧ (∀ client t, (within client t log ≤ Z.to_nat limit)%nat)
  ∧ (∀ e, e ∈ log → e.2 ≤ T).

Lemma counted_step (rateLimitMap : gmap (option string) (list Z))
    (log : list (option string * Z)) (T : Z) (client : option string) (now : Z) :
  counted rateLimitMap log T → T ≤ now →
  let r := Server.rateLimit limit client now rateLimitMap in
  counted r.2 (log ++ (if r.1 then [(client, now)] else [])) now.
Proof.
  intros (HJ & HW & HS) Hnow. unfold Server.rateLimit. cbv zeta.
  set (stored := default [] (rateLimitMap !! client)).
  set (validRequests := List.filter (λ time, now - 60000 <? time) stored).
  assert (∀ x, now - 60000 ≤ x → later x validRequests = later x stored)
    as Hvalid by (intros x Hx; apply later_filter, Hx).
  destruct (limit <=? Z.of_nat (length validRequests)) eqn:Hfull; cbn [fst snd].
  - rewrite app_nil_r. split; [|split].
    + intros c x Hx. destruct (decide (c = client)) as [->|Hne].
      * rewrite lookup_insert_eq. cbn [from_option id]. rewrite Hvalid by lia.
        apply HJ. lia.
      * rewrite lookup_insert_ne by congruence. apply HJ. lia.
    + exact HW.
    + intros e He. specialize (HS e He). lia.
  - apply Z.leb_gt in Hfull. split; [|split].
    + intros c x Hx. unfold after. rewrite List.filter_app, length_app.
      fold (after c x log). cbn [List.filter fst snd].
      destruct (decide (c = client)) as [->|Hne].
      * rewrite lookup_insert_eq. cbn [from_option id]. unfold later.
        rewrite List.filter_app, length_app. fold (later x validRequests).
        rewrite Hvalid by lia. rewrite bool_decide_eq_true_2 by reflexivity.
        cbn [andb List.filter]. specialize (HJ client x ltac:(lia)).
        fold stored in HJ. destruct (x <? now); cbn [length]; lia.
      * rewrite lookup_insert_ne by congruence.
        rewrite bool_decide_eq_false_2 by congruence. cbn [andb length].
        specialize (HJ c x ltac:(lia)). lia.
    + intros c t. unfold within. rewrite List.filter_app, length_app.
      fold (within c t log). cbn [List.filter fst snd].
      destruct (bool_decide (client = c) && (t - 60000 <? now) && (now <=? t))
        eqn:Hin; cbn [length]; [|specialize (HW c t); lia].
      apply andb_true_iff in Hin as [[->%bool_decide_eq_true Hlo%Z.ltb_lt]%andb_true_iff
                                       Hhi%Z.leb_le].
      assert (within c t log ≤ after c (now - 60000) log)%nat as Hle.
      { apply length_filter_le. intros e He.
        apply andb_true_iff in He as [[He1 He2]%andb_true_iff He3].
        rewrite He1. cbn [andb]. apply Z.ltb_lt in He2. apply Z.ltb_lt. lia. }
      specialize (HJ c (now - 60000) ltac:(lia)). fold stored in HJ.
      fold (later (now - 60000) stored) in validRequests.
      assert (length validRequests = later (now - 60000) stored) as Hlen
          by reflexivity.
      lia.
    + intros e [He|He]%elem_of_app.
      * specialize (HS e He). lia.
      * apply list_elem_of_singleton in He. subst e. cbn [snd]. lia.
Qed.

Lemma counted_served (requests : list (option string * Z))
    (rateLimitMap : gmap (option string) (list Z))
    (log : list (option string * Z)) (T : Z) :
  counted rateLimitMap log T → ascending T requests →
  counted (served limit rateLimitMap requests)
    (log ++ passed limit rateLimitMap requests) (final T requests).
Proof.
  revert rateLimitMap log T.
  induction requests as [|[c now] requests IH]; intros m log T Hc Hasc.
  - cbn [passed served final]. rewrite app_nil_r. exact Hc.
  - cbn [passed served final ascending] in *. destruct Hasc as [Hnow Hasc].
    rewrite app_assoc. apply IH; [|exact Hasc].
    exact (counted_step m log T c now Hc Hnow).
Qed.

Lemma counted_empty (from : Z) : counted ∅ [] from.
Proof.
  split; [|split].
  - intros c x _. rewrite lookup_empty. reflexivity.
  - intros c t'. cbn. lia.
  - intros e He. apply elem_of_nil in He. destruct He.
Qed.

(** With the clock at [now] or before for all of the log, the requests of
    the minute that ends at [now] are those after its start. *)
Lemma within_after (client : option string) (now : Z)
    (log : list (option string * Z)) :
  (∀ e, e ∈ log → e.2 ≤ now) → within client now log = after client (now - 60000) log.
Proof.
  intros Hlog. unfold within, after. induction log as [|e log IH]; [reflexivity|].
  cbn [List.filter].
  assert ((e.2 <=? now) = true) as -> by (apply Z.leb_le, Hlog; left).
  rewrite andb_true_r.
  specialize (IH (λ e' He', Hlog e' (list_elem_of_further _ _ _ He'))).
  destruct (_ && _); cbn [length]; rewrite IH; reflexivity.
Qed.

(** The verdict on a request: it passes exactly when fewer than [limit]
    requests of its client were let through in the minute before it. *)
Lemma counted_verdict (rateLimitMap : gmap (option string) (list Z))
    (log : list (option string * Z)) (T : Z) (client : option string) (now : Z) :
  counted rateLimitMap log T → T ≤ now →
  (Server.rateLimit limit client now rateLimitMap).1 = true
  ↔ Z.of_nat (within client now log) < limit.
Proof.
  intros (HJ & _ & HS) Hnow.
  rewrite within_after by (intros e He; specialize (HS e He); lia).
  rewrite (HJ client (now - 60000)) by lia.
  unfold Server.rateLimit, later. cbv zeta.
  destruct (Z.leb_spec limit
              (Z.of_nat (length (List.filter (λ time, now - 60000 <? time)
                                   (default [] (rateLimitMap !! client))))));
    cbn [fst]; split; first [discriminate | lia | reflexivity].
Qed.

Lemma ascending_app (from : Z) (before : list (option string * Z))
    (client : option string) (now : Z) (rest : list (option string * Z)) :
  ascending from (before ++ (client, now) :: rest) →
  ascending from before ∧ final from before ≤ now.
Proof.
  revert from. induction before as [|[c t] before IH]; intros from.
  - cbn [app ascending final]. tauto.
  - cbn [app ascending final]. intros [Hfrom Hrest].
    destruct (IH t Hrest). auto.
Qed.

End Window.

End Limiter.

(** X20. Starting from an empty map and with a clock that does not run
    backwards, the limiter lets through at most [RATE_LIMIT] requests of
    any one client within any one minute; a limit of zero or less lets
    none through. Requests that were refused do not count: a request is
    let through exactly when fewer than [RATE_LIMIT] requests of its client
    were let through in the minute that ends with it. *)
Theorem rateLimit_window (limit : Z) (requests : list (option string * Z))
    (from : Z) (client : option string) (t : Z) :
  Limiter.ascending from requests →
  (Limiter.within client t (Limiter.passed limit ∅ requests) ≤ Z.to_nat limit)%nat
  ∧ ∀ before c now rest,
      requests = (before ++ (c, now) :: rest)%list →
      (Server.rateLimit limit c now (Limiter.served limit ∅ before)).1 = true
      ↔ Z.of_nat (Limiter.within c now (Limiter.passed limit ∅ before)) < limit.
Proof.
  intros Hasc. split.
  - apply (Limiter.counted_served limit requests ∅ [] from);
      [apply Limiter.counted_empty | exact Hasc].
  - intros before c now rest ->.
    destruct (Limiter.ascending_app from before c now rest Hasc) as [Hbefore Hnow].
    exact (Limiter.counted_verdict limit _ _ _ c now
             (Limiter.counted_served limit before ∅ [] from
                (Limiter.counted_empty limit from) Hbefore) Hnow).
Qed.


(** ** [validateToken], and [meltToken] in the second revision *)

(** X21. [validateToken] accepts exactly the tokens that pass the format
    check as they stand and that [parseToken] parses: its own tests, on the
    total and on the number of proofs, never reject what [parseToken]
    returned. *)
Theorem validateToken_accepts (E : Env) (token : string) :
  CashuService.validateToken (getDecodedToken E) token = true
  ↔ CashuService.isValidTokenFormat token = true
    ∧ ∃ parsed, CashuMint.parseToken E token = Return parsed.
Proof.
  unfold CashuService.validateToken.
  pose proof (parseToken_cases E token) as Hparsed.
  unfold CashuMint.parseToken in *.
  destruct (CashuService.isValidTokenFormat token); cbn [negb].
  - destruct (CashuService.parseToken _ token) as [parsed|e].
    + destruct Hparsed as (_ & _ & Hproofs & _ & _ & _ & Htotal & _).
      split; [eauto|intros _].
      apply andb_true_iff. split; [apply Z.ltb_lt; exact Htotal|].
      apply Nat.ltb_lt. destruct (td_proofs parsed); [congruence|simpl; lia].
    + split; [discriminate|]. intros [_ [parsed [=]]].
  - split; [discriminate|]. intros [[=] _].
Qed.

Definition strict_melt (token : string) (E : Env) (o : Outcome MeltResult) : Prop :=
  match o with
  | Return meltResult =>
      truthy (mr_paid meltResult) = true
      ∧ ∃ parsed,
          CashuMint.parseToken E token = Return parsed
          ∧ ∃ fee_reserve,
              mr_fee meltResult = JNum fee_reserve
              ∧ Number.plus (mr_amount meltResult) fee_reserve ≤ totalAmount parsed
              ∧ (Z.abs (mr_amount meltResult + fee_reserve) < 2 ^ 53 →
                 mr_amount meltResult + fee_reserve ≤ totalAmount parsed)
              ∧ mr_netAmount meltResult
                = JNum (Number.minus (totalAmount parsed) fee_reserve)
              ∧ mr_actualFee meltResult
                = CashuService.calculateFee (totalAmount parsed)
  | Throw error =>
      str_includes "Insufficient funds" (message error) = true
      ∨ str_includes "Payment failed" (message error) = true
      ∨ str_includes "Quote not found" (message error) = true
      ∨ ∃ reason, error = Error ("Melt operation failed: " +:+ reason)
  end.

Lemma sat_strict_meltToken (E : Env) (token bolt11 : string) :
  sat any any (strict_melt token E) (CashuMintStrict.meltToken E token bolt11).
Proof.
  unfold CashuMintStrict.meltToken. unmonad.
  apply sat_try_catch_post.
  assert (∀ error : JsError,
            sat any any (strict_melt token E)
              (if str_includes "Insufficient funds" (message error)
                  || str_includes "Payment failed" (message error)
                  || str_includes "Quote not found" (message error)
               then throw error
               else throw (Error ("Melt operation failed: " +:+ message error))))
    as Hhandler.
  { intros error.
    destruct (str_includes "Insufficient funds" (message error)) eqn:H1;
      [cbn [orb throw sat strict_melt]; auto|].
    destruct (str_includes "Payment failed" (message error)) eqn:H2;
      [cbn [orb throw sat strict_melt]; auto|].
    destruct (str_includes "Quote not found" (message error)) eqn:H3;
      cbn [orb throw sat strict_melt]; eauto 6. }
  destruct (CashuMint.parseToken E token) as [parsed|e] eqn:Hparse;
    cbn [lift bind Run_bind]; [|apply Hhandler].
  apply sat_bind_post.
  eapply sat_mono; [|apply sat_getWallet; intros; exact I].
  intros [[]|e] _; [|apply Hhandler].
  apply sat_bind_lift; [intros [proofs mint] _ | intros e _; apply Hhandler].
  apply sat_bind_post. cbn [net sat]. split; [exact I|].
  intros [meltQuote|e]; cbn [lift sat]; [|apply Hhandler]. cbv zeta.
  destruct (_ <? _) eqn:Hcovered; [apply Hhandler|].
  apply Z.ltb_ge in Hcovered.
  apply sat_bind_post. cbn [net sat]. split; [exact I|].
  intros [meltResponse|e]; cbn [lift sat]; [|apply Hhandler].
  destruct (LightningService.is_nullish meltResponse); [apply Hhandler|].
  destruct (truthy (get meltResponse "paid")) eqn:Hpaid; cbn [negb];
    [|apply Hhandler].
  cbn [mret Run_ret sat strict_melt mr_paid mr_fee mr_amount mr_netAmount
         mr_actualFee].
  split; [exact Hpaid|]. exists parsed. split; [exact Hparse|].
  exists (fee_reserve meltQuote). repeat split; auto.
  intros Hsafe. rewrite plus_exact in Hcovered by exact Hsafe. exact Hcovered.
Qed.

(** X22. In the second revision [meltToken] returns a result only for an
    answer of the mint whose [paid] is truthy, to a quote that the token
    covers: the quote's amount and fee reserve, added as doubles, are at
    most the total, and so is their exact sum where it is below 2^53. The
    result then gives the reserved fee as the fee and the total less that
    fee, subtracted as doubles, as the net amount. Every failure either
    carries one of the three phrases the handler passes on or is reported
    as "Melt operation failed: ...". *)
Theorem strict_meltToken_paid_only (P : Peers) (E : Env) (token bolt11 : string)
    (st : State) :
  match (exec P (CashuMintStrict.meltToken E token bolt11) st).1 with
  | Return meltResult =>
      truthy (mr_paid meltResult) = true
      ∧ ∃ parsed,
          CashuMint.parseToken E token = Return parsed
          ∧ ∃ fee_reserve,
              mr_fee meltResult = JNum fee_reserve
              ∧ Number.plus (mr_amount meltResult) fee_reserve ≤ totalAmount parsed
              ∧ (Z.abs (mr_amount meltResult + fee_reserve) < 2 ^ 53 →
                 mr_amount meltResult + fee_reserve ≤ totalAmount parsed)
              ∧ mr_netAmount meltResult
                = JNum (Number.minus (totalAmount parsed) fee_reserve)
              ∧ mr_actualFee meltResult
                = CashuService.calculateFee (totalAmount parsed)
  | Throw error =>
      str_includes "Insufficient funds" (message error) = true
      ∨ str_includes "Payment failed" (message error) = true
      ∨ str_includes "Quote not found" (message error) = true
      ∨ ∃ reason, error = Error ("Melt operation failed: " +:+ reason)
  end.
Proof.
  destruct (exec_sat any any P (strict_melt token E) any
              (CashuMintStrict.meltToken E token bolt11) st) as [H _];
    [intros; exact I | intros; exact I | apply sat_strict_meltToken | exact I |].
  exact H.
Qed.


(** ** The properties above at the scenario *)

Module Cases.

Definition parsed : TokenData :=
  {| td_mint := "https://mint.example"; totalAmount := 21000;
     numProofs := 2; denominations := [16384; 4616];
     td_proofs := Scenario.proofs; format := "cashuA" |}.

(** A mint that finds none of the proofs spendable. *)
Definition P_spent : Peers := {|
  axios_get := axios_get (Scenario.P Scenario.paidResponse);
  mint_getInfo := mint_getInfo (Scenario.P Scenario.paidResponse);
  mint_check := λ _ _ _, Return (JObj [("spendable", JArr [])]);
  wallet_createMeltQuote := wallet_createMeltQuote (Scenario.P Scenario.paidResponse);
  wallet_meltTokens := wallet_meltTokens (Scenario.P Scenario.paidResponse)
|}.

(** The process after it has talked to the mint once. *)
Definition st_cached : State :=
  set_mints (λ _, {["https://mint.example"]}) Scenario.st0.

(** The process after the scenario's request was served. *)
Definition st_redeemed : State :=
  (exec (Scenario.P Scenario.paidResponse)
     (redeem Scenario.E Scenario.cfg (Some Scenario.token) None) Scenario.st0).2.

End Cases.

Lemma in_step_empty : in_step Scenario.st0.
Proof.
  split.
  - intros tokenHash redeemId H. cbn in H. rewrite lookup_empty in H. discriminate.
  - intros redeemId record tokenHash H. cbn in H. rewrite lookup_empty in H.
    discriminate.
Qed.

Lemma in_step_redeemed : in_step Cases.st_redeemed.
Proof.
  apply in_step_redeem.
  - exact in_step_empty.
  - vm_compute. discriminate.
  - vm_compute. reflexivity.
  - intros t [= <-]. vm_compute. discriminate.
Qed.

Lemma attempt_call_order_witness :
  let P := Scenario.P Scenario.paidResponse in
  let run := exec P (RedemptionService.performRedemption Scenario.E Scenario.cfg
                       Scenario.token None) Scenario.st0 in
  CashuMint.parseToken Scenario.E Scenario.token = Return Cases.parsed
  ∧ ∃ calls phase,
      trace run.2 = (trace Scenario.st0 ++ calls)%list
      ∧ run_calls (protocol (td_mint Cases.parsed)
                     (map secret (td_proofs Cases.parsed))
                     (totalAmount Cases.parsed)) Probing calls = Some phase
      ∧ (length (filter is_melt calls) ≤ 1)%nat
      ∧ (∀ redeemId paid amount invoiceAmount to usingDefault fee actualFee
           netAmount preimage change mint format,
           run.1 = Return (Redeemed redeemId paid amount invoiceAmount to
                             usingDefault fee actualFee netAmount preimage change
                             mint format) →
           phase = Melted ∧ length (filter is_melt calls) = 1%nat).
Proof.
  intros P run.
  assert (CashuMint.parseToken Scenario.E Scenario.token = Return Cases.parsed)
    as Hparse by (vm_compute; reflexivity).
  split; [exact Hparse|].
  exact (attempt_call_order P Scenario.E Scenario.cfg Scenario.token None
           Cases.parsed Scenario.st0 Hparse).
Defined.

Lemma attempt_own_mint_witness :
  let P := Scenario.P Scenario.paidResponse in
  let run := exec P (RedemptionService.performRedemption Scenario.E Scenario.cfg
                       Scenario.token None) Scenario.st0 in
  CashuMint.parseToken Scenario.E Scenario.token = Return Cases.parsed
  ∧ ∃ calls,
      trace run.2 = (trace Scenario.st0 ++ calls)%list
      ∧ ∀ c, c ∈ calls →
          match c with
          | MintGetInfo url => url = td_mint Cases.parsed
          | MintCheck url asked =>
              url = td_mint Cases.parsed
              ∧ asked = map secret (td_proofs Cases.parsed)
          | MintMeltQuote url _ => url = td_mint Cases.parsed
          | MintMelt url q _ =>
              url = td_mint Cases.parsed
              ∧ Number.plus (quote_amount q) (fee_reserve q)
                ≤ totalAmount Cases.parsed
              ∧ (Z.abs (quote_amount q + fee_reserve q) < 2 ^ 53 →
                 quote_amount q + fee_reserve q ≤ totalAmount Cases.parsed)
          | HttpGet _ _ => True
          end.
Proof.
  intros P run.
  assert (CashuMint.parseToken Scenario.E Scenario.token = Return Cases.parsed)
    as Hparse by (vm_compute; reflexivity).
  split; [exact Hparse|].
  exact (attempt_own_mint P Scenario.E Scenario.cfg Scenario.token None
           Cases.parsed Scenario.st0 Hparse).
Defined.

Lemma attempt_writes_own_record_witness :
  let P := Scenario.P_unreachable in
  let st := Cases.st_redeemed in
  let run := exec P (RedemptionService.performRedemption Scenario.E Scenario.cfg
                       Scenario.dust None) st in
  let redeemId := uuidv4 Scenario.E (drawn st) in
  let tokenHash := RedemptionService.generateTokenHash Scenario.E Scenario.dust in
  LightningService.getLightningAddressToUse Scenario.cfg None
    = Return "admin@example.org"
  ∧ (∃ result, run.1 = Return result)
  ∧ (∀ id, id ≠ redeemId → redemptions run.2 !! id = redemptions st !! id)
  ∧ tokenHashes run.2 = <[tokenHash := redeemId]> (tokenHashes st)
  ∧ drawn run.2 = S (drawn st)
  ∧ now run.2 = now st
  ∧ ∃ record,
      redemptions run.2 !! redeemId = Some record
      ∧ record !! "tokenHash" = Some (JStr tokenHash)
      ∧ record !! "lightningAddress" = Some (JStr "admin@example.org")
      ∧ record !! "createdAt" = Some (JNum (now st)).
Proof.
  intros P st run redeemId tokenHash.
  assert (LightningService.getLightningAddressToUse Scenario.cfg None
          = Return "admin@example.org") as Haddress by (vm_compute; reflexivity).
  split; [exact Haddress|].
  exact (attempt_writes_own_record P Scenario.E Scenario.cfg Scenario.dust None
           "admin@example.org" st Haddress).
Defined.


Lemma lookup_present {A} (m : gmap string A) (k : string) (d : A) :
  match m !! k with Some _ => true | None => false end = true → m !! k = Some (default d (m !! k)).
Proof. destruct (m !! k); [reflexivity | discriminate]. Qed.

Lemma in_step_tick (t : Z) (st : State) : in_step st → in_step (Loop.set_now t st).
Proof. intros H. exact H. Qed.

Lemma sweep_keeps_in_step_witness :
  let P := Scenario.P Scenario.paidResponse in
  let later := Loop.set_now (now Cases.st_redeemed + 25 * 60 * 60 * 1000)
                 Cases.st_redeemed in
  in_step later
  ∧ in_step (exec P (RedemptionService.cleanupOldRedemptions None) later).2.
Proof.
  intros P later.
  assert (in_step later) as Hstep by (apply in_step_tick, in_step_redeemed).
  split; [exact Hstep|].
  exact (sweep_keeps_in_step P None later Hstep).
Defined.

Lemma sweep_frees_old_tokens_witness :
  let P := Scenario.P Scenario.paidResponse in
  let later := Loop.set_now (now Cases.st_redeemed + 25 * 60 * 60 * 1000)
                 Cases.st_redeemed in
  let record := default ∅ (redemptions later !! "7c1e-0") in
  let after := (exec P (RedemptionService.cleanupOldRedemptions None) later).2 in
  let cutoff := now later - default (24 * 60 * 60 * 1000) None in
  in_step later
  ∧ tokenHashes later !! RedemptionService.generateTokenHash Scenario.E Scenario.token
    = Some "7c1e-0"
  ∧ redemptions later !! "7c1e-0" = Some record
  ∧ RedemptionService.checkExistingRedemption Scenario.E Scenario.token later
    = Some record
  ∧ RedemptionService.checkExistingRedemption Scenario.E Scenario.token after
    = if RedemptionService.createdBefore cutoff record then None else Some record.
Proof.
  intros P later record.
  assert (in_step later) as Hstep by (apply in_step_tick, in_step_redeemed).
  assert (tokenHashes later
            !! RedemptionService.generateTokenHash Scenario.E Scenario.token
          = Some "7c1e-0") as Hentry by (vm_compute; reflexivity).
  assert (redemptions later !! "7c1e-0" = Some record) as Hr
    by (apply lookup_present; vm_compute; reflexivity).
  intros after cutoff.
  split; [exact Hstep|]. split; [exact Hentry|]. split; [exact Hr|].
  exact (sweep_frees_old_tokens P Scenario.E None Scenario.token later
           "7c1e-0" record Hstep Hentry Hr).
Defined.

(** In the case above the record is a day old and more, so the sweep
    removes it and the guard lets the token through again. *)
Lemma sweep_frees_scenario_token :
  let P := Scenario.P Scenario.paidResponse in
  let later := Loop.set_now (now Cases.st_redeemed + 25 * 60 * 60 * 1000)
                 Cases.st_redeemed in
  let after := (exec P (RedemptionService.cleanupOldRedemptions None) later).2 in
  RedemptionService.checkExistingRedemption Scenario.E Scenario.token after = None.
Proof. vm_compute. reflexivity. Qed.

Lemma spent_token_stops_attempt_witness :
  let checkResult := JObj [("spendable", JArr [])] in
  let check := MintCheck (td_mint Cases.parsed)
                 (map secret (td_proofs Cases.parsed)) in
  let run := exec Cases.P_spent
               (RedemptionService.performRedemption Scenario.E Scenario.cfg
                  Scenario.token None) Cases.st_cached in
  CashuMint.parseToken Scenario.E Scenario.token = Return Cases.parsed
  ∧ LightningService.getLightningAddressToUse Scenario.cfg None
    = Return "admin@example.org"
  ∧ 0 < totalAmount Cases.parsed
        - CashuService.calculateFee (totalAmount Cases.parsed)
  ∧ td_mint Cases.parsed ∈ mints Cases.st_cached
  ∧ mint_check Cases.P_spent (trace Cases.st_cached ++ [check])
      (td_mint Cases.parsed) (map secret (td_proofs Cases.parsed))
    = Return checkResult
  ∧ LightningService.is_nullish checkResult = false
  ∧ RedemptionService.has_length_0 (or (get checkResult "spendable") (JArr []))
    = true
  ∧ run.1 = Return (NotRedeemed "7c1e-0"
                      "This token has already been spent and cannot be redeemed again")
  ∧ trace run.2 = [check].
Proof.
  intros checkResult check run.
  assert (CashuMint.parseToken Scenario.E Scenario.token = Return Cases.parsed)
    as Hparse by (vm_compute; reflexivity).
  assert (LightningService.getLightningAddressToUse Scenario.cfg None
          = Return "admin@example.org") as Haddress by (vm_compute; reflexivity).
  assert (0 < totalAmount Cases.parsed
              - CashuService.calculateFee (totalAmount Cases.parsed)) as Hnet
    by (vm_compute; reflexivity).
  assert (td_mint Cases.parsed ∈ mints Cases.st_cached) as Hcached
    by (vm_compute; reflexivity).
  assert (mint_check Cases.P_spent (trace Cases.st_cached ++ [check])
            (td_mint Cases.parsed) (map secret (td_proofs Cases.parsed))
          = Return checkResult) as Hanswer by reflexivity.
  assert (LightningService.is_nullish checkResult = false) as Hobject
    by reflexivity.
  assert (RedemptionService.has_length_0
            (or (get checkResult "spendable") (JArr [])) = true) as Hnone
    by (vm_compute; reflexivity).
  repeat (split; [assumption|]).
  destruct (spent_token_stops_attempt Cases.P_spent Scenario.E Scenario.cfg
              Scenario.token None "admin@example.org" Cases.parsed checkResult
              Cases.st_cached Hparse Haddress Hnet Hcached Hanswer Hobject Hnone)
    as (Hresult & Htrace & _).
  split; [exact Hresult | exact Htrace].
Defined.

Lemma rateLimit_window_witness :
  let client := Some "203.0.113.7" in
  let requests := [(client, 0); (client, 100); (client, 200); (client, 60050)] in
  Limiter.ascending 0 requests
  ∧ Limiter.passed 2 ∅ requests = [(client, 0); (client, 100); (client, 60050)]
  ∧ (Limiter.within client 60050 (Limiter.passed 2 ∅ requests) ≤ Z.to_nat 2)%nat.
Proof.
  intros client requests.
  assert (Limiter.ascending 0 requests) as Hasc by (cbn; lia).
  split; [exact Hasc|]. split; [vm_compute; reflexivity|].
  exact (proj1 (rateLimit_window 2 requests 0 client 60050 Hasc)).
Defined.

